(** * shadow-caster: edge extraction and ray casting of [canvas.ts]

    A shallow embedding of the geometry core of [src/canvas.ts]:
    the sparse cell map ([createCells]), the edge table ([createEdges]),
    the boundary scan [computeEdges], the ray caster [getRaysToEdges] and
    the segment intersection [lineIntersect].

    Grid coordinates and edge ids are JavaScript numbers that only ever hold
    small integers (loop counters, [Math.floor] results, a counter started
    at 1): they are modelled as [Z].  Pixel coordinates and angles are IEEE
    binary64 numbers: they are modelled by Rocq's primitive [float]. *)

From Stdlib Require Import ZArith List Bool Lia.
From Stdlib Require Import Floats Sorting.Sorted.
From stdpp Require Import base option list gmap.

Local Open Scope Z_scope.
Set Warnings "-inexact-float,-clear-no-such-hyp".

(** ** Constants *)

Definition TILE_SIZE : Z := 16.
Definition TILE_X_COUNT : Z := 20.
Definition TILE_Y_COUNT : Z := 20.

(** [NORTH = 0], [EAST = 1], [SOUTH = 2], [WEST = 3]: the indices into the
    two 4-tuples of a cell. *)
Inductive Side : Type := NORTH | EAST | SOUTH | WEST.

Definition sideIndex (s : Side) : Z :=
  match s with NORTH => 0 | EAST => 1 | SOUTH => 2 | WEST => 3 end.

#[global] Instance Side_eq_dec : EqDecision Side.
Proof. solve_decision. Defined.

(** A 4-tuple indexed by a side: [[boolean, boolean, boolean, boolean]] and
    [[number, number, number, number]] in the source. *)
Record Quad (A : Type) : Type := mkQuad { q0 : A; q1 : A; q2 : A; q3 : A }.
Arguments mkQuad {A} _ _ _ _.
Arguments q0 {A} _.
Arguments q1 {A} _.
Arguments q2 {A} _.
Arguments q3 {A} _.

Definition qget {A} (q : Quad A) (s : Side) : A :=
  match s with NORTH => q0 q | EAST => q1 q | SOUTH => q2 q | WEST => q3 q end.

Definition qset {A} (q : Quad A) (s : Side) (v : A) : Quad A :=
  match s with
  | NORTH => mkQuad v (q1 q) (q2 q) (q3 q)
  | EAST => mkQuad (q0 q) v (q2 q) (q3 q)
  | SOUTH => mkQuad (q0 q) (q1 q) v (q3 q)
  | WEST => mkQuad (q0 q) (q1 q) (q2 q) v
  end.

(** ** Data model *)

Module Edge.
Record t : Type := mk { sx : Z; sy : Z; ex : Z; ey : Z }.
End Edge.

Module Cell.
Record t : Type := mk
  { x : Z; y : Z; existEdges : Quad bool; edgeIds : Quad Z }.
End Cell.

Module Ray.
Record t : Type := mk
  { sx : float; sy : float; ex : float; ey : float; angle : float }.
End Ray.

Definition createCell (x y : Z) : Cell.t :=
  Cell.mk x y (mkQuad false false false false) (mkQuad 0 0 0 0).

(** The closure state of [setupCanvas] that the geometry core touches:
    the nested [Map] of cells, the [Map] of edges in insertion order with
    its id counter, the light source and the ray array. *)
Record State : Type := mkState
  { cells : gmap Z (gmap Z Cell.t);
    edges : list (Z * Edge.t);
    edgeId : Z;
    lightSource : option (float * float);
    rays : list Ray.t }.

Definition initState : State := mkState ∅ [] 1 None [].

Definition withCells (c : gmap Z (gmap Z Cell.t)) (st : State) : State :=
  mkState c (edges st) (edgeId st) (lightSource st) (rays st).
Definition withEdges (e : list (Z * Edge.t)) (st : State) : State :=
  mkState (cells st) e (edgeId st) (lightSource st) (rays st).
Definition withEdgeId (i : Z) (st : State) : State :=
  mkState (cells st) (edges st) i (lightSource st) (rays st).
Definition withLight (l : option (float * float)) (st : State) : State :=
  mkState (cells st) (edges st) (edgeId st) l (rays st).
Definition withRays (r : list Ray.t) (st : State) : State :=
  mkState (cells st) (edges st) (edgeId st) (lightSource st) r.

(** ** [createCells] *)

Definition hasCell (st : State) (x y : Z) : bool :=
  match cells st !! x with
  | Some ys => bool_decide (is_Some (ys !! y))
  | None => false
  end.

Definition getCell (st : State) (x y : Z) : option Cell.t :=
  match cells st !! x with
  | Some ys => ys !! y
  | None => None
  end.

Definition setCell (x y : Z) (value : bool) (st : State) : State :=
  if value then
    let row := match cells st !! x with Some ys => ys | None => ∅ end in
    withCells (<[x := <[y := createCell x y]> row]> (cells st)) st
  else
    match cells st !! x with
    | Some ys => withCells (<[x := delete y ys]> (cells st)) st
    | None => st
    end.

(** The cells of all rows.  A [gmap] lists its entries in key order, not in
    insertion order; only the drawing code reads this list. *)
Definition getAllCells (st : State) : list Cell.t :=
  map_to_list (cells st) ≫= λ xs, (map_to_list xs.2).*2.

(** A field assignment on the cell object stored at [(x, y)]: the object is
    shared with the map, so the map sees the write. *)
Definition writeCell (x y : Z) (f : Cell.t → Cell.t) (st : State) : State :=
  withCells (alter (alter f y) x (cells st)) st.

Definition setExist (s : Side) (b : bool) (c : Cell.t) : Cell.t :=
  Cell.mk (Cell.x c) (Cell.y c) (qset (Cell.existEdges c) s b) (Cell.edgeIds c).

Definition setId (s : Side) (i : Z) (c : Cell.t) : Cell.t :=
  Cell.mk (Cell.x c) (Cell.y c) (Cell.existEdges c) (qset (Cell.edgeIds c) s i).

(** ** [createEdges]

    A JavaScript [Map] keeps its keys in insertion order; [set] on a key
    that is present replaces the value where it stands. *)

Fixpoint mapGet {A} (k : Z) (m : list (Z * A)) : option A :=
  match m with
  | [] => None
  | (k', v) :: m' => if Z.eqb k k' then Some v else mapGet k m'
  end.

Fixpoint mapSet {A} (k : Z) (v : A) (m : list (Z * A)) : list (Z * A) :=
  match m with
  | [] => [(k, v)]
  | (k', v') :: m' =>
      if Z.eqb k k' then (k, v) :: m' else (k', v') :: mapSet k v m'
  end.

Definition getNextEdgeId (st : State) : Z * State :=
  (edgeId st, withEdgeId (edgeId st + 1) st).

Definition getEdge (st : State) (id : Z) : option Edge.t :=
  mapGet id (edges st).

Definition addEdge (edge : Edge.t) (st : State) : Z * State :=
  let (id, st1) := getNextEdgeId st in
  (id, withEdges (mapSet id edge (edges st1)) st1).

Definition hasEdge (st : State) (id : Z) : bool :=
  bool_decide (is_Some (getEdge st id)).

Definition getAllEdges (st : State) : list Edge.t := (edges st).*2.

Definition clearEdges (st : State) : State :=
  withEdgeId 1 (withEdges [] st).

(** A field assignment on the edge object stored under [id]. *)
Definition writeEdge (id : Z) (e : Edge.t) (st : State) : State :=
  withEdges (mapSet id e (edges st)) st.

(** ** [computeEdges] *)

(** The cell across a side. *)
Definition across (s : Side) (x y : Z) : Z * Z :=
  match s with
  | NORTH => (x, y - 1)
  | EAST => (x + 1, y)
  | SOUTH => (x, y + 1)
  | WEST => (x - 1, y)
  end.

(** The neighbour whose edge is continued: the cell on the left for the
    north and south sides, the cell on the top for the east and west sides. *)
Definition extending (s : Side) (x y : Z) : Z * Z :=
  match s with
  | NORTH | SOUTH => (x - 1, y)
  | EAST | WEST => (x, y - 1)
  end.

(** The edge literal passed to [addEdge] for a side of the cell [(x, y)]. *)
Definition unitEdge (s : Side) (x y : Z) : Edge.t :=
  match s with
  | NORTH => Edge.mk x y (x + 1) y
  | EAST => Edge.mk (x + 1) y (x + 1) (y + 1)
  | SOUTH => Edge.mk x (y + 1) (x + 1) (y + 1)
  | WEST => Edge.mk x y x (y + 1)
  end.

(** [edge.ex = x + 1] for the north and south sides, [edge.ey = y + 1] for
    the east and west sides. *)
Definition grow (s : Side) (x y : Z) (e : Edge.t) : Edge.t :=
  match s with
  | NORTH | SOUTH => Edge.mk (Edge.sx e) (Edge.sy e) (x + 1) (Edge.ey e)
  | EAST | WEST => Edge.mk (Edge.sx e) (Edge.sy e) (Edge.ex e) (y + 1)
  end.

(** One of the four "check ... edge" blocks of the loop body, for the cell at
    [(x, y)].  [None] is the [TypeError] of assigning to a field of
    [getEdge(edgeId)!] when the table has no such edge. *)
Definition checkSide (s : Side) (x y : Z) (st : State) : option State :=
  let '(ax, ay) := across s x y in
  if hasCell st ax ay then
    Some (writeCell x y (setId s 0) (writeCell x y (setExist s false) st))
  else
    let st1 := writeCell x y (setExist s true) st in
    let '(nx, ny) := extending s x y in
    let fresh :=
      let '(id, st2) := addEdge (unitEdge s x y) st1 in
      Some (writeCell x y (setId s id) st2) in
    match getCell st1 nx ny with
    | Some nCell =>
        if qget (Cell.existEdges nCell) s then
          let id := qget (Cell.edgeIds nCell) s in
          match getEdge st1 id with
          | Some edge =>
              Some (writeEdge id (grow s x y edge)
                      (writeCell x y (setId s id) st1))
          | None => None
          end
        else fresh
    | None => fresh
    end.

(** A loop over a list with a body that may throw. *)
Fixpoint forM {A} (l : list A) (body : A → State → option State)
    (st : State) : option State :=
  match l with
  | [] => Some st
  | a :: l' =>
      match body a st with
      | Some st' => forM l' body st'
      | None => None
      end
  end.

Definition processCell (x y : Z) (st : State) : option State :=
  match getCell st x y with
  | None => Some st
  | Some _ => forM [NORTH; EAST; SOUTH; WEST] (λ s, checkSide s x y) st
  end.

Definition computeEdges (st : State) : option State :=
  forM (seqZ 0 TILE_X_COUNT)
    (λ x, forM (seqZ 0 TILE_Y_COUNT) (λ y, processCell x y))
    (clearEdges st).

(** ** [lineIntersect]

    JavaScript numbers are IEEE binary64 values and its arithmetic and
    comparison operators are the IEEE operations, as are those of [float]:
    [s >= 0] is [0 <=? s], and every comparison with a NaN is [false]. *)

Module Point.
Record t : Type := mk { x : float; y : float }.
End Point.

Section Intersection.
Local Open Scope float_scope.

Definition lineIntersect (x0 y0 x1 y1 x2 y2 x3 y3 : float) : option Point.t :=
  let sx1 := x1 - x0 in
  let sy1 := y1 - y0 in
  let sx2 := x3 - x2 in
  let sy2 := y3 - y2 in
  let s := ((- sy1) * (x0 - x2) + sx1 * (y0 - y2))
           / ((- sx2) * sy1 + sx1 * sy2) in
  let t := (sx2 * (y0 - y2) - sy2 * (x0 - x2))
           / ((- sx2) * sy1 + sx1 * sy2) in
  if (0 <=? s) && (s <=? 1) && (0 <=? t) && (t <=? 1) then
    let i_x := x0 + t * sx1 in
    let i_y := y0 + t * sy1 in
    Some (Point.mk i_x i_y)
  else None.

End Intersection.

(** ** [getRaysToEdges] *)

(** The functions of the host's [Math] object, and [**], are specified by
    ECMAScript only up to an implementation-approximated result: they are
    parameters of the model. *)
Record Math : Type := mkMath
  { atan2 : float → float → float;
    cos : float → float;
    sin : float → float;
    pow : float → float → float }.

(** The number that holds an integer: the nearest binary64 value, which is
    the integer itself below 2^53 (edge coordinates are at most 20, pixel
    coordinates at most 320). *)
Definition Z2F (z : Z) : float :=
  SF2Prim (binary_normalize prec emax z 0 false).

(** The two ends of an edge in pixels, first the start and then the end, as
    the loop [for (let i = 0; i < 2; i++)] visits them. *)
Definition worldEnds (edge : Edge.t) : list (Z * Z) :=
  [ (Edge.sx edge * TILE_SIZE, Edge.sy edge * TILE_SIZE);
    (Edge.ex edge * TILE_SIZE, Edge.ey edge * TILE_SIZE) ].

Section Visibility.
Context (M : Math).
Local Open Scope float_scope.

(** The three rays pushed for one end point [(x, y)], for [i = 0, 1, 2]. *)
Definition rayAt (lx ly : float) (baseAng : float) (i : float) : Ray.t :=
  let ang := baseAng + (i - 1) * 0.0001 in
  let x := lx + cos M ang * Z2F TILE_X_COUNT * Z2F TILE_SIZE * 1.5 in
  let y := ly + sin M ang * Z2F TILE_Y_COUNT * Z2F TILE_SIZE * 1.5 in
  Ray.mk lx ly x y ang.

Definition rayTriple (lx ly : float) (p : Z * Z) : list Ray.t :=
  let baseAng := atan2 M (Z2F p.2 - ly) (Z2F p.1 - lx) in
  [rayAt lx ly baseAng 0; rayAt lx ly baseAng 1; rayAt lx ly baseAng 2].

(** One end point against the [visited] set.  The key of the set is the
    string [`${x},${y}`]; the coordinates are integers, for which that
    string determines the pair, so the set is modelled as a set of pairs. *)
Definition visitEnd (lx ly : float) (acc : gset (Z * Z) * list Ray.t)
    (p : Z * Z) : gset (Z * Z) * list Ray.t :=
  if decide (p ∈ acc.1) then acc
  else ({[ p ]} ∪ acc.1, acc.2 ++ rayTriple lx ly p).

Definition generateRays (lx ly : float) (es : list Edge.t) : list Ray.t :=
  (fold_left (λ acc edge, fold_left (visitEnd lx ly) (worldEnds edge) acc)
     es (∅, [])).2.

(** The intersection of a ray, as it stands, with an edge in pixels. *)
Definition hit (ray : Ray.t) (edge : Edge.t) : option Point.t :=
  lineIntersect (Ray.sx ray) (Ray.sy ray) (Ray.ex ray) (Ray.ey ray)
    (Z2F (Edge.sx edge * TILE_SIZE)) (Z2F (Edge.sy edge * TILE_SIZE))
    (Z2F (Edge.ex edge * TILE_SIZE)) (Z2F (Edge.ey edge * TILE_SIZE)).

(** [(x - lx) ** 2 + (y - ly) ** 2] *)
Definition dist2 (lx ly x y : float) : float :=
  pow M (x - lx) 2 + pow M (y - ly) 2.

(** The body of the clipping loops for one ray and one edge. *)
Definition clipStep (lx ly : float) (ray : Ray.t) (edge : Edge.t) : Ray.t :=
  match hit ray edge with
  | Some p =>
      let dist := dist2 lx ly (Point.x p) (Point.y p) in
      let rayLen := dist2 lx ly (Ray.ex ray) (Ray.ey ray) in
      if dist <? rayLen then
        Ray.mk (Ray.sx ray) (Ray.sy ray) (Point.x p) (Point.y p) (Ray.angle ray)
      else ray
  | None => ray
  end.

Definition clipRay (lx ly : float) (es : list Edge.t) (ray : Ray.t) : Ray.t :=
  fold_left (clipStep lx ly) es ray.

(** [(a, b) => a.angle - b.angle] *)
Definition compareFn (a b : Ray.t) : float := Ray.angle a - Ray.angle b.

(** [Array.prototype.sort] is a stable sort that places [a] before [b] when
    the comparator is negative on [(a, b)] and after it when positive: an
    insertion sort that moves each element left past the elements that
    compare greater. *)
Fixpoint insertBy {A} (cmp : A → A → float) (a : A) (l : list A) : list A :=
  match l with
  | [] => [a]
  | b :: l' => if 0 <? cmp b a then a :: b :: l' else b :: insertBy cmp a l'
  end.

Definition arraySort {A} (cmp : A → A → float) (l : list A) : list A :=
  fold_left (λ acc a, insertBy cmp a acc) l [].

Definition getRaysToEdges (st : State) : State :=
  match lightSource st with
  | None => withRays [] st
  | Some (lx, ly) =>
      let es := getAllEdges st in
      withRays (arraySort compareFn (clipRay lx ly es <$> generateRays lx ly es)) st
  end.

End Visibility.

(** A host, for evaluating the model on examples: [atan2] by octant-free
    division, unit cosine, zero sine, squaring by multiplication. *)
Definition sampleMath : Math :=
  mkMath (λ y x, (y / x)%float) (λ _, 1%float) (λ _, 0%float)
    (λ b _, (b * b)%float).

(** ** Reading the stores *)

Definition inRange (x y : Z) : Prop :=
  0 ≤ x < TILE_X_COUNT ∧ 0 ≤ y < TILE_Y_COUNT.

(** The flag and the id a cell holds for a side; [false] and [0] where the
    grid has no cell. *)
Definition flagAt (st : State) (x y : Z) (s : Side) : bool :=
  match getCell st x y with
  | Some c => qget (Cell.existEdges c) s
  | None => false
  end.

Definition idAt (st : State) (x y : Z) (s : Side) : Z :=
  match getCell st x y with
  | Some c => qget (Cell.edgeIds c) s
  | None => 0
  end.

(** Every cell outside the scanned extent still has the flags it was
    created with: [computeEdges] is the only writer of flags, and it only
    visits the extent. *)
Definition cellPristine (x : Z) (yc : Z * Cell.t) : bool :=
  (Z.leb 0 x && Z.ltb x TILE_X_COUNT && Z.leb 0 yc.1 && Z.ltb yc.1 TILE_Y_COUNT)
  || negb (qget (Cell.existEdges yc.2) NORTH || qget (Cell.existEdges yc.2) EAST
           || qget (Cell.existEdges yc.2) SOUTH || qget (Cell.existEdges yc.2) WEST).

Definition pristineOutside (st : State) : bool :=
  forallb (λ xr : Z * gmap Z Cell.t, forallb (cellPristine xr.1) (map_to_list xr.2))
    (map_to_list (cells st)).

Section StoreLemmas.

Lemma qget_qset {A} (q : Quad A) s s' v :
  qget (qset q s v) s' = if decide (s' = s) then v else qget q s'.
Proof. destruct s, s'; reflexivity. Qed.

Lemma hasCell_getCell st x y :
  hasCell st x y = true ↔ is_Some (getCell st x y).
Proof.
  unfold hasCell, getCell. destruct (cells st !! x) as [ys|].
  - apply bool_decide_eq_true.
  - split; [discriminate | intros [? ?]; discriminate].
Qed.

Lemma hasCell_false st x y : hasCell st x y = false ↔ getCell st x y = None.
Proof.
  rewrite <- not_true_iff_false, hasCell_getCell, eq_None_not_Some. tauto.
Qed.

Lemma getCell_writeCell st x y f a b :
  getCell (writeCell x y f st) a b =
  if decide (a = x ∧ b = y) then f <$> getCell st x y else getCell st a b.
Proof.
  unfold getCell, writeCell; simpl.
  destruct (decide (a = x ∧ b = y)) as [[-> ->]|Hne].
  - rewrite lookup_alter_eq. destruct (cells st !! x) as [ys|]; simpl; [|done].
    by rewrite lookup_alter_eq.
  - destruct (decide (a = x)) as [->|Hx].
    + rewrite lookup_alter_eq. destruct (cells st !! x) as [ys|]; simpl; [|done].
      rewrite lookup_alter_ne; [done|]. intros ->. by apply Hne.
    + by rewrite lookup_alter_ne.
Qed.

Lemma hasCell_writeCell st x y f a b :
  hasCell (writeCell x y f st) a b = hasCell st a b.
Proof.
  apply eq_true_iff_eq. rewrite !hasCell_getCell, getCell_writeCell.
  case_decide as H; [destruct H as [-> ->]|done].
  by rewrite fmap_is_Some.
Qed.

Lemma flagAt_None st x y s : hasCell st x y = false → flagAt st x y s = false.
Proof. rewrite hasCell_false. unfold flagAt. by intros ->. Qed.

Lemma idAt_None st x y s : hasCell st x y = false → idAt st x y s = 0.
Proof. rewrite hasCell_false. unfold idAt. by intros ->. Qed.

(** Keys, lookups and updates of the edge table. *)

Lemma mapGet_Some_elem {A} k (v : A) m : mapGet k m = Some v → (k, v) ∈ m.
Proof.
  induction m as [|[k' v'] m IH]; simpl; [done|].
  destruct (Z.eqb_spec k k') as [->|Hne].
  - intros [= ->]. left.
  - intros H. right. auto.
Qed.

Lemma mapGet_is_Some {A} k (m : list (Z * A)) : is_Some (mapGet k m) ↔ k ∈ m.*1.
Proof.
  induction m as [|[k' v'] m IH]; simpl.
  - split; [intros [? ?]; discriminate | intros H; inversion H].
  - destruct (Z.eqb_spec k k') as [->|Hne].
    + split; [intros _; left | intros _; eauto].
    + rewrite IH, elem_of_cons. split; [auto|]. intros [?|?]; [done|auto].
Qed.

Lemma mapGet_mapSet {A} k k' (v : A) m :
  mapGet k' (mapSet k v m) = if decide (k' = k) then Some v else mapGet k' m.
Proof.
  induction m as [|[k0 v0] m IH]; simpl.
  - destruct (Z.eqb_spec k' k); case_decide; congruence.
  - destruct (Z.eqb_spec k k0) as [->|Hne]; simpl.
    + destruct (Z.eqb_spec k' k0); case_decide; congruence.
    + destruct (Z.eqb_spec k' k0) as [->|Hne'].
      * case_decide; congruence.
      * apply IH.
Qed.

Lemma mapSet_fresh {A} k (v : A) m : k ∉ m.*1 → mapSet k v m = m ++ [(k, v)].
Proof.
  induction m as [|[k0 v0] m IH]; simpl; [done|].
  rewrite not_elem_of_cons. intros [Hne Hnin].
  destruct (Z.eqb_spec k k0); [done|]. by rewrite IH.
Qed.

Lemma mapSet_keys {A} k (v : A) m : k ∈ m.*1 → (mapSet k v m).*1 = m.*1.
Proof.
  induction m as [|[k0 v0] m IH]; simpl.
  - intros H; inversion H.
  - destruct (Z.eqb_spec k k0) as [->|Hne]; simpl; [done|].
    rewrite elem_of_cons. intros [?|Hin]; [done|]. f_equal. by apply IH.
Qed.

Lemma elem_of_mapSet {A} k (v : A) m k' v' :
  (k', v') ∈ mapSet k v m → (k', v') = (k, v) ∨ (k', v') ∈ m.
Proof.
  induction m as [|[k0 v0] m IH]; simpl.
  - rewrite list_elem_of_singleton. auto.
  - destruct (Z.eqb_spec k k0) as [->|Hne]; rewrite !elem_of_cons.
    + intros [?|?]; auto.
    + intros [?|H]; [auto|]. destruct (IH H); auto.
Qed.

End StoreLemmas.

(** ** What one side check does to the stores *)

Definition pos (s : Side) (x y : Z) : Z :=
  match s with NORTH | SOUTH => x | EAST | WEST => y end.

Definition line (s : Side) (x y : Z) : Z :=
  match s with NORTH | SOUTH => y | EAST | WEST => x end.

(** The cell that would continue an edge of [(x, y)]: the inverse of
    [extending]. *)
Definition next (s : Side) (x y : Z) : Z * Z :=
  match s with
  | NORTH | SOUTH => (x + 1, y)
  | EAST | WEST => (x, y + 1)
  end.

Definition startPos (s : Side) (e : Edge.t) : Z :=
  match s with NORTH | SOUTH => Edge.sx e | EAST | WEST => Edge.sy e end.

Definition endPos (s : Side) (e : Edge.t) : Z :=
  match s with NORTH | SOUTH => Edge.ex e | EAST | WEST => Edge.ey e end.

(** The edge lies on the grid line that carries side [s] of cell [(x, y)]. *)
Definition onLine (s : Side) (x y : Z) (e : Edge.t) : Prop :=
  match s with
  | NORTH => Edge.sy e = y ∧ Edge.ey e = y
  | EAST => Edge.sx e = x + 1 ∧ Edge.ex e = x + 1
  | SOUTH => Edge.sy e = y + 1 ∧ Edge.ey e = y + 1
  | WEST => Edge.sx e = x ∧ Edge.ex e = x
  end.

(** Axis-aligned and normalized. *)
Definition proper (e : Edge.t) : Prop :=
  (Edge.sy e = Edge.ey e ∧ Edge.sx e < Edge.ex e)
  ∨ (Edge.sx e = Edge.ex e ∧ Edge.sy e < Edge.ey e).

(** The writes of a side check to the cell at [(x, y)]: its flag and id for
    side [s] become [fl] and [i]; nothing else in the cell map moves. *)
Record CellUpd (st st' : State) (x y : Z) (s : Side) (fl : bool) (i : Z) : Prop :=
  { upd_has : ∀ a b, hasCell st' a b = hasCell st a b;
    upd_other : ∀ a b, ¬ (a = x ∧ b = y) → getCell st' a b = getCell st a b;
    upd_flag : ∀ a b s', flagAt st' a b s' =
                 if decide (a = x ∧ b = y ∧ s' = s) then fl else flagAt st a b s';
    upd_id : ∀ a b s', idAt st' a b s' =
               if decide (a = x ∧ b = y ∧ s' = s) then i else idAt st a b s';
    upd_light : lightSource st' = lightSource st;
    upd_rays : rays st' = rays st }.

Inductive SideStep (s : Side) (x y : Z) (st st' : State) : Prop :=
  | step_covered :
      hasCell st (across s x y).1 (across s x y).2 = true →
      CellUpd st st' x y s false 0 →
      edges st' = edges st → edgeId st' = edgeId st →
      SideStep s x y st st'
  | step_fresh :
      hasCell st (across s x y).1 (across s x y).2 = false →
      flagAt st (extending s x y).1 (extending s x y).2 s = false →
      CellUpd st st' x y s true (edgeId st) →
      edges st' = mapSet (edgeId st) (unitEdge s x y) (edges st) →
      edgeId st' = edgeId st + 1 →
      SideStep s x y st st'
  | step_reuse e :
      hasCell st (across s x y).1 (across s x y).2 = false →
      flagAt st (extending s x y).1 (extending s x y).2 s = true →
      getEdge st (idAt st (extending s x y).1 (extending s x y).2 s) = Some e →
      CellUpd st st' x y s true (idAt st (extending s x y).1 (extending s x y).2 s) →
      edges st' = mapSet (idAt st (extending s x y).1 (extending s x y).2 s)
                    (grow s x y e) (edges st) →
      edgeId st' = edgeId st →
      SideStep s x y st st'.

Section SideCheck.

Lemma extending_ne s x y :
  ¬ ((extending s x y).1 = x ∧ (extending s x y).2 = y).
Proof. destruct s; simpl; lia. Qed.

Lemma next_extending s x y a b :
  next s a b = (x, y) ↔ (a, b) = extending s x y.
Proof.
  destruct s; simpl; split; intros [= ? ?]; f_equal; lia.
Qed.

Lemma CellUpd_writes st st' x y s fl i c :
  getCell st x y = Some c →
  cells st' = cells (writeCell x y (setId s i) (writeCell x y (setExist s fl) st)) →
  lightSource st' = lightSource st → rays st' = rays st →
  CellUpd st st' x y s fl i.
Proof.
  intros Hc Hcells Hl Hr.
  assert (Hget : ∀ a b, getCell st' a b =
            if decide (a = x ∧ b = y) then Some (setId s i (setExist s fl c))
            else getCell st a b).
  { intros a b.
    transitivity (getCell (writeCell x y (setId s i)
                             (writeCell x y (setExist s fl) st)) a b).
    { unfold getCell. by rewrite Hcells. }
    rewrite getCell_writeCell. case_decide; [|rewrite getCell_writeCell; by case_decide].
    rewrite getCell_writeCell. rewrite decide_True by done. by rewrite Hc. }
  split; try done.
  - intros a b. apply eq_true_iff_eq. rewrite !hasCell_getCell, Hget.
    case_decide as H; [destruct H as [-> ->]|done]. rewrite Hc. split; eauto.
  - intros a b Hne. rewrite Hget. by rewrite decide_False.
  - intros a b s'. unfold flagAt. rewrite Hget.
    destruct (decide (a = x ∧ b = y)) as [[-> ->]|Hne].
    + rewrite Hc. simpl. rewrite qget_qset.
      destruct (decide (s' = s)) as [->|Hs].
      * by rewrite decide_True.
      * rewrite decide_False by tauto. done.
    + rewrite decide_False by tauto. done.
  - intros a b s'. unfold idAt. rewrite Hget.
    destruct (decide (a = x ∧ b = y)) as [[-> ->]|Hne].
    + rewrite Hc. simpl. rewrite qget_qset.
      destruct (decide (s' = s)) as [->|Hs].
      * by rewrite decide_True.
      * rewrite decide_False by tauto. done.
    + rewrite decide_False by tauto. done.
Qed.

(** [checkSide] either throws, when the continued neighbour names an edge
    the table does not have, or takes one of the three steps. *)
Lemma checkSide_step s x y st :
  hasCell st x y = true →
  match checkSide s x y st with
  | Some st' => SideStep s x y st st'
  | None =>
      hasCell st (across s x y).1 (across s x y).2 = false
      ∧ flagAt st (extending s x y).1 (extending s x y).2 s = true
      ∧ getEdge st (idAt st (extending s x y).1 (extending s x y).2 s) = None
  end.
Proof.
  intros Hhas. apply hasCell_getCell in Hhas as [c Hc].
  unfold checkSide.
  destruct (across s x y) as [ax ay] eqn:Hacr.
  destruct (extending s x y) as [nx ny] eqn:Hext. simpl.
  assert (Hne : ¬ (nx = x ∧ ny = y)).
  { pose proof (extending_ne s x y) as H. by rewrite Hext in H. }
  destruct (hasCell st ax ay) eqn:Hcov.
  { apply step_covered; rewrite ?Hacr; simpl; try done.
    by eapply CellUpd_writes. }
  rewrite getCell_writeCell, decide_False by done.
  assert (Hfresh : SideStep s x y st
            (writeCell x y (setId s (edgeId st))
               (withEdges (mapSet (edgeId st) (unitEdge s x y) (edges st))
                  (withEdgeId (edgeId st + 1)
                     (writeCell x y (setExist s true) st)))) ∨
          flagAt st nx ny s = true).
  { destruct (flagAt st nx ny s) eqn:Hfl; [by right|left].
    apply step_fresh; rewrite ?Hacr, ?Hext; simpl; try done.
    by eapply CellUpd_writes. }
  unfold flagAt, idAt in *.
  destruct (getCell st nx ny) as [nc|] eqn:Hnc.
  2:{ destruct Hfresh as [H|H]; [exact H|discriminate]. }
  destruct (qget (Cell.existEdges nc) s) eqn:Hfl.
  2:{ destruct Hfresh as [H|H]; [exact H|discriminate]. }
  unfold getEdge at 1. simpl.
  destruct (mapGet (qget (Cell.edgeIds nc) s) (edges st)) as [e|] eqn:He.
  - eapply step_reuse with (e := e); rewrite ?Hacr, ?Hext; simpl;
      unfold flagAt, idAt; rewrite ?Hnc; try done.
    by eapply CellUpd_writes.
  - done.
Qed.

End SideCheck.

(** ** The scan invariant *)

(** A side of an occupied cell is a boundary when the cell across is absent. *)
Definition bnd (occ : Z → Z → bool) (s : Side) (x y : Z) : bool :=
  occ x y && negb (occ (across s x y).1 (across s x y).2).

(** [RunStart occ s x y q]: walking from [(x, y)] against the scan along the
    line of side [s], through scanned cells that have side [s] as a
    boundary, stops at position [q]. *)
Inductive RunStart (occ : Z → Z → bool) (s : Side) : Z → Z → Z → Prop :=
  | rs_here x y :
      ¬ (inRange (extending s x y).1 (extending s x y).2
         ∧ bnd occ s (extending s x y).1 (extending s x y).2 = true) →
      RunStart occ s x y (pos s x y)
  | rs_ext x y q :
      inRange (extending s x y).1 (extending s x y).2 →
      bnd occ s (extending s x y).1 (extending s x y).2 = true →
      RunStart occ s (extending s x y).1 (extending s x y).2 q →
      RunStart occ s x y q.

(** The sides checked so far, [D], against the side [s] of [(x, y)] that is
    checked next: on the line of that side, exactly the scanned cells before
    [(x, y)] have had side [s] checked. *)
Definition Frontier (D : Z → Z → Side → Prop) (s : Side) (x y : Z) : Prop :=
  ∀ a b, line s a b = line s x y →
         (D a b s ↔ inRange a b ∧ pos s a b < pos s x y).

Record Inv (occ : Z → Z → bool) (D : Z → Z → Side → Prop) (st : State) : Prop :=
  { inv_dom : ∀ x y s, D x y s → inRange x y;
    inv_occ : ∀ x y, hasCell st x y = occ x y;
    inv_keys : 1 ≤ edgeId st ∧ (edges st).*1 = seqZ 1 (edgeId st - 1);
    inv_pristine : ∀ x y s, ¬ inRange x y → flagAt st x y s = false;
    inv_flag : ∀ x y s, D x y s → flagAt st x y s = bnd occ s x y;
    inv_noid : ∀ x y s, D x y s → flagAt st x y s = false → idAt st x y s = 0;
    inv_edge : ∀ x y s, D x y s → flagAt st x y s = true →
      ∃ e, getEdge st (idAt st x y s) = Some e ∧ onLine s x y e
           ∧ RunStart occ s x y (startPos s e) ∧ pos s x y < endPos s e;
    inv_last : ∀ x y s, D x y s → flagAt st x y s = true →
      ¬ (D (next s x y).1 (next s x y).2 s
         ∧ flagAt st (next s x y).1 (next s x y).2 s = true) →
      ∃ e, getEdge st (idAt st x y s) = Some e ∧ endPos s e = pos s x y + 1;
    inv_link : ∀ x y s, D x y s → flagAt st x y s = true →
      D (next s x y).1 (next s x y).2 s →
      flagAt st (next s x y).1 (next s x y).2 s = true →
      idAt st (next s x y).1 (next s x y).2 s = idAt st x y s;
    inv_side : ∀ x1 y1 s1 x2 y2 s2, D x1 y1 s1 → D x2 y2 s2 →
      flagAt st x1 y1 s1 = true → flagAt st x2 y2 s2 = true →
      idAt st x1 y1 s1 = idAt st x2 y2 s2 → s1 = s2;
    inv_proper : ∀ id e, (id, e) ∈ edges st → proper e }.

Section RunLemmas.
Context (occ : Z → Z → bool).

Lemma line_pos_inj s a b x y :
  line s a b = line s x y → pos s a b = pos s x y → a = x ∧ b = y.
Proof. destruct s; simpl; lia. Qed.

Lemma extending_line_pos s x y :
  line s (extending s x y).1 (extending s x y).2 = line s x y
  ∧ pos s (extending s x y).1 (extending s x y).2 = pos s x y - 1.
Proof. destruct s; simpl; lia. Qed.

Lemma next_line_pos s x y :
  line s (next s x y).1 (next s x y).2 = line s x y
  ∧ pos s (next s x y).1 (next s x y).2 = pos s x y + 1.
Proof. destruct s; simpl; lia. Qed.

Lemma inRange_between s a b x y c d :
  inRange a b → inRange x y →
  line s a b = line s x y → line s c d = line s x y →
  pos s a b ≤ pos s c d ≤ pos s x y → inRange c d.
Proof. unfold inRange. destruct s; simpl; lia. Qed.

Lemma RunStart_le s x y q : RunStart occ s x y q → q ≤ pos s x y.
Proof.
  induction 1 as [x y _|x y q _ _ _ IH]; [lia|].
  pose proof (extending_line_pos s x y). lia.
Qed.

(** Every cell of the run, from its start up to [(x, y)] excluded, is a
    scanned boundary cell. *)
Lemma RunStart_run s x y q :
  RunStart occ s x y q →
  ∀ a b, line s a b = line s x y → q ≤ pos s a b < pos s x y →
         inRange a b ∧ bnd occ s a b = true.
Proof.
  induction 1 as [x y _|x y q Hin Hb Hrun IH]; intros a b Hl Hp; [lia|].
  pose proof (extending_line_pos s x y) as [Hel Hep].
  destruct (decide (pos s a b = pos s x y - 1)) as [Heq|Hne].
  - destruct (line_pos_inj s a b (extending s x y).1 (extending s x y).2)
      as [-> ->]; [congruence|lia|]. done.
  - apply IH; [congruence|lia].
Qed.

Lemma RunStart_det s x y q q' :
  RunStart occ s x y q → RunStart occ s x y q' → q = q'.
Proof.
  intros H. revert q'.
  induction H as [x y Hn|x y q Hin Hb Hrun IH]; intros q' H'.
  - inversion H'; subst; [done|tauto].
  - inversion H'; subst; [tauto|]. by apply IH.
Qed.

End RunLemmas.

Section Geometry.

Lemma onLine_grow s a b x y e : onLine s a b (grow s x y e) ↔ onLine s a b e.
Proof. destruct s; simpl; tauto. Qed.

Lemma startPos_grow s x y e : startPos s (grow s x y e) = startPos s e.
Proof. by destruct s. Qed.

Lemma endPos_grow s x y e : endPos s (grow s x y e) = pos s x y + 1.
Proof. by destruct s. Qed.

Lemma onLine_extending s x y e :
  onLine s (extending s x y).1 (extending s x y).2 e ↔ onLine s x y e.
Proof. destruct s; simpl; tauto. Qed.

Lemma onLine_line s a b x y e :
  onLine s a b e → onLine s x y e → line s a b = line s x y.
Proof. destruct s; simpl; lia. Qed.

Lemma onLine_unitEdge s x y : onLine s x y (unitEdge s x y).
Proof. by destruct s. Qed.

Lemma startPos_unitEdge s x y : startPos s (unitEdge s x y) = pos s x y.
Proof. by destruct s. Qed.

Lemma endPos_unitEdge s x y : endPos s (unitEdge s x y) = pos s x y + 1.
Proof. by destruct s. Qed.

Lemma proper_unitEdge s x y : proper (unitEdge s x y).
Proof. unfold proper. destruct s; simpl; lia. Qed.

Lemma proper_grow s x y e :
  onLine s x y e → startPos s e ≤ pos s x y → proper (grow s x y e).
Proof. unfold proper. destruct s; simpl; lia. Qed.

End Geometry.

(** What a boundary side check leaves in the edge table: the edge [e'] now
    stored under the id [i] that the side received. *)
Record Effect (occ : Z → Z → bool) (D : Z → Z → Side → Prop)
    (s : Side) (x y : Z) (st st' : State) (i : Z) (e' : Edge.t) : Prop :=
  { eff_get : getEdge st' i = Some e';
    eff_line : onLine s x y e';
    eff_start : RunStart occ s x y (startPos s e');
    eff_end : endPos s e' = pos s x y + 1;
    eff_other : ∀ id, id ≠ i → getEdge st' id = getEdge st id;
    eff_owner : ∀ a b s', D a b s' → flagAt st a b s' = true →
      idAt st a b s' = i →
      s' = s ∧ ∃ e, getEdge st i = Some e ∧ e' = grow s x y e;
    eff_link : flagAt st (extending s x y).1 (extending s x y).2 s = true →
      idAt st (extending s x y).1 (extending s x y).2 s = i;
    eff_keys : 1 ≤ edgeId st' ∧ (edges st').*1 = seqZ 1 (edgeId st' - 1);
    eff_proper : ∀ id e, (id, e) ∈ edges st' → proper e }.

Section EdgeEffect.
Context (occ : Z → Z → bool) (D : Z → Z → Side → Prop).
Context (s : Side) (x y : Z) (st st' : State).
Hypothesis HI : Inv occ D st.
Hypothesis Hin : inRange x y.
Hypothesis Hhas : hasCell st x y = true.
Hypothesis HF : Frontier D s x y.

Let D' : Z → Z → Side → Prop := λ a b s', D a b s' ∨ (a = x ∧ b = y ∧ s' = s).

Lemma frontier_self : ¬ D x y s.
Proof. intros H. apply HF in H; [lia|done]. Qed.

Lemma frontier_next : ¬ D (next s x y).1 (next s x y).2 s.
Proof.
  pose proof (next_line_pos s x y) as [Hl Hp].
  intros H. apply HF in H; [lia|done].
Qed.

Lemma frontier_extending :
  inRange (extending s x y).1 (extending s x y).2 →
  D (extending s x y).1 (extending s x y).2 s.
Proof.
  pose proof (extending_line_pos s x y) as [Hl Hp].
  intros H. apply HF; [done|]. split; [done|lia].
Qed.

Lemma extending_flag_bnd :
  flagAt st (extending s x y).1 (extending s x y).2 s = true →
  inRange (extending s x y).1 (extending s x y).2
  ∧ D (extending s x y).1 (extending s x y).2 s
  ∧ bnd occ s (extending s x y).1 (extending s x y).2 = true.
Proof.
  intros Hfl.
  assert (Hr : inRange (extending s x y).1 (extending s x y).2).
  { destruct (decide (inRange (extending s x y).1 (extending s x y).2))
      as [?|Hn]; [done|].
    rewrite (inv_pristine _ _ _ HI _ _ s Hn) in Hfl. discriminate. }
  pose proof (frontier_extending Hr) as Hd.
  repeat split; try done; try apply Hr.
  by rewrite <- (inv_flag _ _ _ HI _ _ _ Hd).
Qed.

Lemma old_id_lt a b s' :
  D a b s' → flagAt st a b s' = true → 1 ≤ idAt st a b s' < edgeId st.
Proof.
  intros Hd Hfl.
  destruct (inv_edge _ _ _ HI _ _ _ Hd Hfl) as (e & He & _).
  assert (Hk : idAt st a b s' ∈ (edges st).*1).
  { apply mapGet_is_Some. unfold getEdge in He. eauto. }
  destruct (inv_keys _ _ _ HI) as [H1 Hkeys].
  rewrite Hkeys in Hk. apply elem_of_seqZ in Hk. lia.
Qed.

Lemma Effect_fresh :
  flagAt st (extending s x y).1 (extending s x y).2 s = false →
  edges st' = mapSet (edgeId st) (unitEdge s x y) (edges st) →
  edgeId st' = edgeId st + 1 →
  Effect occ D s x y st st' (edgeId st) (unitEdge s x y).
Proof.
  intros Hfl He Hid.
  destruct (inv_keys _ _ _ HI) as [H1 Hkeys].
  assert (Hnin : edgeId st ∉ (edges st).*1).
  { rewrite Hkeys, elem_of_seqZ. lia. }
  split.
  - unfold getEdge. rewrite He, mapGet_mapSet. by rewrite decide_True.
  - apply onLine_unitEdge.
  - rewrite startPos_unitEdge. apply rs_here. intros [Hr Hb].
    pose proof (frontier_extending Hr) as Hd.
    rewrite (inv_flag _ _ _ HI _ _ _ Hd) in Hfl. congruence.
  - apply endPos_unitEdge.
  - intros id Hne. unfold getEdge. rewrite He, mapGet_mapSet.
    by rewrite decide_False.
  - intros a b s' Hd Hf Heq. pose proof (old_id_lt _ _ _ Hd Hf). lia.
  - congruence.
  - rewrite Hid, He, mapSet_fresh, fmap_app, Hkeys by done. split; [lia|].
    replace (edgeId st + 1 - 1) with ((edgeId st - 1) + 1) by lia.
    rewrite seqZ_app by lia. f_equal. unfold seqZ. simpl. f_equal. lia.
  - intros id e. rewrite He. intros H. apply elem_of_mapSet in H as [[= _ ->]|H].
    + apply proper_unitEdge.
    + by eapply inv_proper.
Qed.

Lemma Effect_reuse e :
  flagAt st (extending s x y).1 (extending s x y).2 s = true →
  getEdge st (idAt st (extending s x y).1 (extending s x y).2 s) = Some e →
  edges st' = mapSet (idAt st (extending s x y).1 (extending s x y).2 s)
                (grow s x y e) (edges st) →
  edgeId st' = edgeId st →
  Effect occ D s x y st st'
    (idAt st (extending s x y).1 (extending s x y).2 s) (grow s x y e).
Proof.
  intros Hfl Hget He Hid.
  destruct (extending_flag_bnd Hfl) as (Hr & Hd & Hb).
  destruct (inv_edge _ _ _ HI _ _ _ Hd Hfl) as (e0 & He0 & Hline & Hrun & Hend).
  rewrite Hget in He0. injection He0 as <-.
  apply (proj1 (onLine_extending s x y e)) in Hline.
  pose proof (RunStart_le _ _ _ _ _ Hrun) as Hle.
  pose proof (extending_line_pos s x y) as [_ Hp].
  split.
  - unfold getEdge. rewrite He, mapGet_mapSet. by rewrite decide_True.
  - apply onLine_grow. exact Hline.
  - rewrite startPos_grow. by apply rs_ext.
  - apply endPos_grow.
  - intros id Hne. unfold getEdge. rewrite He, mapGet_mapSet.
    by rewrite decide_False.
  - intros a b s' Hd' Hf Heq. split; [|eauto].
    by apply (inv_side _ _ _ HI a b s' _ _ s Hd' Hd Hf Hfl).
  - done.
  - rewrite Hid, He. destruct (inv_keys _ _ _ HI) as [H1 Hkeys].
    split; [done|]. rewrite mapSet_keys; [done|].
    apply mapGet_is_Some. unfold getEdge in Hget. eauto.
  - intros id e1. rewrite He. intros H. apply elem_of_mapSet in H as [[= _ ->]|H].
    + apply proper_grow; [done|lia].
    + by eapply inv_proper.
Qed.

End EdgeEffect.

Section StepInvariant.
Context (occ : Z → Z → bool) (D : Z → Z → Side → Prop).
Context (s : Side) (x y : Z) (st st' : State).
Hypothesis HI : Inv occ D st.
Hypothesis Hin : inRange x y.
Hypothesis Hhas : hasCell st x y = true.
Hypothesis HF : Frontier D s x y.

Definition addSide : Z → Z → Side → Prop :=
  λ a b s', D a b s' ∨ (a = x ∧ b = y ∧ s' = s).

(** A covered side: the flag is cleared, the edge table is untouched. *)
Lemma Inv_covered :
  hasCell st (across s x y).1 (across s x y).2 = true →
  CellUpd st st' x y s false 0 →
  edges st' = edges st → edgeId st' = edgeId st →
  Inv occ addSide st'.
Proof.
  intros Hcov U He Hid.
  assert (HnD : ¬ D x y s) by (eapply frontier_self; eauto).
  assert (Hflag : ∀ a b s', flagAt st' a b s' = true →
            flagAt st a b s' = true ∧ ¬ (a = x ∧ b = y ∧ s' = s)).
  { intros a b s'. rewrite (upd_flag _ _ _ _ _ _ _ U). by case_decide. }
  assert (Hidat : ∀ a b s', ¬ (a = x ∧ b = y ∧ s' = s) →
            idAt st' a b s' = idAt st a b s').
  { intros a b s' Hne. rewrite (upd_id _ _ _ _ _ _ _ U). by rewrite decide_False. }
  assert (Hold : ∀ a b s', addSide a b s' → ¬ (a = x ∧ b = y ∧ s' = s) → D a b s').
  { intros a b s' [?|?] ?; tauto. }
  assert (Hget : ∀ id, getEdge st' id = getEdge st id).
  { intros id. unfold getEdge. by rewrite He. }
  split.
  - intros a b s' [Hd|(-> & -> & _)]; [by eapply inv_dom|done].
  - intros a b. rewrite (upd_has _ _ _ _ _ _ _ U). by eapply inv_occ.
  - rewrite Hid, He. by eapply inv_keys.
  - intros a b s' Hn. rewrite (upd_flag _ _ _ _ _ _ _ U).
    case_decide as Heq; [destruct Heq as (-> & -> & _); done|].
    by eapply inv_pristine.
  - intros a b s' Hd. rewrite (upd_flag _ _ _ _ _ _ _ U).
    case_decide as Heq.
    + destruct Heq as (-> & -> & ->). unfold bnd.
      rewrite <- !(inv_occ _ _ _ HI), Hcov, Hhas. done.
    + eapply inv_flag; eauto.
  - intros a b s' Hd. rewrite (upd_flag _ _ _ _ _ _ _ U), (upd_id _ _ _ _ _ _ _ U).
    case_decide as Heq; [done|]. eapply inv_noid; eauto.
  - intros a b s' Hd Hfl. apply Hflag in Hfl as [Hfl Hne].
    rewrite Hidat, Hget by done. eapply inv_edge; eauto.
  - intros a b s' Hd Hfl Hnn. apply Hflag in Hfl as [Hfl Hne].
    rewrite Hidat, Hget by done. eapply inv_last; eauto.
    intros [Hdn Hfn]. apply Hnn. split; [by left|].
    rewrite (upd_flag _ _ _ _ _ _ _ U). case_decide as Heq; [|done].
    destruct Heq as (Hx & Hy & ->). rewrite Hx, Hy in Hdn. done.
  - intros a b s' Hd Hfl Hdn Hfn.
    apply Hflag in Hfl as [Hfl Hne]. apply Hflag in Hfn as [Hfn Hnen].
    rewrite !Hidat by done. eapply inv_link; eauto.
  - intros a1 b1 s1 a2 b2 s2 Hd1 Hd2 Hf1 Hf2.
    apply Hflag in Hf1 as [Hf1 Hne1]. apply Hflag in Hf2 as [Hf2 Hne2].
    rewrite !Hidat by done. eapply inv_side; eauto.
  - intros id e. rewrite He. by eapply inv_proper.
Qed.

(** A boundary side: the flag is set and the side receives the id [i] of
    a new unit edge or of the neighbour's edge, grown by one cell. *)
Lemma Inv_boundary i e' :
  hasCell st (across s x y).1 (across s x y).2 = false →
  CellUpd st st' x y s true i →
  Effect occ D s x y st st' i e' →
  Inv occ addSide st'.
Proof.
  intros Hcov U E.
  assert (HnD : ¬ D x y s) by (eapply frontier_self; eauto).
  assert (HnN : ¬ D (next s x y).1 (next s x y).2 s)
    by (eapply frontier_next; eauto).
  assert (Hflag : ∀ a b s', ¬ (a = x ∧ b = y ∧ s' = s) →
            flagAt st' a b s' = flagAt st a b s').
  { intros a b s' Hne. rewrite (upd_flag _ _ _ _ _ _ _ U). by rewrite decide_False. }
  assert (Hflagx : flagAt st' x y s = true).
  { rewrite (upd_flag _ _ _ _ _ _ _ U). by rewrite decide_True. }
  assert (Hidat : ∀ a b s', ¬ (a = x ∧ b = y ∧ s' = s) →
            idAt st' a b s' = idAt st a b s').
  { intros a b s' Hne. rewrite (upd_id _ _ _ _ _ _ _ U). by rewrite decide_False. }
  assert (Hidx : idAt st' x y s = i).
  { rewrite (upd_id _ _ _ _ _ _ _ U). by rewrite decide_True. }
  assert (Hcase : ∀ a b s', addSide a b s' →
            (a = x ∧ b = y ∧ s' = s) ∨ (D a b s' ∧ ¬ (a = x ∧ b = y ∧ s' = s))).
  { intros a b s' [Hd|Heq]; [|by left]. right. split; [done|].
    intros (-> & -> & ->). done. }
  (* an earlier side that shares the id lies on the same line, before *)
  assert (Hsame : ∀ a b s', D a b s' → flagAt st a b s' = true →
            idAt st a b s' = i →
            s' = s ∧ line s a b = line s x y ∧ pos s a b < pos s x y
            ∧ ∃ e, getEdge st i = Some e ∧ e' = grow s x y e
                   ∧ onLine s a b e ∧ RunStart occ s a b (startPos s e)).
  { intros a b s' Hd Hf Heq.
    destruct (eff_owner _ _ _ _ _ _ _ _ _ E a b s' Hd Hf Heq) as (-> & e & Hge & ->).
    destruct (inv_edge _ _ _ HI _ _ _ Hd Hf) as (e0 & He0 & Hl0 & Hr0 & _).
    rewrite Heq, Hge in He0. injection He0 as <-.
    pose proof (eff_line _ _ _ _ _ _ _ _ _ E) as Hl. apply onLine_grow in Hl.
    pose proof (onLine_line _ _ _ _ _ _ Hl0 Hl) as Hline.
    split; [done|]. split; [done|]. split; [by apply HF|]. eauto 6. }
  split.
  - intros a b s' [Hd|(-> & -> & _)]; [by eapply inv_dom|done].
  - intros a b. rewrite (upd_has _ _ _ _ _ _ _ U). by eapply inv_occ.
  - by eapply eff_keys.
  - intros a b s' Hn. rewrite Hflag; [by eapply inv_pristine|].
    intros (-> & -> & _). done.
  - intros a b s' Hd. apply Hcase in Hd as [(-> & -> & ->)|[Hd Hne]].
    + rewrite Hflagx. unfold bnd.
      rewrite <- !(inv_occ _ _ _ HI), Hcov, Hhas. done.
    + rewrite Hflag by done. eapply inv_flag; eauto.
  - intros a b s' Hd. apply Hcase in Hd as [(-> & -> & ->)|[Hd Hne]].
    + rewrite Hflagx. done.
    + rewrite Hflag, Hidat by done. eapply inv_noid; eauto.
  - intros a b s' Hd Hfl. apply Hcase in Hd as [(-> & -> & ->)|[Hd Hne]].
    + rewrite Hidx. exists e'. split; [by eapply eff_get|].
      split; [by eapply eff_line|]. split; [by eapply eff_start|].
      rewrite (eff_end _ _ _ _ _ _ _ _ _ E). lia.
    + rewrite Hflag in Hfl by done. rewrite Hidat by done.
      destruct (decide (idAt st a b s' = i)) as [Heq|Hneq].
      * destruct (Hsame _ _ _ Hd Hfl Heq) as (-> & Hl & Hp & e & Hge & -> & Hol & Hrs).
        rewrite Heq. exists (grow s x y e). split; [by eapply eff_get|].
        split; [by apply onLine_grow|]. rewrite startPos_grow, endPos_grow.
        split; [done|lia].
      * rewrite (eff_other _ _ _ _ _ _ _ _ _ E) by done. eapply inv_edge; eauto.
  - intros a b s' Hd Hfl Hnn. apply Hcase in Hd as [(-> & -> & ->)|[Hd Hne]].
    + rewrite Hidx. exists e'. split; [by eapply eff_get|by eapply eff_end].
    + rewrite Hflag in Hfl by done. rewrite Hidat by done.
      destruct (decide (idAt st a b s' = i)) as [Heq|Hneq].
      * exfalso.
        destruct (Hsame _ _ _ Hd Hfl Heq) as (-> & Hl & Hp & e & Hge & -> & Hol & Hrs).
        pose proof (next_line_pos s a b) as [Hnl Hnp].
        apply Hnn.
        destruct (decide (pos s a b + 1 = pos s x y)) as [Hp1|Hp1].
        { destruct (line_pos_inj s (next s a b).1 (next s a b).2 x y)
            as [-> ->]; [congruence|lia|].
          split; [by right|done]. }
        assert (Hrn : inRange (next s a b).1 (next s a b).2).
        { eapply (inRange_between s a b x y); eauto.
          - by eapply inv_dom.
          - congruence.
          - lia. }
        assert (Hdn : D (next s a b).1 (next s a b).2 s).
        { apply HF; [congruence|]. split; [done|lia]. }
        split; [by left|].
        rewrite Hflag by (intros (Hx & Hy & _); rewrite Hx, Hy in Hnp; lia).
        rewrite (inv_flag _ _ _ HI _ _ _ Hdn).
        pose proof (eff_start _ _ _ _ _ _ _ _ _ E) as Hrx.
        rewrite startPos_grow in Hrx.
        pose proof (RunStart_le _ _ _ _ _ Hrs).
        eapply (RunStart_run occ s x y _ Hrx); [congruence|lia].
      * rewrite (eff_other _ _ _ _ _ _ _ _ _ E) by done. eapply inv_last; eauto.
        intros [Hdn Hfn]. apply Hnn. split; [by left|].
        rewrite Hflag; [done|]. intros (Hx & Hy & ->).
        rewrite Hx, Hy in Hdn. done.
  - intros a b s' Hd Hfl Hdn Hfn.
    apply Hcase in Hd as [(-> & -> & ->)|[Hd Hne]].
    { exfalso. apply Hcase in Hdn as [(Hx & Hy & _)|[Hdn _]]; [|done].
      pose proof (next_line_pos s x y) as [_ Hnp]. rewrite Hx, Hy in Hnp. lia. }
    rewrite Hflag in Hfl by done. rewrite (Hidat a b s') by done.
    apply Hcase in Hdn as [(Hx & Hy & ->)|[Hdn Hnen]].
    + assert (Hab : (a, b) = extending s x y).
      { apply next_extending. destruct (next s a b); simpl in *. congruence. }
      rewrite Hx, Hy, Hidx.
      assert (a = (extending s x y).1 ∧ b = (extending s x y).2) as [-> ->].
      { rewrite <- Hab. done. }
      symmetry. by eapply eff_link.
    + rewrite Hflag in Hfn by done. rewrite Hidat by done.
      eapply inv_link; eauto.
  - intros a1 b1 s1 a2 b2 s2 Hd1 Hd2 Hf1 Hf2 Heq.
    apply Hcase in Hd1 as [(-> & -> & ->)|[Hd1 Hne1]];
      apply Hcase in Hd2 as [(-> & -> & ->)|[Hd2 Hne2]]; [done| | |].
    + rewrite Hidx in Heq. rewrite Hflag in Hf2 by done.
      rewrite Hidat in Heq by done.
      destruct (Hsame _ _ _ Hd2 Hf2 (eq_sym Heq)) as (-> & _). done.
    + rewrite Hidx in Heq. rewrite Hflag in Hf1 by done.
      rewrite Hidat in Heq by done.
      destruct (Hsame _ _ _ Hd1 Hf1 Heq) as (-> & _). done.
    + rewrite Hflag in Hf1, Hf2 by done. rewrite !Hidat in Heq by done.
      eapply inv_side; eauto.
  - by eapply eff_proper.
Qed.

End StepInvariant.

(** ** The invariant along the scan *)

(** What a recompute leaves alone: the cells outside the scanned extent, the
    light source and the rays. *)
Definition Frame (st st' : State) : Prop :=
  (∀ a b, ¬ inRange a b → getCell st' a b = getCell st a b)
  ∧ lightSource st' = lightSource st ∧ rays st' = rays st.

(** The sides checked before side number [ck] of the cell [(cx, cy)], in the
    order of the two loops and of the four blocks of the body. *)
Definition done (cx cy ck : Z) (a b : Z) (s : Side) : Prop :=
  inRange a b
  ∧ (a < cx ∨ (a = cx ∧ (b < cy ∨ (b = cy ∧ sideIndex s < ck)))).

Section Scan.
Context (occ : Z → Z → bool).

Lemma Frame_refl st : Frame st st.
Proof. by split. Qed.

Lemma Frame_trans st1 st2 st3 : Frame st1 st2 → Frame st2 st3 → Frame st1 st3.
Proof.
  intros (H1 & H2 & H3) (H4 & H5 & H6). split; [|split; congruence].
  intros a b Hn. rewrite H4, H1; done.
Qed.

Lemma SideStep_upd s x y st st' :
  SideStep s x y st st' → ∃ fl i, CellUpd st st' x y s fl i.
Proof. destruct 1; eauto. Qed.

Lemma Inv_weaken D D' st :
  Inv occ D st →
  (∀ a b s, D a b s → D' a b s) →
  (∀ a b s, D' a b s → D a b s ∨ (inRange a b ∧ hasCell st a b = false)) →
  Inv occ D' st.
Proof.
  intros HI Hsub Hsup.
  assert (Hfl : ∀ a b s, D' a b s → flagAt st a b s = true → D a b s).
  { intros a b s Hd Hf. destruct (Hsup _ _ _ Hd) as [?|[_ Hno]]; [done|].
    rewrite (flagAt_None _ _ _ _ Hno) in Hf. discriminate. }
  split.
  - intros a b s Hd. destruct (Hsup _ _ _ Hd) as [?|[? _]]; [|done].
    by eapply inv_dom.
  - by eapply inv_occ.
  - by eapply inv_keys.
  - by eapply inv_pristine.
  - intros a b s Hd. destruct (Hsup _ _ _ Hd) as [?|[_ Hno]].
    + by eapply inv_flag.
    + rewrite (flagAt_None _ _ _ _ Hno). unfold bnd.
      by rewrite <- (inv_occ _ _ _ HI), Hno.
  - intros a b s Hd Hf. destruct (Hsup _ _ _ Hd) as [?|[_ Hno]].
    + by eapply inv_noid.
    + by apply idAt_None.
  - intros a b s Hd Hf. eapply inv_edge; eauto.
  - intros a b s Hd Hf Hn. eapply inv_last; eauto.
    intros [? ?]. apply Hn. auto.
  - intros a b s Hd Hf Hdn Hfn. eapply inv_link; eauto.
  - intros a1 b1 s1 a2 b2 s2 Hd1 Hd2 Hf1 Hf2. eapply inv_side; eauto.
  - by eapply inv_proper.
Qed.

Lemma Frontier_done s cx cy : Frontier (done cx cy (sideIndex s)) s cx cy.
Proof.
  intros a b Hl. unfold done, inRange. destruct s; simpl in *; subst; lia.
Qed.

(** One block of the loop body keeps the invariant and does not throw. *)
Lemma checkSide_done s cx cy st :
  Inv occ (done cx cy (sideIndex s)) st → inRange cx cy →
  hasCell st cx cy = true →
  ∃ st', checkSide s cx cy st = Some st'
         ∧ Inv occ (done cx cy (sideIndex s + 1)) st'
         ∧ hasCell st' cx cy = true ∧ Frame st st'.
Proof.
  intros HI Hin Hhas.
  pose proof (Frontier_done s cx cy) as HF.
  pose proof (checkSide_step s cx cy st Hhas) as Hstep.
  destruct (checkSide s cx cy st) as [st'|].
  2:{ destruct Hstep as (_ & Hfl & Hnone). exfalso.
      destruct (extending_flag_bnd occ _ _ _ _ _ HI HF Hfl) as (_ & Hd & _).
      destruct (inv_edge _ _ _ HI _ _ _ Hd Hfl) as (e & He & _). congruence. }
  exists st'. split; [done|].
  destruct (SideStep_upd _ _ _ _ _ Hstep) as (fl & i & U).
  assert (HI' : Inv occ (addSide (done cx cy (sideIndex s)) s cx cy) st').
  { destruct Hstep as [Hcov U' He Hid|Hcov Hfl U' He Hid|e Hcov Hfl Hget U' He Hid].
    - eapply Inv_covered; eauto.
    - eapply Inv_boundary; eauto. eapply Effect_fresh; eauto.
    - eapply Inv_boundary; eauto. eapply Effect_reuse; eauto. }
  split; [|split].
  - eapply Inv_weaken; [exact HI'| |].
    + intros a b s' [[Hr Hd]|(-> & -> & ->)]; (split; [done|lia]).
    + intros a b s' [Hr Hd]. left. unfold addSide, done.
      destruct (decide (a = cx ∧ b = cy ∧ s' = s)) as [?|Hne]; [by right|left].
      split; [done|].
      assert (sideIndex s' = sideIndex s → s' = s) by (destruct s, s'; simpl; done || lia).
      destruct (decide (sideIndex s' = sideIndex s)); [|lia].
      assert (¬ (a = cx ∧ b = cy)) by tauto. lia.
  - by rewrite (upd_has _ _ _ _ _ _ _ U).
  - split; [|split].
    + intros a b Hn. apply (upd_other _ _ _ _ _ _ _ U). intros [-> ->]. done.
    + by eapply upd_light.
    + by eapply upd_rays.
Qed.

Lemma processCell_done cx cy st :
  Inv occ (done cx cy 0) st → inRange cx cy →
  ∃ st', processCell cx cy st = Some st'
         ∧ Inv occ (done cx (cy + 1) 0) st' ∧ Frame st st'.
Proof.
  intros HI Hin. unfold processCell.
  destruct (getCell st cx cy) as [c|] eqn:Hc.
  - assert (Hhas : hasCell st cx cy = true) by (apply hasCell_getCell; eauto).
    simpl.
    destruct (checkSide_done NORTH cx cy st HI Hin Hhas) as (s1 & -> & I1 & H1 & F1).
    destruct (checkSide_done EAST cx cy s1 I1 Hin H1) as (s2 & -> & I2 & H2 & F2).
    destruct (checkSide_done SOUTH cx cy s2 I2 Hin H2) as (s3 & -> & I3 & H3 & F3).
    destruct (checkSide_done WEST cx cy s3 I3 Hin H3) as (s4 & -> & I4 & H4 & F4).
    exists s4. split; [done|]. split.
    + eapply Inv_weaken; [exact I4| |].
      * intros a b s [Hr Hd]. split; [done|]. simpl in Hd. lia.
      * intros a b s [Hr Hd]. left. split; [done|].
        destruct s; simpl in *; lia.
    + eauto using Frame_trans.
  - exists st. split; [done|]. split; [|apply Frame_refl].
    eapply Inv_weaken; [exact HI| |].
    + intros a b s [Hr Hd]. split; [done|]. lia.
    + intros a b s [Hr Hd].
      destruct (decide (a = cx ∧ b = cy)) as [[-> ->]|Hne].
      * right. split; [done|]. by apply hasCell_false.
      * left. split; [done|].
        assert (0 ≤ sideIndex s) by (destruct s; simpl; lia). lia.
Qed.

(** A counting loop that keeps a property of the counter and the state,
    and never throws. *)
Lemma forM_seqZ (P : Z → State → Prop) body lo n st :
  0 ≤ n → P lo st →
  (∀ i st1, lo ≤ i < lo + n → P i st1 →
            ∃ st2, body i st1 = Some st2 ∧ P (i + 1) st2) →
  ∃ st', forM (seqZ lo n) body st = Some st' ∧ P (lo + n) st'.
Proof.
  intros Hn. revert lo st. pattern n. apply natlike_ind; [|clear n Hn|done].
  - intros lo st HP _. exists st. rewrite Z.add_0_r. done.
  - intros n Hn IH lo st HP Hbody.
    rewrite seqZ_cons by lia. simpl.
    destruct (Hbody lo st) as (st1 & -> & HP1); [lia|done|].
    rewrite Z.pred_succ.
    destruct (IH (Z.succ lo) st1) as (st' & Hrun & HP').
    + by rewrite <- Z.add_1_r.
    + intros i st2 Hi. apply Hbody. lia.
    + exists st'. split; [done|]. by replace (lo + Z.succ n) with (Z.succ lo + n) by lia.
Qed.

Lemma column_done cx st :
  Inv occ (done cx 0 0) st → 0 ≤ cx < TILE_X_COUNT →
  ∃ st', forM (seqZ 0 TILE_Y_COUNT) (λ y, processCell cx y) st = Some st'
         ∧ Inv occ (done (cx + 1) 0 0) st' ∧ Frame st st'.
Proof.
  intros HI Hcx.
  destruct (forM_seqZ (λ cy st1, Inv occ (done cx cy 0) st1 ∧ Frame st st1)
              (λ y, processCell cx y) 0 TILE_Y_COUNT st) as (st' & Hrun & HI' & HF').
  - done.
  - split; [done|apply Frame_refl].
  - intros i st1 Hi [HI1 HF1].
    destruct (processCell_done cx i st1 HI1) as (st2 & Hp & HI2 & HF2).
    { unfold inRange. lia. }
    exists st2. eauto using Frame_trans.
  - exists st'. split; [done|]. split; [|done].
    eapply Inv_weaken; [exact HI'| |].
    + intros a b s [Hr Hd]. split; [done|]. destruct Hr. lia.
    + intros a b s [Hr Hd]. left. split; [done|]. destruct Hr.
      assert (0 ≤ sideIndex s) by (destruct s; simpl; lia). lia.
Qed.

Lemma Inv_clearEdges st :
  (∀ x y, hasCell st x y = occ x y) →
  (∀ x y s, ¬ inRange x y → flagAt st x y s = false) →
  Inv occ (done 0 0 0) (clearEdges st).
Proof.
  intros Hocc Hpr.
  assert (Hnone : ∀ a b s, ¬ done 0 0 0 a b s).
  { intros a b s [[? ?] ?].
    assert (0 ≤ sideIndex s) by (destruct s; simpl; lia). lia. }
  split; try (intros; exfalso; eapply Hnone; eassumption); try done.
  intros id e H. simpl in H. inversion H.
Qed.

Lemma scan_done st :
  (∀ x y, hasCell st x y = occ x y) →
  (∀ x y s, ¬ inRange x y → flagAt st x y s = false) →
  ∃ st', computeEdges st = Some st'
         ∧ Inv occ (λ a b _, inRange a b) st' ∧ Frame st st'.
Proof.
  intros Hocc Hpr. unfold computeEdges.
  destruct (forM_seqZ
              (λ cx st1, Inv occ (done cx 0 0) st1 ∧ Frame (clearEdges st) st1)
              (λ x, forM (seqZ 0 TILE_Y_COUNT) (λ y, processCell x y))
              0 TILE_X_COUNT (clearEdges st)) as (st' & Hrun & HI' & HF').
  - done.
  - split; [by apply Inv_clearEdges|apply Frame_refl].
  - intros i st1 Hi [HI1 HF1].
    destruct (column_done i st1 HI1) as (st2 & Hp & HI2 & HF2); [lia|].
    exists st2. eauto using Frame_trans.
  - exists st'. split; [done|]. split.
    + eapply Inv_weaken; [exact HI'| |].
      * intros a b s [Hr Hd]. done.
      * intros a b s Hr. left. split; [done|]. destruct Hr. lia.
    + eapply Frame_trans; [|exact HF']. by split.
Qed.

End Scan.

(** ** Grids the program can reach *)

Definition pristine (st : State) : Prop :=
  ∀ x y s, ¬ inRange x y → flagAt st x y s = false.

Section Pristine.

Lemma cellPristine_spec x y c :
  cellPristine x (y, c) = true ↔
  (inRange x y ∨ ∀ s, qget (Cell.existEdges c) s = false).
Proof.
  unfold cellPristine, inRange. simpl.
  rewrite orb_true_iff, !andb_true_iff, negb_true_iff, !orb_false_iff.
  rewrite !Z.leb_le, !Z.ltb_lt. split.
  - intros [?|(((HN & HE) & HS) & HW)]; [left; lia|right].
    intros []; done.
  - intros [?|H]; [left; lia|right].
    repeat split; [apply (H NORTH)|apply (H EAST)|apply (H SOUTH)|apply (H WEST)].
Qed.

Lemma pristineOutside_spec st : pristineOutside st = true ↔ pristine st.
Proof.
  unfold pristineOutside, pristine. rewrite forallb_forall. split.
  - intros H x y s Hn. unfold flagAt, getCell.
    destruct (cells st !! x) as [ys|] eqn:Hx; [|done].
    destruct (ys !! y) as [c|] eqn:Hy; [|done].
    specialize (H (x, ys)). rewrite forallb_forall in H.
    assert (Hc : cellPristine x (y, c) = true).
    { apply H.
      - apply list_elem_of_In. by apply elem_of_map_to_list.
      - apply list_elem_of_In. by apply elem_of_map_to_list. }
    apply cellPristine_spec in Hc as [?|Hc]; [done|apply Hc].
  - intros H [x ys] Hx. apply list_elem_of_In, elem_of_map_to_list in Hx.
    rewrite forallb_forall. intros [y c] Hy.
    apply list_elem_of_In, elem_of_map_to_list in Hy. simpl.
    apply cellPristine_spec.
    destruct (decide (inRange x y)) as [?|Hn]; [by left|right].
    intros s. specialize (H x y s Hn). unfold flagAt, getCell in H.
    simpl in Hx, Hy. by rewrite Hx, Hy in H.
Qed.

Lemma getCell_setCell x y v st a b :
  getCell (setCell x y v st) a b =
  if decide (a = x ∧ b = y) then (if v then Some (createCell x y) else None)
  else getCell st a b.
Proof.
  unfold setCell, getCell. destruct v; simpl.
  - destruct (decide (a = x)) as [->|Hx].
    + rewrite lookup_insert_eq. destruct (decide (b = y)) as [->|Hy].
      * rewrite lookup_insert_eq. by rewrite decide_True.
      * rewrite lookup_insert_ne by done. rewrite decide_False by tauto.
        by destruct (cells st !! x).
    + rewrite lookup_insert_ne by done. by rewrite decide_False by tauto.
  - destruct (cells st !! x) as [ys|] eqn:Hys; simpl.
    + destruct (decide (a = x)) as [->|Hx].
      * rewrite lookup_insert_eq. destruct (decide (b = y)) as [->|Hy].
        -- rewrite lookup_delete_eq. by rewrite decide_True.
        -- rewrite lookup_delete_ne by done. rewrite decide_False by tauto.
           by rewrite Hys.
      * rewrite lookup_insert_ne by done. by rewrite decide_False by tauto.
    + case_decide as H; [|done]. destruct H as [-> ->]. by rewrite Hys.
Qed.

(** [setCell] stores a fresh cell or removes one: it sets no flag. *)
Lemma pristine_setCell x y v st : pristine st → pristine (setCell x y v st).
Proof.
  intros H a b s Hn. unfold flagAt. rewrite getCell_setCell.
  case_decide; [by destruct v, s|]. exact (H a b s Hn).
Qed.

Lemma pristine_initState : pristine initState.
Proof. intros x y s _. done. Qed.

End Pristine.

(** A recompute on a reachable grid returns, and leaves the scan invariant
    for every side of every cell of the extent. *)
Lemma computeEdges_Inv st :
  pristineOutside st = true →
  ∃ st', computeEdges st = Some st'
         ∧ Inv (hasCell st) (λ a b _, inRange a b) st' ∧ Frame st st'.
Proof.
  intros H. apply pristineOutside_spec in H. by apply scan_done.
Qed.

Lemma pristine_computeEdges st st' :
  pristine st → computeEdges st = Some st' → pristine st'.
Proof.
  intros H Hrun. destruct (computeEdges_Inv st) as (st1 & Hrun1 & HI & _).
  { by apply pristineOutside_spec. }
  rewrite Hrun in Hrun1. injection Hrun1 as <-. intros x y s Hn.
  by eapply inv_pristine.
Qed.

(** ** Two scans side by side

    The scan reads the occupancy, the edge table, and the flags and ids of
    sides it has already checked or of cells outside the extent: two states
    that agree on those are taken through the same steps. *)

Record Sim (D : Z → Z → Side → Prop) (st1 st2 : State) : Prop :=
  { sim_has : ∀ a b, hasCell st1 a b = hasCell st2 a b;
    sim_edges : edges st1 = edges st2;
    sim_id : edgeId st1 = edgeId st2;
    sim_side : ∀ a b s, D a b s ∨ ¬ inRange a b →
      flagAt st1 a b s = flagAt st2 a b s ∧ idAt st1 a b s = idAt st2 a b s }.

Section Simulation.

Lemma Sim_weaken D D' st1 st2 :
  Sim D st1 st2 →
  (∀ a b s, D' a b s → D a b s ∨ hasCell st1 a b = false) →
  Sim D' st1 st2.
Proof.
  intros HS Hsup. split; try apply HS.
  intros a b s [Hd|Hn]; [|apply HS; by right].
  destruct (Hsup _ _ _ Hd) as [?|Hno]; [apply HS; by left|].
  pose proof Hno as Hno2. rewrite (sim_has _ _ _ HS) in Hno2.
  by rewrite !flagAt_None, !idAt_None.
Qed.

Lemma Sim_extending D s x y st1 st2 :
  Sim D st1 st2 → Frontier D s x y →
  flagAt st1 (extending s x y).1 (extending s x y).2 s
  = flagAt st2 (extending s x y).1 (extending s x y).2 s
  ∧ idAt st1 (extending s x y).1 (extending s x y).2 s
    = idAt st2 (extending s x y).1 (extending s x y).2 s.
Proof.
  intros HS HF. apply HS.
  destruct (decide (inRange (extending s x y).1 (extending s x y).2)); [left|by right].
  pose proof (extending_line_pos s x y) as [Hl Hp].
  apply HF; [done|]. split; [done|lia].
Qed.

Lemma checkSide_Sim D s x y st1 st2 st1' :
  Sim D st1 st2 → Frontier D s x y → hasCell st1 x y = true →
  checkSide s x y st1 = Some st1' →
  ∃ st2', checkSide s x y st2 = Some st2' ∧ Sim (addSide D s x y) st1' st2'.
Proof.
  intros HS HF Hhas1 Hrun1.
  assert (Hhas2 : hasCell st2 x y = true) by (by rewrite <- (sim_has _ _ _ HS)).
  pose proof (checkSide_step s x y st1 Hhas1) as H1. rewrite Hrun1 in H1.
  pose proof (checkSide_step s x y st2 Hhas2) as H2.
  destruct (Sim_extending _ _ _ _ _ _ HS HF) as [Hfe Hie].
  pose proof (sim_has _ _ _ HS (across s x y).1 (across s x y).2) as Hac.
  pose proof (sim_edges _ _ _ HS) as Hed.
  pose proof (sim_id _ _ _ HS) as Hid.
  assert (Hmk : ∀ st2' fl i,
            CellUpd st1 st1' x y s fl i → CellUpd st2 st2' x y s fl i →
            edges st1' = edges st2' → edgeId st1' = edgeId st2' →
            Sim (addSide D s x y) st1' st2').
  { intros st2' fl i U1 U2 He Hi. split; try done.
    - intros a b. rewrite (upd_has _ _ _ _ _ _ _ U1), (upd_has _ _ _ _ _ _ _ U2).
      apply HS.
    - intros a b s' Hd.
      rewrite (upd_flag _ _ _ _ _ _ _ U1), (upd_flag _ _ _ _ _ _ _ U2).
      rewrite (upd_id _ _ _ _ _ _ _ U1), (upd_id _ _ _ _ _ _ _ U2).
      case_decide as Heq; [done|]. apply HS.
      destruct Hd as [[?|?]|?]; tauto. }
  destruct (checkSide s x y st2) as [st2'|].
  - exists st2'. split; [done|].
    destruct H1 as [Hc1 U1 He1 Hi1|Hc1 Hf1 U1 He1 Hi1|e1 Hc1 Hf1 Hg1 U1 He1 Hi1];
      destruct H2 as [Hc2 U2 He2 Hi2|Hc2 Hf2 U2 He2 Hi2|e2 Hc2 Hf2 Hg2 U2 He2 Hi2];
      try congruence.
    + eapply Hmk; eauto; congruence.
    + rewrite Hid in U1. eapply Hmk; eauto; congruence.
    + rewrite Hie in U1. unfold getEdge in Hg1, Hg2.
      rewrite Hie, Hed, Hg2 in Hg1. injection Hg1 as <-.
      eapply Hmk; eauto; congruence.
  - exfalso. destruct H2 as (Hc2 & Hf2 & Hg2). unfold getEdge in Hg2.
    destruct H1 as [Hc1 U1 He1 Hi1|Hc1 Hf1 U1 He1 Hi1|e1 Hc1 Hf1 Hg1 U1 He1 Hi1];
      try congruence.
    unfold getEdge in Hg1. congruence.
Qed.

Lemma checkSide_has s x y st st' a b :
  hasCell st x y = true → checkSide s x y st = Some st' →
  hasCell st' a b = hasCell st a b.
Proof.
  intros Hhas Hrun. pose proof (checkSide_step s x y st Hhas) as H.
  rewrite Hrun in H. destruct (SideStep_upd _ _ _ _ _ H) as (fl & i & U).
  apply U.
Qed.

Lemma checkSide_done_Sim s cx cy st1 st2 st1' :
  Sim (done cx cy (sideIndex s)) st1 st2 → inRange cx cy →
  hasCell st1 cx cy = true → checkSide s cx cy st1 = Some st1' →
  ∃ st2', checkSide s cx cy st2 = Some st2'
          ∧ Sim (done cx cy (sideIndex s + 1)) st1' st2'
          ∧ hasCell st1' cx cy = true.
Proof.
  intros HS Hin Hhas Hrun.
  destruct (checkSide_Sim _ _ _ _ _ _ _ HS (Frontier_done s cx cy) Hhas Hrun)
    as (st2' & Hrun2 & HS').
  exists st2'. split; [done|]. split.
  - eapply Sim_weaken; [exact HS'|]. intros a b s' [Hr Hd]. left.
    unfold addSide, done.
    destruct (decide (a = cx ∧ b = cy ∧ s' = s)) as [?|Hne]; [by right|left].
    split; [done|].
    assert (sideIndex s' = sideIndex s → s' = s) by (destruct s, s'; simpl; done || lia).
    destruct (decide (sideIndex s' = sideIndex s)); [|lia].
    assert (¬ (a = cx ∧ b = cy)) by tauto. lia.
  - by rewrite (checkSide_has _ _ _ _ _ _ _ Hhas Hrun).
Qed.

Lemma processCell_Sim cx cy st1 st2 st1' :
  Sim (done cx cy 0) st1 st2 → inRange cx cy →
  processCell cx cy st1 = Some st1' →
  ∃ st2', processCell cx cy st2 = Some st2' ∧ Sim (done cx (cy + 1) 0) st1' st2'.
Proof.
  intros HS Hin. unfold processCell.
  pose proof (sim_has _ _ _ HS cx cy) as Hh.
  destruct (getCell st1 cx cy) as [c1|] eqn:Hc1.
  - assert (Hhas : hasCell st1 cx cy = true) by (apply hasCell_getCell; eauto).
    rewrite Hhas in Hh. symmetry in Hh. apply hasCell_getCell in Hh as [c2 ->].
    simpl.
    destruct (checkSide NORTH cx cy st1) as [a1|] eqn:R1; [|done].
    destruct (checkSide_done_Sim NORTH _ _ _ _ _ HS Hin Hhas R1) as (b1 & -> & S1 & H1).
    destruct (checkSide EAST cx cy a1) as [a2|] eqn:R2; [|done].
    destruct (checkSide_done_Sim EAST _ _ _ _ _ S1 Hin H1 R2) as (b2 & -> & S2 & H2).
    destruct (checkSide SOUTH cx cy a2) as [a3|] eqn:R3; [|done].
    destruct (checkSide_done_Sim SOUTH _ _ _ _ _ S2 Hin H2 R3) as (b3 & -> & S3 & H3).
    destruct (checkSide WEST cx cy a3) as [a4|] eqn:R4; [|done].
    destruct (checkSide_done_Sim WEST _ _ _ _ _ S3 Hin H3 R4) as (b4 & -> & S4 & H4).
    intros [= <-]. exists b4. split; [done|].
    eapply Sim_weaken; [exact S4|]. intros a b s [Hr Hd]. left. split; [done|].
    destruct s; simpl in *; lia.
  - assert (Hno : hasCell st1 cx cy = false) by (by apply hasCell_false).
    rewrite Hno in Hh. symmetry in Hh. apply hasCell_false in Hh as ->.
    intros [= <-]. exists st2. split; [done|].
    eapply Sim_weaken; [exact HS|]. intros a b s [Hr Hd].
    destruct (decide (a = cx ∧ b = cy)) as [[-> ->]|Hne]; [by right|left].
    split; [done|].
    assert (0 ≤ sideIndex s) by (destruct s; simpl; lia). lia.
Qed.

(** Two runs of a counting loop, related step by step. *)
Lemma forM_seqZ_Sim (R : Z → State → State → Prop) body lo n st1 st2 st1' :
  0 ≤ n → R lo st1 st2 →
  (∀ i s1 s2 s1', lo ≤ i < lo + n → R i s1 s2 → body i s1 = Some s1' →
                  ∃ s2', body i s2 = Some s2' ∧ R (i + 1) s1' s2') →
  forM (seqZ lo n) body st1 = Some st1' →
  ∃ st2', forM (seqZ lo n) body st2 = Some st2' ∧ R (lo + n) st1' st2'.
Proof.
  intros Hn. revert lo st1 st2. pattern n. apply natlike_ind; [|clear n Hn|done].
  - intros lo st1 st2 HR _. simpl. intros [= <-]. exists st2.
    rewrite Z.add_0_r. done.
  - intros n Hn IH lo st1 st2 HR Hbody.
    rewrite seqZ_cons by lia. simpl. rewrite Z.pred_succ.
    destruct (body lo st1) as [s1'|] eqn:Hb1; [|done].
    destruct (Hbody lo st1 st2 s1') as (s2' & -> & HR'); [lia|done|done|].
    intros Hrun.
    destruct (IH (Z.succ lo) s1' s2') as (st2' & Hrun2 & HR2).
    + by rewrite <- Z.add_1_r.
    + intros i t1 t2 t1' Hi. apply Hbody. lia.
    + done.
    + exists st2'. split; [done|].
      by replace (lo + Z.succ n) with (Z.succ lo + n) by lia.
Qed.

Lemma column_Sim cx st1 st2 st1' :
  Sim (done cx 0 0) st1 st2 → 0 ≤ cx < TILE_X_COUNT →
  forM (seqZ 0 TILE_Y_COUNT) (λ y, processCell cx y) st1 = Some st1' →
  ∃ st2', forM (seqZ 0 TILE_Y_COUNT) (λ y, processCell cx y) st2 = Some st2'
          ∧ Sim (done (cx + 1) 0 0) st1' st2'.
Proof.
  intros HS Hcx Hrun.
  destruct (forM_seqZ_Sim (λ cy, Sim (done cx cy 0))
              (λ y, processCell cx y) 0 TILE_Y_COUNT st1 st2 st1')
    as (st2' & Hrun2 & HS'); try done.
  - intros i s1 s2 s1' Hi HSi Hb. eapply processCell_Sim; eauto.
    unfold inRange. lia.
  - exists st2'. split; [done|]. eapply Sim_weaken; [exact HS'|].
    intros a b s [Hr Hd]. left. split; [done|]. destruct Hr.
    assert (0 ≤ sideIndex s) by (destruct s; simpl; lia). lia.
Qed.

(** Recomputing from two states with the same occupancy and the same cells
    outside the extent builds the same edge table. *)
Lemma computeEdges_Sim st1 st2 st1' :
  (∀ a b, hasCell st1 a b = hasCell st2 a b) →
  (∀ a b, ¬ inRange a b → getCell st1 a b = getCell st2 a b) →
  computeEdges st1 = Some st1' →
  ∃ st2', computeEdges st2 = Some st2' ∧ edges st2' = edges st1'.
Proof.
  intros Hhas Hout Hrun. unfold computeEdges in *.
  destruct (forM_seqZ_Sim (λ cx, Sim (done cx 0 0))
              (λ x, forM (seqZ 0 TILE_Y_COUNT) (λ y, processCell x y))
              0 TILE_X_COUNT (clearEdges st1) (clearEdges st2) st1')
    as (st2' & Hrun2 & HS'); try done.
  - split; try done. intros a b s [[[? ?] ?]|Hn].
    + assert (0 ≤ sideIndex s) by (destruct s; simpl; lia). lia.
    + unfold flagAt, idAt, getCell in *. simpl. by rewrite (Hout a b Hn).
  - intros i s1 s2 s1' Hi HSi Hb. eapply column_Sim; eauto.
  - exists st2'. split; [done|]. symmetry. apply HS'.
Qed.

End Simulation.

(** ** What a recompute never touches *)

(** The occupancy and the cells outside the scanned extent. *)
Definition SameGrid (st st' : State) : Prop :=
  (∀ a b, hasCell st' a b = hasCell st a b)
  ∧ (∀ a b, ¬ inRange a b → getCell st' a b = getCell st a b).

Section GridFrame.

Lemma SameGrid_refl st : SameGrid st st.
Proof. by split. Qed.

Lemma SameGrid_trans st1 st2 st3 :
  SameGrid st1 st2 → SameGrid st2 st3 → SameGrid st1 st3.
Proof.
  intros [H1 H2] [H3 H4]. split.
  - intros a b. by rewrite H3, H1.
  - intros a b Hn. by rewrite H4, H2.
Qed.

Lemma forM_SameGrid {A} (l : list A) body st st' :
  (∀ a s s', a ∈ l → body a s = Some s' → SameGrid s s') →
  forM l body st = Some st' → SameGrid st st'.
Proof.
  revert st. induction l as [|a l IH]; intros st Hbody; simpl.
  - intros [= <-]. apply SameGrid_refl.
  - destruct (body a st) as [s1|] eqn:Hb; [|done]. intros Hrun.
    eapply SameGrid_trans.
    + eapply Hbody; [left|done].
    + apply IH; [|done]. intros a' s s' Ha'. apply Hbody. by right.
Qed.

Lemma checkSide_SameGrid s x y st st' :
  inRange x y → hasCell st x y = true → checkSide s x y st = Some st' →
  SameGrid st st'.
Proof.
  intros Hin Hhas Hrun. pose proof (checkSide_step s x y st Hhas) as H.
  rewrite Hrun in H. destruct (SideStep_upd _ _ _ _ _ H) as (fl & i & U).
  split; [apply U|]. intros a b Hn. apply (upd_other _ _ _ _ _ _ _ U).
  intros [-> ->]. done.
Qed.

Lemma processCell_SameGrid x y st st' :
  inRange x y → processCell x y st = Some st' → SameGrid st st'.
Proof.
  intros Hin. unfold processCell.
  destruct (getCell st x y) as [c|] eqn:Hc.
  2:{ intros [= <-]. apply SameGrid_refl. }
  assert (Hhas : hasCell st x y = true) by (apply hasCell_getCell; eauto).
  simpl.
  destruct (checkSide NORTH x y st) as [s1|] eqn:R1; [|done].
  pose proof (checkSide_SameGrid _ _ _ _ _ Hin Hhas R1) as G1.
  assert (H1 : hasCell s1 x y = true) by (by rewrite (proj1 G1)).
  destruct (checkSide EAST x y s1) as [s2|] eqn:R2; [|done].
  pose proof (checkSide_SameGrid _ _ _ _ _ Hin H1 R2) as G2.
  assert (H2 : hasCell s2 x y = true) by (by rewrite (proj1 G2)).
  destruct (checkSide SOUTH x y s2) as [s3|] eqn:R3; [|done].
  pose proof (checkSide_SameGrid _ _ _ _ _ Hin H2 R3) as G3.
  assert (H3 : hasCell s3 x y = true) by (by rewrite (proj1 G3)).
  destruct (checkSide WEST x y s3) as [s4|] eqn:R4; [|done].
  pose proof (checkSide_SameGrid _ _ _ _ _ Hin H3 R4) as G4.
  intros [= <-]. eauto using SameGrid_trans.
Qed.

Lemma computeEdges_SameGrid st st' :
  computeEdges st = Some st' → SameGrid st st'.
Proof.
  unfold computeEdges. intros Hrun.
  eapply (SameGrid_trans _ (clearEdges st)); [by split|].
  eapply forM_SameGrid; [|exact Hrun].
  intros x s s' Hx. apply forM_SameGrid. intros y t t' Hy.
  apply processCell_SameGrid.
  apply elem_of_seqZ in Hx, Hy. unfold inRange. lia.
Qed.

Lemma computeEdges_has st st' a b :
  computeEdges st = Some st' → hasCell st' a b = hasCell st a b.
Proof. intros H. apply (computeEdges_SameGrid _ _ H). Qed.

Lemma computeEdges_outside st st' a b :
  computeEdges st = Some st' → ¬ inRange a b →
  getCell st' a b = getCell st a b.
Proof. intros H. apply (computeEdges_SameGrid _ _ H). Qed.

End GridFrame.

(** The states of a session: cells are set and removed, edges recomputed,
    the light moved, rays cast. *)
Inductive Reachable : State → Prop :=
  | reach_init : Reachable initState
  | reach_setCell x y v st : Reachable st → Reachable (setCell x y v st)
  | reach_computeEdges st st' :
      Reachable st → computeEdges st = Some st' → Reachable st'
  | reach_light l st : Reachable st → Reachable (withLight l st)
  | reach_rays M st : Reachable st → Reachable (getRaysToEdges M st).

Lemma Reachable_pristine st : Reachable st → pristineOutside st = true.
Proof.
  intros H. apply pristineOutside_spec.
  induction H as [|x y v st _ IH|st st' _ IH Hrun|l st _ IH|M st _ IH].
  - apply pristine_initState.
  - by apply pristine_setCell.
  - intros a b s Hn. unfold flagAt.
    rewrite (computeEdges_outside _ _ _ _ Hrun Hn). by apply IH.
  - exact IH.
  - intros a b s Hn. specialize (IH a b s Hn).
    unfold getRaysToEdges. by destruct (lightSource st) as [[lx ly]|].
Qed.


(** ** Binary64 facts

    The order and the signs of IEEE results, from the specification of the
    primitive operations. *)

Section FloatOrder.

Lemma SFltb_irrefl x : SFltb x x = false.
Proof.
  unfold SFltb, SFcompare. destruct x as [s|s| |s m e]; try (destruct s; reflexivity).
  - reflexivity.
  - rewrite Z.compare_refl.
    change (Pos.compare_cont Eq m m) with (Pos.compare m m).
    rewrite Pos.compare_refl. destruct s; reflexivity.
Qed.

Lemma SFltb_trans x y z : SFltb x y = true -> SFltb y z = true -> SFltb x z = true.
Proof.
  unfold SFltb, SFcompare.
  destruct x as [sx|sx| |sx mx ex], y as [sy|sy| |sy my ey], z as [sz|sz| |sz mz ez];
    try discriminate; try (destruct sx, sy, sz; simpl; congruence).
  change (Pos.compare_cont Eq mx my) with (Pos.compare mx my).
  change (Pos.compare_cont Eq my mz) with (Pos.compare my mz).
  change (Pos.compare_cont Eq mx mz) with (Pos.compare mx mz).
  destruct sx, sy, sz; try congruence;
    destruct (Z.compare_spec ex ey), (Z.compare_spec ey ez), (Z.compare_spec ex ez);
    try lia; try congruence;
    destruct (Pos.compare_spec mx my), (Pos.compare_spec my mz), (Pos.compare_spec mx mz);
    simpl; try lia; try congruence.
Qed.

Lemma ltb_irrefl (x : float) : (x <? x)%float = false.
Proof. rewrite FloatAxioms.ltb_spec. apply SFltb_irrefl. Qed.

Lemma ltb_trans (x y z : float) :
  (x <? y)%float = true -> (y <? z)%float = true -> (x <? z)%float = true.
Proof. rewrite !FloatAxioms.ltb_spec. apply SFltb_trans. Qed.

(** The sign of a rounded result is the sign it was given. *)
Lemma binary_round_aux_sign sx mx ex lx :
  match binary_round_aux prec emax sx mx ex lx with
  | S754_zero s | S754_infinity s | S754_finite s _ _ => s = sx
  | S754_nan => True
  end.
Proof.
  unfold binary_round_aux.
  destruct (shr_fexp prec emax mx ex lx) as [mrs' e'].
  destruct (shr_fexp prec emax _ e' loc_Exact) as [mrs'' e''].
  destruct (shr_m mrs''); try exact I; try reflexivity.
  destruct (Z.leb e'' (emax - prec)); reflexivity.
Qed.

Lemma binary_normalize_pos p e :
  SFltb (binary_normalize prec emax (Zpos p) e false) (S754_zero false) = false.
Proof.
  unfold binary_normalize, binary_round.
  destruct (shl_align p e _) as [mz ez].
  pose proof (binary_round_aux_sign false (Zpos mz) ez loc_Exact) as H.
  destruct (binary_round_aux prec emax false (Zpos mz) ez loc_Exact); subst; reflexivity.
Qed.

Lemma binary_normalize_neg p e :
  SFltb (S754_zero false) (binary_normalize prec emax (Zneg p) e false) = false.
Proof.
  unfold binary_normalize, binary_round.
  destruct (shl_align p e _) as [mz ez].
  pose proof (binary_round_aux_sign true (Zpos mz) ez loc_Exact) as H.
  destruct (binary_round_aux prec emax true (Zpos mz) ez loc_Exact); subst; reflexivity.
Qed.

Lemma SFsub_antisym x y :
  SFltb (S754_zero false) (SF64sub x y) = true ->
  SFltb (S754_zero false) (SF64sub y x) = false.
Proof.
  unfold SF64sub, SFsub.
  destruct x as [sx|sx| |sx mx ex], y as [sy|sy| |sy my ey];
    try discriminate; try reflexivity;
    try (destruct sx, sy; cbv; congruence);
    try (destruct sx; cbv; congruence);
    try (destruct sy; cbv; congruence).
  rewrite (Z.min_comm ey ex).
  set (a := cond_Zopp sx (Zpos (fst (shl_align mx ex (Z.min ex ey))))).
  set (b := cond_Zopp sy (Zpos (fst (shl_align my ey (Z.min ex ey))))).
  destruct (a - b) as [|p|p] eqn:Hab.
  - discriminate.
  - intros _. replace (b - a) with (Zneg p) by lia. apply binary_normalize_neg.
  - intros H. exfalso. rewrite binary_normalize_neg in H. discriminate.
Qed.

Lemma sub_antisym (x y : float) :
  (0 <? x - y)%float = true -> (0 <? y - x)%float = false.
Proof.
  rewrite !FloatAxioms.ltb_spec, !FloatAxioms.sub_spec.
  change (Prim2SF 0) with (S754_zero false). apply SFsub_antisym.
Qed.

(** Division by a zero gives an infinity or a NaN, which no comparison with
    0 and 1 accepts. *)
Lemma div_zero_outside (a d : float) :
  (d =? 0)%float = true ->
  ((0 <=? a / d) && (a / d <=? 1))%float = false.
Proof.
  rewrite FloatAxioms.eqb_spec, !FloatAxioms.leb_spec, FloatAxioms.div_spec.
  change (Prim2SF 0) with (S754_zero false).
  change (Prim2SF 1) with (S754_finite false 4503599627370496 (-52)).
  unfold SF64div, SFdiv, SFeqb, SFleb, SFcompare.
  destruct (Prim2SF d) as [sd|sd| |sd md ed]; try discriminate;
    try (destruct sd; discriminate).
  intros _. destruct (Prim2SF a) as [sa|sa| |sa ma ea]; try reflexivity;
    destruct sa, sd; reflexivity.
Qed.

Lemma add_opp_sub (x c : float) : (x + (- c))%float = (x - c)%float.
Proof.
  apply Prim2SF_inj. rewrite FloatAxioms.add_spec, FloatAxioms.sub_spec, FloatAxioms.opp_spec.
  unfold SF64add, SF64sub, SFadd, SFsub, SFopp.
  destruct (Prim2SF x) as [sx|sx| |sx mx ex], (Prim2SF c) as [sc|sc| |sc mc ec];
    try reflexivity; destruct sx, sc; reflexivity.
Qed.

Lemma add_zero (x : float) :
  (x + 0)%float = x \/ (x = (-0)%float /\ (x + 0)%float = 0%float).
Proof.
  destruct (Prim2SF x) as [sx|sx| |sx mx ex] eqn:Hx.
  - destruct sx.
    + right. split; apply Prim2SF_inj; rewrite ?FloatAxioms.add_spec, Hx; reflexivity.
    + left. apply Prim2SF_inj. rewrite FloatAxioms.add_spec, Hx. reflexivity.
  - left. apply Prim2SF_inj. rewrite FloatAxioms.add_spec, Hx. reflexivity.
  - left. apply Prim2SF_inj. rewrite FloatAxioms.add_spec, Hx. reflexivity.
  - left. apply Prim2SF_inj. rewrite FloatAxioms.add_spec, Hx. reflexivity.
Qed.

End FloatOrder.

(** The sign of a difference.  A difference of two binary64 numbers is
    rounded from the exact difference of their aligned mantissas, and a
    nonzero mantissa is never rounded to zero: [x - y] is positive whenever
    [y < x]. *)

Section SubSign.

Lemma digits2_pos_bounds p :
  2 ^ (Zpos (digits2_pos p) - 1) <= Zpos p < 2 ^ Zpos (digits2_pos p).
Proof.
  induction p as [p IH|p IH|]; simpl digits2_pos.
  - rewrite Pos2Z.inj_succ.
    replace (Z.succ (Zpos (digits2_pos p)) - 1) with (Z.succ (Zpos (digits2_pos p) - 1)) by lia.
    rewrite !Z.pow_succ_r by lia. lia.
  - rewrite Pos2Z.inj_succ.
    replace (Z.succ (Zpos (digits2_pos p)) - 1) with (Z.succ (Zpos (digits2_pos p) - 1)) by lia.
    rewrite !Z.pow_succ_r by lia. lia.
  - simpl. lia.
Qed.

Lemma shr_1_m mrs :
  0 <= shr_m mrs -> shr_m (shr_1 mrs) = shr_m mrs / 2.
Proof.
  destruct mrs as [m r s]. simpl. destruct m as [|p|p]; intros H; try lia.
  - reflexivity.
  - destruct p as [p|p|]; simpl.
    + rewrite (Pos2Z.inj_xI p). apply Z.div_unique with 1; lia.
    + rewrite (Pos2Z.inj_xO p). apply Z.div_unique with 0; lia.
    + reflexivity.
Qed.

Lemma iter_pos_shr_m n mrs :
  0 <= shr_m mrs ->
  shr_m (SpecFloat.iter_pos shr_1 n mrs) = shr_m mrs / 2 ^ Zpos n.
Proof.
  revert mrs. induction n as [n IH|n IH|]; intros mrs H; simpl SpecFloat.iter_pos.
  - assert (H1 : 0 <= shr_m (shr_1 mrs)).
    { rewrite shr_1_m by assumption. apply Z.div_pos; lia. }
    assert (H2 : 0 <= shr_m (SpecFloat.iter_pos shr_1 n (shr_1 mrs))).
    { rewrite IH by assumption. apply Z.div_pos; [lia|]. apply Z.pow_pos_nonneg; lia. }
    rewrite IH, IH, shr_1_m by assumption.
    rewrite !Z.div_div by (try apply Z.pow_pos_nonneg; lia).
    f_equal. rewrite (Pos2Z.inj_xI n).
    replace (2 * Zpos n + 1) with (1 + Zpos n + Zpos n) by lia.
    rewrite !Z.pow_add_r by lia. rewrite Z.pow_1_r. lia.
  - assert (H2 : 0 <= shr_m (SpecFloat.iter_pos shr_1 n mrs)).
    { rewrite IH by assumption. apply Z.div_pos; [lia|]. apply Z.pow_pos_nonneg; lia. }
    rewrite IH, IH by assumption.
    rewrite !Z.div_div by (try apply Z.pow_pos_nonneg; lia).
    f_equal. rewrite (Pos2Z.inj_xO n).
    replace (2 * Zpos n) with (Zpos n + Zpos n) by lia.
    rewrite !Z.pow_add_r by lia. lia.
  - rewrite shr_1_m by assumption. reflexivity.
Qed.

Lemma shr_record_of_loc_m m l : shr_m (shr_record_of_loc m l) = m.
Proof. destruct l as [|[]]; reflexivity. Qed.

Lemma shr_fexp_pos p e l :
  emin <= e ->
  0 < shr_m (fst (shr_fexp prec emax (Zpos p) e l))
  /\ emin <= snd (shr_fexp prec emax (Zpos p) e l).
Proof.
  intros He. unfold shr_fexp, shr. cbn [Zdigits2].
  pose proof (digits2_pos_bounds p) as [Hlo Hhi].
  set (d := Zpos (digits2_pos p)) in *.
  assert (Hd : 0 < d) by (unfold d; lia).
  assert (Hn : fexp prec emax (d + e) - e <= d - 1).
  { unfold fexp, prec in *. lia. }
  assert (Hf : emin <= fexp prec emax (d + e)).
  { unfold fexp. lia. }
  destruct (fexp prec emax (d + e) - e) as [|n|n] eqn:Hsh; cbn [fst snd].
  - rewrite shr_record_of_loc_m. lia.
  - rewrite iter_pos_shr_m by (rewrite shr_record_of_loc_m; lia).
    rewrite shr_record_of_loc_m. split; [|lia].
    apply Z.div_str_pos. split; [apply Z.pow_pos_nonneg; lia|].
    eapply Z.le_trans; [|exact Hlo]. apply Z.pow_le_mono_r; lia.
  - rewrite shr_record_of_loc_m. lia.
Qed.

Lemma round_nearest_even_pos m l : 0 < m -> 0 < round_nearest_even m l.
Proof.
  intros H. unfold round_nearest_even. destruct l as [|[]]; try lia.
  destruct (Z.even m); lia.
Qed.

Lemma binary_round_aux_pos p e l :
  emin <= e ->
  SFltb (S754_zero false) (binary_round_aux prec emax false (Zpos p) e l) = true.
Proof.
  intros He. unfold binary_round_aux.
  pose proof (shr_fexp_pos p e l He) as [H1 H2].
  destruct (shr_fexp prec emax (Zpos p) e l) as [mrs' e']. cbn [fst snd] in *.
  pose proof (round_nearest_even_pos _ (loc_of_shr_record mrs') H1) as H3.
  destruct (round_nearest_even (shr_m mrs') (loc_of_shr_record mrs')) as [|q|q]; try lia.
  pose proof (shr_fexp_pos q e' loc_Exact H2) as [H4 H5].
  destruct (shr_fexp prec emax (Zpos q) e' loc_Exact) as [mrs'' e'']. cbn [fst snd] in *.
  destruct (shr_m mrs'') as [|m|m]; try lia.
  destruct (Z.leb e'' (emax - prec)); reflexivity.
Qed.

Lemma binary_round_pos p e :
  emin <= e ->
  SFltb (S754_zero false) (binary_round prec emax false p e) = true.
Proof.
  intros He. unfold binary_round.
  assert (Hf : emin <= fexp prec emax (Zpos (digits2_pos p) + e)).
  { unfold fexp. lia. }
  unfold shl_align.
  destruct (fexp prec emax (Zpos (digits2_pos p) + e) - e) as [|d|d] eqn:Hd;
    apply binary_round_aux_pos; lia.
Qed.

Lemma shl_align_fst m e e' :
  e' <= e -> Zpos (fst (shl_align m e e')) = Zpos m * 2 ^ (e - e').
Proof.
  intros H. unfold shl_align.
  destruct (e' - e) as [|d|d] eqn:Hd; cbn [fst]; try lia.
  - replace (e - e') with 0 by lia. simpl. lia.
  - replace (e - e') with (Zpos d) by lia.
    clear. induction d as [|d IH] using Pos.peano_ind.
    + simpl. lia.
    + rewrite Pos.iter_succ, (Pos2Z.inj_xO (Pos.iter xO m d)), IH, Pos2Z.inj_succ,
        Z.pow_succ_r by lia. lia.
Qed.

Lemma valid_finite s m e :
  valid_binary (S754_finite s m e) = true ->
  emin <= e
  /\ Zpos (digits2_pos m) <= prec
  /\ (emin < e -> Zpos (digits2_pos m) = prec).
Proof.
  unfold valid_binary, bounded, canonical_mantissa, fexp.
  intros H. apply andb_true_iff in H as [H _]. apply Z.eqb_eq in H. lia.
Qed.

(** The aligned mantissas of two valid numbers compare as the numbers do. *)
Lemma aligned_lt mx ex my ey :
  valid_binary (S754_finite false mx ex) = true ->
  valid_binary (S754_finite false my ey) = true ->
  (ey < ex \/ (ey = ex /\ (my < mx)%positive)) ->
  Zpos (fst (shl_align my ey (Z.min ex ey))) < Zpos (fst (shl_align mx ex (Z.min ex ey))).
Proof.
  intros Vx Vy Hlt.
  apply valid_finite in Vx as (Hx1 & Hx2 & Hx3).
  apply valid_finite in Vy as (Hy1 & Hy2 & Hy3).
  rewrite !shl_align_fst by lia.
  destruct Hlt as [Hlt|[-> Hlt]].
  - rewrite Z.min_r by lia. rewrite Z.sub_diag, Z.pow_0_r, Z.mul_1_r.
    pose proof (digits2_pos_bounds mx) as [Hmx _].
    pose proof (digits2_pos_bounds my) as [_ Hmy].
    rewrite Hx3 in Hmx by lia.
    assert (Zpos my < 2 ^ prec).
    { eapply Z.lt_le_trans; [exact Hmy|]. apply Z.pow_le_mono_r; lia. }
    assert (2 ^ 1 <= 2 ^ (ex - ey)) by (apply Z.pow_le_mono_r; lia).
    assert (2 ^ prec = 2 ^ (prec - 1) * 2 ^ 1).
    { unfold prec. reflexivity. }
    nia.
  - rewrite Z.min_id, Z.sub_diag, Z.pow_0_r. lia.
Qed.

Lemma SFsub_pos x y :
  valid_binary x = true -> valid_binary y = true ->
  SFltb y x = true -> SFltb (S754_zero false) (SF64sub x y) = true.
Proof.
  intros Vx Vy. unfold SF64sub, SFsub, SFltb at 1, SFcompare.
  destruct x as [sx|sx| |sx mx ex], y as [sy|sy| |sy my ey];
    try discriminate;
    try (destruct sx, sy; cbv; congruence);
    try (destruct sx; cbv; congruence);
    try (destruct sy; cbv; congruence).
  change (Pos.compare_cont Eq my mx) with (Pos.compare my mx).
  assert (Hez : emin <= Z.min ex ey).
  { apply valid_finite in Vx. apply valid_finite in Vy. lia. }
  assert (Vx' : valid_binary (S754_finite false mx ex) = true) by exact Vx.
  assert (Vy' : valid_binary (S754_finite false my ey) = true) by exact Vy.
  intros Hlt.
  assert (Hpos : 0 < cond_Zopp sx (Zpos (fst (shl_align mx ex (Z.min ex ey))))
                     - cond_Zopp sy (Zpos (fst (shl_align my ey (Z.min ex ey))))).
  { destruct sy, sx; simpl cond_Zopp; try discriminate; try lia.
    - (* both negative *)
      pose proof (aligned_lt my ey mx ex Vy' Vx') as H.
      rewrite (Z.min_comm ey ex) in H.
      destruct (Z.compare_spec ey ex); try discriminate.
      + destruct (Pos.compare_spec my mx); try discriminate.
        assert (Zpos (fst (shl_align mx ex (Z.min ex ey)))
                < Zpos (fst (shl_align my ey (Z.min ex ey)))) by (apply H; right; lia).
        lia.
      + assert (Zpos (fst (shl_align mx ex (Z.min ex ey)))
                < Zpos (fst (shl_align my ey (Z.min ex ey)))) by (apply H; left; lia).
        lia.
    - (* both positive *)
      pose proof (aligned_lt mx ex my ey Vx' Vy') as H.
      destruct (Z.compare_spec ey ex); try discriminate.
      + destruct (Pos.compare_spec my mx); try discriminate.
        assert (Zpos (fst (shl_align my ey (Z.min ex ey)))
                < Zpos (fst (shl_align mx ex (Z.min ex ey)))) by (apply H; right; lia).
        lia.
      + assert (Zpos (fst (shl_align my ey (Z.min ex ey)))
                < Zpos (fst (shl_align mx ex (Z.min ex ey)))) by (apply H; left; lia).
        lia. }
  destruct (cond_Zopp sx _ - cond_Zopp sy _) as [|p|p]; try lia.
  apply binary_round_pos. exact Hez.
Qed.

Lemma ltb_sub_pos (x y : float) :
  (y <? x)%float = true -> (0 <? x - y)%float = true.
Proof.
  rewrite !FloatAxioms.ltb_spec, FloatAxioms.sub_spec.
  change (Prim2SF 0) with (S754_zero false).
  apply SFsub_pos; apply Prim2SF_valid.
Qed.

End SubSign.

(** ** Example grids *)

Definition threeInRow : State :=
  setCell 2 1 true (setCell 1 1 true (setCell 0 1 true initState)).

Definition fourInRow : State := setCell 3 1 true threeInRow.

Definition threeOutside : State :=
  setCell 22 0 true (setCell 21 0 true (setCell 20 0 true initState)).

(** ** The edge extractor *)

(** C1 (amended).  After a recompute on a reachable grid, for every occupied
    cell inside the scanned 20 x 20 extent and every side, the flag
    [existEdges[side]] is [true] if and only if the cell across that side is
    absent from the grid, and when the flag is [false] the [edgeIds] entry
    of that side is 0. *)
Theorem computeEdges_boundary_flags (st : State) (x y : Z) (s : Side) :
  pristineOutside st = true → inRange x y → hasCell st x y = true →
  ∃ st' c, computeEdges st = Some st' ∧ getCell st' x y = Some c
    ∧ (qget (Cell.existEdges c) s = true
       ↔ hasCell st' (across s x y).1 (across s x y).2 = false)
    ∧ (qget (Cell.existEdges c) s = false → qget (Cell.edgeIds c) s = 0).
Proof.
  intros Hp Hin Hhas.
  destruct (computeEdges_Inv st Hp) as (st' & Hrun & HI & _).
  assert (Hhas' : hasCell st' x y = true) by (by rewrite (inv_occ _ _ _ HI)).
  apply hasCell_getCell in Hhas' as [c Hc].
  exists st', c. split; [done|]. split; [done|].
  pose proof (inv_flag _ _ _ HI x y s Hin) as Hf.
  pose proof (inv_noid _ _ _ HI x y s Hin) as Hn.
  unfold flagAt, idAt in Hf, Hn. rewrite Hc in Hf, Hn.
  split; [|done].
  rewrite Hf, (inv_occ _ _ _ HI). unfold bnd. rewrite Hhas. simpl.
  by rewrite negb_true_iff.
Qed.

Lemma computeEdges_boundary_flags_witness :
  pristineOutside threeInRow = true ∧ inRange 1 1
  ∧ hasCell threeInRow 1 1 = true
  ∧ ∃ st' c, computeEdges threeInRow = Some st' ∧ getCell st' 1 1 = Some c
      ∧ (qget (Cell.existEdges c) EAST = true
         ↔ hasCell st' (across EAST 1 1).1 (across EAST 1 1).2 = false)
      ∧ (qget (Cell.existEdges c) EAST = false → qget (Cell.edgeIds c) EAST = 0).
Proof.
  assert (H1 : pristineOutside threeInRow = true) by (vm_compute; reflexivity).
  assert (H2 : inRange 1 1) by (unfold inRange, TILE_X_COUNT, TILE_Y_COUNT; lia).
  assert (H3 : hasCell threeInRow 1 1 = true) by (vm_compute; reflexivity).
  split; [exact H1|]. split; [exact H2|]. split; [exact H3|].
  exact (computeEdges_boundary_flags threeInRow 1 1 EAST H1 H2 H3).
Defined.

(** C1 as stated fails outside the scanned extent: the cell at (20, 5) is
    occupied and its north neighbour (20, 4) is absent, yet after a
    recompute its north flag is still [false]. *)
Lemma computeEdges_boundary_flags_outside_extent :
  ∃ st' c, computeEdges (setCell 20 5 true initState) = Some st'
    ∧ getCell st' 20 5 = Some c
    ∧ hasCell st' 20 4 = false
    ∧ qget (Cell.existEdges c) NORTH = false.
Proof.
  destruct (computeEdges (setCell 20 5 true initState)) as [st'|] eqn:Hrun;
    [|vm_compute in Hrun; discriminate].
  assert (Hc : getCell st' 20 5 = Some (createCell 20 5)).
  { revert Hrun. vm_compute. by intros [= <-]. }
  exists st', (createCell 20 5). split; [done|]. split; [done|]. split; [|done].
  revert Hrun. vm_compute. by intros [= <-].
Qed.

(** C10.  Every edge of the table after a recompute is axis-aligned and
    normalized, with integer endpoints and a length of at least one grid
    unit: horizontal with [sy = ey] and [sx < ex], or vertical with
    [sx = ex] and [sy < ey]. *)
Theorem computeEdges_edges_normalized (st : State) :
  pristineOutside st = true →
  ∃ st', computeEdges st = Some st'
    ∧ ∀ e, e ∈ getAllEdges st' →
        (Edge.sy e = Edge.ey e ∧ Edge.sx e < Edge.ex e
         ∧ 1 ≤ Edge.ex e - Edge.sx e)
        ∨ (Edge.sx e = Edge.ex e ∧ Edge.sy e < Edge.ey e
           ∧ 1 ≤ Edge.ey e - Edge.sy e).
Proof.
  intros Hp. destruct (computeEdges_Inv st Hp) as (st' & Hrun & HI & _).
  exists st'. split; [done|]. intros e He.
  unfold getAllEdges in He. apply list_elem_of_fmap in He as ([id e'] & -> & He).
  destruct (inv_proper _ _ _ HI id e' He) as [[? ?]|[? ?]]; simpl; [left|right]; lia.
Qed.

Lemma computeEdges_edges_normalized_witness :
  pristineOutside threeInRow = true
  ∧ ∃ st', computeEdges threeInRow = Some st'
      ∧ ∀ e, e ∈ getAllEdges st' →
          (Edge.sy e = Edge.ey e ∧ Edge.sx e < Edge.ex e
           ∧ 1 ≤ Edge.ex e - Edge.sx e)
          ∨ (Edge.sx e = Edge.ex e ∧ Edge.sy e < Edge.ey e
             ∧ 1 ≤ Edge.ey e - Edge.sy e).
Proof.
  assert (H1 : pristineOutside threeInRow = true) by (vm_compute; reflexivity).
  split; [exact H1|]. exact (computeEdges_edges_normalized threeInRow H1).
Defined.

(** C9.  Recompute is idempotent.  On a grid the program can reach a
    recompute returns; and whenever a recompute returns, a second recompute
    right after it returns too, with a table equal to the first, entry by
    entry: the same number of edges, the same endpoints, the same ids. *)
Theorem computeEdges_idempotent (st : State) :
  (pristineOutside st = true → is_Some (computeEdges st))
  ∧ ∀ st1, computeEdges st = Some st1 →
      ∃ st2, computeEdges st1 = Some st2
        ∧ getAllEdges st2 = getAllEdges st1
        ∧ length (getAllEdges st2) = length (getAllEdges st1)
        ∧ edges st2 = edges st1.
Proof.
  split.
  - intros Hp. destruct (computeEdges_Inv st Hp) as (st1 & -> & _). eauto.
  - intros st1 Hrun.
    destruct (computeEdges_Sim st st1 st1) as (st2 & Hrun2 & He); [| |done|].
    + intros a b. symmetry. by eapply computeEdges_has.
    + intros a b Hn. symmetry. by eapply computeEdges_outside.
    + exists st2. unfold getAllEdges. rewrite He. done.
Qed.

Lemma computeEdges_idempotent_witness :
  pristineOutside threeInRow = true
  ∧ ∃ st1 st2, computeEdges threeInRow = Some st1
      ∧ computeEdges st1 = Some st2
      ∧ getAllEdges st1
        = [Edge.mk 0 1 3 1; Edge.mk 0 2 3 2; Edge.mk 0 1 0 2; Edge.mk 3 1 3 2]
      ∧ getAllEdges st2 = getAllEdges st1
      ∧ length (getAllEdges st2) = length (getAllEdges st1)
      ∧ edges st2 = edges st1.
Proof.
  assert (H1 : pristineOutside threeInRow = true) by (vm_compute; reflexivity).
  split; [exact H1|].
  destruct (computeEdges_idempotent threeInRow) as [Hret Htwice].
  destruct (computeEdges threeInRow) as [st1|] eqn:Hrun.
  - destruct (Htwice st1 eq_refl) as (st2 & H2 & H3).
    exists st1, st2. split; [reflexivity|]. split; [exact H2|].
    split; [|exact H3].
    revert Hrun. vm_compute. intros [= <-]. reflexivity.
  - destruct (Hret H1) as [? ?]. discriminate.
Defined.

(** C2 as stated fails on a run of four cells, where the first three cells
    satisfy the premise but their north edge ends at [x0 + 4]; and on three
    cells outside the scanned extent, which receive no edge at all. *)
Lemma computeEdges_north_run_not_three :
  (hasCell fourInRow 0 1 = true ∧ hasCell fourInRow 1 1 = true
   ∧ hasCell fourInRow 2 1 = true
   ∧ hasCell fourInRow 0 0 = false ∧ hasCell fourInRow 1 0 = false
   ∧ hasCell fourInRow 2 0 = false
   ∧ option_map getAllEdges (computeEdges fourInRow)
     = Some [Edge.mk 0 1 4 1; Edge.mk 0 2 4 2; Edge.mk 0 1 0 2; Edge.mk 4 1 4 2])
  ∧ (hasCell threeOutside 20 0 = true ∧ hasCell threeOutside 21 0 = true
     ∧ hasCell threeOutside 22 0 = true
     ∧ hasCell threeOutside 20 (-1) = false ∧ hasCell threeOutside 21 (-1) = false
     ∧ hasCell threeOutside 22 (-1) = false
     ∧ option_map getAllEdges (computeEdges threeOutside) = Some []).
Proof. vm_compute. repeat split. Qed.

(** ** Segment intersection *)

Section IntersectionFacts.
Local Open Scope float_scope.

(** The determinant of the 2x2 system and its solution, as the source
    computes them. *)
Definition det (x0 y0 x1 y1 x2 y2 x3 y3 : float) : float :=
  (- (x3 - x2)) * (y1 - y0) + (x1 - x0) * (y3 - y2).

Definition paramS (x0 y0 x1 y1 x2 y2 x3 y3 : float) : float :=
  ((- (y1 - y0)) * (x0 - x2) + (x1 - x0) * (y0 - y2))
  / det x0 y0 x1 y1 x2 y2 x3 y3.

Definition paramT (x0 y0 x1 y1 x2 y2 x3 y3 : float) : float :=
  ((x3 - x2) * (y0 - y2) - (y3 - y2) * (x0 - x2))
  / det x0 y0 x1 y1 x2 y2 x3 y3.

Definition inUnit (v : float) : bool := (0 <=? v) && (v <=? 1).

Lemma lineIntersect_unfold x0 y0 x1 y1 x2 y2 x3 y3 :
  lineIntersect x0 y0 x1 y1 x2 y2 x3 y3 =
  if inUnit (paramS x0 y0 x1 y1 x2 y2 x3 y3)
     && inUnit (paramT x0 y0 x1 y1 x2 y2 x3 y3)
  then Some (Point.mk (x0 + paramT x0 y0 x1 y1 x2 y2 x3 y3 * (x1 - x0))
                      (y0 + paramT x0 y0 x1 y1 x2 y2 x3 y3 * (y1 - y0)))
  else None.
Proof.
  unfold lineIntersect, inUnit, paramS, paramT, det.
  by rewrite !andb_assoc.
Qed.

End IntersectionFacts.

(** C6.  [lineIntersect] returns a point if and only if both parameters of
    the solution, [s] and [t], lie in [0, 1] inclusive; and when the
    determinant is zero, where the divisions give an infinity or a NaN, it
    returns none. *)
Theorem lineIntersect_some_iff (x0 y0 x1 y1 x2 y2 x3 y3 : float) :
  (is_Some (lineIntersect x0 y0 x1 y1 x2 y2 x3 y3)
   ↔ ((0 <=? paramS x0 y0 x1 y1 x2 y2 x3 y3)%float = true
      ∧ (paramS x0 y0 x1 y1 x2 y2 x3 y3 <=? 1)%float = true
      ∧ (0 <=? paramT x0 y0 x1 y1 x2 y2 x3 y3)%float = true
      ∧ (paramT x0 y0 x1 y1 x2 y2 x3 y3 <=? 1)%float = true))
  ∧ ((det x0 y0 x1 y1 x2 y2 x3 y3 =? 0)%float = true →
     lineIntersect x0 y0 x1 y1 x2 y2 x3 y3 = None).
Proof.
  rewrite lineIntersect_unfold. split.
  - unfold inUnit.
    destruct (0 <=? paramS x0 y0 x1 y1 x2 y2 x3 y3)%float,
             (paramS x0 y0 x1 y1 x2 y2 x3 y3 <=? 1)%float,
             (0 <=? paramT x0 y0 x1 y1 x2 y2 x3 y3)%float,
             (paramT x0 y0 x1 y1 x2 y2 x3 y3 <=? 1)%float; simpl;
      split; try (intros [? ?]; discriminate); try (intros (? & ? & ? & ?); discriminate);
      eauto.
  - intros Hd. unfold inUnit at 1, paramS.
    by rewrite (div_zero_outside _ _ Hd).
Qed.

Lemma lineIntersect_some_iff_witness :
  (det 0 0 1 0 0 1 1 1 =? 0)%float = true
  ∧ lineIntersect 0 0 1 0 0 1 1 1 = None.
Proof.
  assert (H : (det 0 0 1 0 0 1 1 1 =? 0)%float = true) by (vm_compute; reflexivity).
  split; [exact H|].
  exact (proj2 (lineIntersect_some_iff 0 0 1 0 0 1 1 1) H).
Defined.

(** C7.  On the segments (0,0)-(10,0) and (5,-5)-(5,5) [lineIntersect]
    returns the point (5,0); on (0,0)-(1,0) and (5,-5)-(5,5) it returns
    none, the parameter [t] being 5; and a returned point is always
    [p0 + t * (p1 - p0)]. *)
Theorem lineIntersect_examples :
  lineIntersect 0 0 10 0 5 (-5) 5 5 = Some (Point.mk 5 0)
  ∧ lineIntersect 0 0 1 0 5 (-5) 5 5 = None
  ∧ paramS 0 0 1 0 5 (-5) 5 5 = 0.5%float
  ∧ paramT 0 0 1 0 5 (-5) 5 5 = 5%float
  ∧ (5 <=? 1)%float = false
  ∧ ∀ x0 y0 x1 y1 x2 y2 x3 y3 : float,
      lineIntersect x0 y0 x1 y1 x2 y2 x3 y3 = None
      ∨ lineIntersect x0 y0 x1 y1 x2 y2 x3 y3
        = Some (Point.mk
                  (x0 + paramT x0 y0 x1 y1 x2 y2 x3 y3 * (x1 - x0))
                  (y0 + paramT x0 y0 x1 y1 x2 y2 x3 y3 * (y1 - y0))).
Proof.
  repeat (split; [vm_compute; reflexivity|]).
  intros. rewrite lineIntersect_unfold.
  destruct (inUnit _ && inUnit _); auto.
Qed.

(** ** Ray generation *)

(** The end points of a list in the order of their first occurrence,
    skipping those of [V]. *)
Fixpoint freshEnds (V : gset (Z * Z)) (l : list (Z * Z)) : list (Z * Z) :=
  match l with
  | [] => []
  | p :: l' =>
      if decide (p ∈ V) then freshEnds V l'
      else p :: freshEnds ({[ p ]} ∪ V) l'
  end.

Definition distinctEnds (es : list Edge.t) : list (Z * Z) :=
  freshEnds ∅ (es ≫= worldEnds).

Section Generation.
Context (M : Math).

Lemma freshEnds_spec V l :
  NoDup (freshEnds V l)
  ∧ ∀ p, p ∈ freshEnds V l ↔ p ∈ l ∧ p ∉ V.
Proof.
  revert V. induction l as [|q l IH]; intros V; simpl.
  - split; [constructor|]. intros p. rewrite elem_of_nil. tauto.
  - case_decide as Hq.
    + destruct (IH V) as [Hnd Hin]. split; [done|]. intros p.
      rewrite Hin, elem_of_cons. split; [tauto|].
      intros [[->|?] ?]; tauto.
    + destruct (IH ({[q]} ∪ V)) as [Hnd Hin]. split.
      * constructor; [|done]. rewrite Hin. set_solver.
      * intros p. rewrite !elem_of_cons, Hin.
        destruct (decide (p = q)) as [->|Hne]; set_solver.
Qed.

Lemma visit_ends lx ly l V R :
  (fold_left (visitEnd M lx ly) l (V, R)).2
  = R ++ (freshEnds V l ≫= rayTriple M lx ly).
Proof.
  revert V R. induction l as [|p l IH]; intros V R; simpl.
  - by rewrite app_nil_r.
  - unfold visitEnd at 2. simpl. case_decide.
    + apply IH.
    + rewrite IH, bind_cons. by rewrite <- app_assoc.
Qed.

Lemma visit_edges lx ly es acc :
  fold_left (λ acc edge, fold_left (visitEnd M lx ly) (worldEnds edge) acc) es acc
  = fold_left (visitEnd M lx ly) (es ≫= worldEnds) acc.
Proof.
  revert acc. induction es as [|e es IH]; intros acc; [done|].
  rewrite bind_cons, fold_left_app. simpl. apply IH.
Qed.

Lemma generateRays_distinct lx ly es :
  generateRays M lx ly es = distinctEnds es ≫= rayTriple M lx ly.
Proof.
  unfold generateRays, distinctEnds. by rewrite visit_edges, visit_ends.
Qed.

Lemma length_triples lx ly (l : list (Z * Z)) :
  length (l ≫= rayTriple M lx ly) = (3 * length l)%nat.
Proof.
  induction l as [|p l IH]; [done|].
  rewrite bind_cons, length_app, IH. simpl. lia.
Qed.

Lemma length_distinctEnds es :
  length (distinctEnds es) = size (list_to_set (es ≫= worldEnds) : gset (Z * Z)).
Proof.
  unfold distinctEnds. destruct (freshEnds_spec ∅ (es ≫= worldEnds)) as [Hnd Hin].
  rewrite <- (size_list_to_set (C := gset (Z * Z))) by done.
  f_equal. apply set_eq. intros p.
  rewrite !elem_of_list_to_set, Hin. set_solver.
Qed.

(** Sorting keeps the elements. *)
Lemma insertBy_perm {A} (cmp : A → A → float) a l : insertBy cmp a l ≡ₚ a :: l.
Proof.
  induction l as [|b l IH]; simpl; [done|].
  destruct (0 <? cmp b a)%float; [done|].
  rewrite IH. apply Permutation_swap.
Qed.

Lemma arraySort_perm {A} (cmp : A → A → float) l : arraySort cmp l ≡ₚ l.
Proof.
  unfold arraySort.
  assert (H : ∀ acc, fold_left (λ acc a, insertBy cmp a acc) l acc ≡ₚ acc ++ l).
  { induction l as [|a l IH]; intros acc; simpl.
    - by rewrite app_nil_r.
    - rewrite IH, insertBy_perm. simpl. apply Permutation_middle. }
  apply (H []).
Qed.

End Generation.

(** ** Clipping and sorting *)

(** The squared length of a ray as it stands, from the light. *)
Definition rayLen2 (M : Math) (lx ly : float) (r : Ray.t) : float :=
  dist2 M lx ly (Ray.ex r) (Ray.ey r).

(** [a] is not placed after [b] by the comparator of the sort. *)
Definition angleOrdered (a b : Ray.t) : Prop :=
  (0 <? Ray.angle a - Ray.angle b)%float = false.

(** The stored angle of [b] is not below the stored angle of [a]. *)
Definition angleAscending (a b : Ray.t) : Prop :=
  (Ray.angle b <? Ray.angle a)%float = false.

Section Clipping.
Context (M : Math) (lx ly : float).

Lemma clipStep_frame r e :
  Ray.sx (clipStep M lx ly r e) = Ray.sx r
  ∧ Ray.sy (clipStep M lx ly r e) = Ray.sy r
  ∧ Ray.angle (clipStep M lx ly r e) = Ray.angle r.
Proof.
  unfold clipStep. destruct (hit r e) as [p|]; [|done].
  by destruct (dist2 M lx ly (Point.x p) (Point.y p) <? _)%float.
Qed.

Lemma clipRay_frame es r :
  Ray.sx (clipRay M lx ly es r) = Ray.sx r
  ∧ Ray.sy (clipRay M lx ly es r) = Ray.sy r
  ∧ Ray.angle (clipRay M lx ly es r) = Ray.angle r.
Proof.
  revert r. induction es as [|e es IH]; intros r; [done|]. simpl.
  destruct (IH (clipStep M lx ly r e)) as (-> & -> & ->).
  apply clipStep_frame.
Qed.

Lemma clipRay_snoc es e r :
  clipRay M lx ly (es ++ [e]) r = clipStep M lx ly (clipRay M lx ly es r) e.
Proof. unfold clipRay. by rewrite fold_left_app. Qed.

(** One step either keeps the ray, or moves its end to an intersection that
    is strictly closer to the light. *)
Lemma clipStep_cases r e :
  (clipStep M lx ly r e = r
   ∧ ∀ p, hit r e = Some p →
          (dist2 M lx ly (Point.x p) (Point.y p) <? rayLen2 M lx ly r)%float = false)
  ∨ (∃ p, hit r e = Some p
          ∧ (dist2 M lx ly (Point.x p) (Point.y p) <? rayLen2 M lx ly r)%float = true
          ∧ clipStep M lx ly r e
            = Ray.mk (Ray.sx r) (Ray.sy r) (Point.x p) (Point.y p) (Ray.angle r)).
Proof.
  unfold clipStep, rayLen2. destruct (hit r e) as [p|]; [|left; by split].
  destruct (dist2 M lx ly (Point.x p) (Point.y p) <? _)%float eqn:Hlt.
  - right. eauto.
  - left. split; [done|]. by intros ? [= <-].
Qed.

(** At each edge the ray is kept, or shrunk to an intersection strictly
    closer to the light than its end. *)
Lemma clipRay_step es1 e r :
  clipRay M lx ly (es1 ++ [e]) r = clipRay M lx ly es1 r
  ∨ ∃ p, hit (clipRay M lx ly es1 r) e = Some p
      ∧ (dist2 M lx ly (Point.x p) (Point.y p)
         <? rayLen2 M lx ly (clipRay M lx ly es1 r))%float = true
      ∧ Ray.ex (clipRay M lx ly (es1 ++ [e]) r) = Point.x p
      ∧ Ray.ey (clipRay M lx ly (es1 ++ [e]) r) = Point.y p.
Proof.
  rewrite clipRay_snoc.
  destruct (clipStep_cases (clipRay M lx ly es1 r) e) as [[-> _]|(p & Hp & Hlt & ->)];
    [by left|right; eauto].
Qed.

Lemma clipRay_no_hit es r :
  (∀ e, e ∈ es → hit r e = None) → clipRay M lx ly es r = r.
Proof.
  induction es as [|e es IH]; intros H; [done|]. simpl.
  assert (Hs : clipStep M lx ly r e = r).
  { unfold clipStep. rewrite (H e); [done|left]. }
  rewrite Hs. apply IH. intros e' He'. apply H. by right.
Qed.

(** A clipped ray is the ray it started as, no intersection with it being
    strictly closer to the light than its end; or its end is an intersection
    found when some edge was tried, strictly closer than the end before. *)
Lemma clipRay_end es r :
  (clipRay M lx ly es r = r
   ∧ ∀ e p, e ∈ es → hit r e = Some p →
       (dist2 M lx ly (Point.x p) (Point.y p) <? rayLen2 M lx ly r)%float = false)
  ∨ ∃ es1 e es2 p, es = es1 ++ e :: es2
      ∧ hit (clipRay M lx ly es1 r) e = Some p
      ∧ Ray.ex (clipRay M lx ly es r) = Point.x p
      ∧ Ray.ey (clipRay M lx ly es r) = Point.y p
      ∧ (dist2 M lx ly (Point.x p) (Point.y p)
         <? rayLen2 M lx ly (clipRay M lx ly es1 r))%float = true.
Proof.
  induction es as [|e es IH] using rev_ind.
  { left. split; [done|]. intros e p He. inversion He. }
  rewrite clipRay_snoc.
  destruct IH as [[Hsame Hfar]|(es1 & e0 & es2 & p & -> & Hrest)].
  - rewrite Hsame.
    destruct (clipStep_cases r e) as [[-> Hno]|(p & Hp & Hlt & ->)].
    + left. split; [done|]. intros e' p He'.
      apply elem_of_app in He' as [?|He']; [by eapply Hfar|].
      apply list_elem_of_singleton in He' as ->. apply Hno.
    + right. exists es, e, [], p. rewrite Hsame. done.
  - right.
    destruct (clipStep_cases (clipRay M lx ly (es1 ++ e0 :: es2) r) e)
      as [[-> _]|(q & Hq & Hlt & ->)].
    + exists es1, e0, (es2 ++ [e]), p. split; [|done]. by rewrite <- app_assoc.
    + exists (es1 ++ e0 :: es2), e, [], q. done.
Qed.

(** No intersection found during the pass is strictly closer to the light
    than the end of the clipped ray. *)
Lemma clipRay_nearest es r es1 e es2 p :
  es = es1 ++ e :: es2 →
  hit (clipRay M lx ly es1 r) e = Some p →
  (dist2 M lx ly (Point.x p) (Point.y p)
   <? rayLen2 M lx ly (clipRay M lx ly es r))%float = false.
Proof.
  revert es. induction es2 as [|e2 es2 IH] using rev_ind; intros es -> Hp.
  - rewrite clipRay_snoc.
    destruct (clipStep_cases (clipRay M lx ly es1 r) e) as [[-> Hno]|(q & Hq & Hlt & ->)].
    + by apply Hno.
    + rewrite Hp in Hq. injection Hq as <-. unfold rayLen2. simpl.
      apply ltb_irrefl.
  - specialize (IH _ eq_refl Hp).
    replace (es1 ++ e :: es2 ++ [e2]) with ((es1 ++ e :: es2) ++ [e2])
      by (by rewrite <- app_assoc).
    rewrite clipRay_snoc.
    set (r' := clipRay M lx ly (es1 ++ e :: es2) r) in *.
    destruct (clipStep_cases r' e2) as [[-> _]|(q & Hq & Hlt & ->)]; [done|].
    unfold rayLen2 at 1. simpl.
    destruct (dist2 M lx ly (Point.x p) (Point.y p)
              <? dist2 M lx ly (Point.x q) (Point.y q))%float eqn:Hpq; [|done].
    by rewrite (ltb_trans _ _ _ Hpq Hlt) in IH.
Qed.

Lemma insertBy_HdRel c a l :
  HdRel angleOrdered c l → angleOrdered c a →
  HdRel angleOrdered c (insertBy (compareFn) a l).
Proof.
  intros Hl Ha. destruct l as [|b l]; simpl; [by constructor|].
  destruct (0 <? compareFn b a)%float; constructor; [done|].
  by inversion Hl.
Qed.

Lemma insertBy_sorted a l :
  Sorted angleOrdered l → Sorted angleOrdered (insertBy compareFn a l).
Proof.
  induction 1 as [|b l Hs IH Hh]; simpl; [repeat constructor|].
  destruct (0 <? compareFn b a)%float eqn:Hba.
  - constructor; [by constructor|]. constructor. by apply sub_antisym.
  - constructor; [done|]. by apply insertBy_HdRel.
Qed.

Lemma angleOrdered_ascending a b : angleOrdered a b → angleAscending a b.
Proof.
  unfold angleOrdered, angleAscending. intros H.
  destruct (Ray.angle b <? Ray.angle a)%float eqn:Hlt; [|done].
  by rewrite (ltb_sub_pos _ _ Hlt) in H.
Qed.

Lemma Sorted_ascending l : Sorted angleOrdered l → Sorted angleAscending l.
Proof.
  induction 1 as [|a l Hs IH Hh]; constructor; [done|].
  destruct Hh; constructor. by apply angleOrdered_ascending.
Qed.

Lemma arraySort_sorted l : Sorted angleOrdered (arraySort compareFn l).
Proof.
  unfold arraySort.
  assert (H : ∀ acc, Sorted angleOrdered acc →
            Sorted angleOrdered (fold_left (λ acc a, insertBy compareFn a acc) l acc)).
  { induction l as [|a l IH]; intros acc Hacc; simpl; [done|].
    apply IH. by apply insertBy_sorted. }
  apply H. constructor.
Qed.

End Clipping.

(** ** Example scenes *)

(** One vertical edge, from (3, 0) to (3, 2) in grid units, a light at
    (8, 8) in pixels, and a ray left over from an earlier frame. *)
Definition wallScene : State :=
  mkState ∅ [(1, Edge.mk 3 0 3 2)] 2 (Some (8, 8)%float)
    [Ray.mk 0 0 1 1 0].

Definition darkScene : State := withLight None wallScene.

(** The first ray of the wall scene after the visibility computation. *)
Definition wallRay : Ray.t :=
  Eval vm_compute in
    match rays (getRaysToEdges sampleMath wallScene) with
    | r :: _ => r
    | [] => Ray.mk 0 0 0 0 0
    end.

(** The ray at angle [ang] as it is generated: from the light to the
    far-field point. *)
Definition farRay (M : Math) (lx ly ang : float) : Ray.t :=
  Ray.mk lx ly (lx + cos M ang * 20 * 16 * 1.5)%float
    (ly + sin M ang * 20 * 16 * 1.5)%float ang.

(** The returned rays are the generated rays, each clipped, in sorted
    order. *)
Lemma getRaysToEdges_rays (M : Math) (lx ly : float) (st : State) :
  rays (getRaysToEdges M (withLight (Some (lx, ly)) st))
  = arraySort compareFn
      (clipRay M lx ly (getAllEdges st)
         <$> generateRays M lx ly (getAllEdges st)).
Proof. done. Qed.

Lemma getRaysToEdges_elem (M : Math) (lx ly : float) (st : State) r :
  r ∈ rays (getRaysToEdges M (withLight (Some (lx, ly)) st)) →
  ∃ r0, r0 ∈ generateRays M lx ly (getAllEdges st)
        ∧ r = clipRay M lx ly (getAllEdges st) r0.
Proof.
  rewrite getRaysToEdges_rays, arraySort_perm. intros Hr.
  apply list_elem_of_fmap in Hr as (r0 & -> & Hr0). eauto.
Qed.

(** ** The visibility engine *)

(** C8.  Without a light source the visibility computation leaves an empty
    ray list, whatever the edges and whatever rays were stored before, and
    touches nothing else. *)
Theorem getRaysToEdges_no_light (M : Math) (st : State) :
  lightSource st = None →
  rays (getRaysToEdges M st) = []
  ∧ edges (getRaysToEdges M st) = edges st
  ∧ cells (getRaysToEdges M st) = cells st
  ∧ lightSource (getRaysToEdges M st) = None.
Proof. intros H. unfold getRaysToEdges. rewrite H. done. Qed.

Lemma getRaysToEdges_no_light_witness :
  lightSource darkScene = None
  ∧ rays darkScene ≠ []
  ∧ rays (getRaysToEdges sampleMath darkScene) = []
  ∧ edges (getRaysToEdges sampleMath darkScene) = edges darkScene
  ∧ cells (getRaysToEdges sampleMath darkScene) = cells darkScene
  ∧ lightSource (getRaysToEdges sampleMath darkScene) = None.
Proof.
  assert (H : lightSource darkScene = None) by reflexivity.
  split; [exact H|]. split; [discriminate|].
  exact (getRaysToEdges_no_light sampleMath darkScene H).
Defined.

(** C4.  With a light at [(lx, ly)], ray generation pushes, for each
    distinct end point of the edges in pixels (first occurrence first), the
    three rays at the angles [base - 0.0001], [base] and [base + 0.0001],
    where [base] is [atan2] from the light to the end point (the middle
    angle is computed as [base + 0], which is [base], with the sign of a
    zero lost); each ray runs from the light to
    [light + (cos(angle) * 20 * 16 * 1.5, sin(angle) * 20 * 16 * 1.5)], the
    products taken in this order; and the ray list holds three times as
    many rays as there are distinct end points.  The end points are the
    pairs [(sx * 16, sy * 16)] and [(ex * 16, ey * 16)] of the edges, and
    every edge contributes both of its own. *)
Theorem generateRays_three_per_endpoint (M : Math) (lx ly : float)
    (es : list Edge.t) :
  generateRays M lx ly es = distinctEnds es ≫= rayTriple M lx ly
  ∧ NoDup (distinctEnds es)
  ∧ (∀ p, p ∈ distinctEnds es
          ↔ ∃ e, e ∈ es ∧ (p = (Edge.sx e * 16, Edge.sy e * 16)
                           ∨ p = (Edge.ex e * 16, Edge.ey e * 16)))
  ∧ length (generateRays M lx ly es)
    = (3 * size (list_to_set
                   (es ≫= λ e, [(Edge.sx e * 16, Edge.sy e * 16)%Z;
                                (Edge.ex e * 16, Edge.ey e * 16)%Z])
                 : gset (Z * Z)))%nat
  ∧ (∀ st, getAllEdges st = es →
       length (rays (getRaysToEdges M (withLight (Some (lx, ly)) st)))
       = (3 * size (list_to_set
                      (es ≫= λ e, [(Edge.sx e * 16, Edge.sy e * 16)%Z;
                                   (Edge.ex e * 16, Edge.ey e * 16)%Z])
                    : gset (Z * Z)))%nat)
  ∧ (∀ e, e ∈ es →
       ∀ r, r ∈ rayTriple M lx ly (Edge.sx e * 16, Edge.sy e * 16)
            ∨ r ∈ rayTriple M lx ly (Edge.ex e * 16, Edge.ey e * 16) →
            r ∈ generateRays M lx ly es)
  ∧ ∀ p : Z * Z,
      let base := atan2 M (Z2F p.2 - ly)%float (Z2F p.1 - lx)%float in
      ∃ mid, (mid = base ∨ (base = (-0)%float ∧ mid = 0%float))
        ∧ rayTriple M lx ly p
          = [farRay M lx ly (base - 0.0001)%float; farRay M lx ly mid;
             farRay M lx ly (base + 0.0001)%float].
Proof.
  change (λ e : Edge.t, [(Edge.sx e * 16, Edge.sy e * 16);
                         (Edge.ex e * 16, Edge.ey e * 16)]) with worldEnds.
  assert (Hends : ∀ (p : Z * Z) e,
            p ∈ worldEnds e ↔ p = (Edge.sx e * 16, Edge.sy e * 16)
                              ∨ p = (Edge.ex e * 16, Edge.ey e * 16)).
  { intros p e. unfold worldEnds, TILE_SIZE.
    rewrite !elem_of_cons, elem_of_nil. tauto. }
  assert (Hlen : length (generateRays M lx ly es)
            = (3 * size (list_to_set (es ≫= worldEnds) : gset (Z * Z)))%nat).
  { by rewrite generateRays_distinct, length_triples, length_distinctEnds. }
  split; [apply generateRays_distinct|].
  destruct (freshEnds_spec ∅ (es ≫= worldEnds)) as [Hnd Hin].
  assert (Hmem : ∀ p, p ∈ distinctEnds es ↔ ∃ e, e ∈ es ∧ p ∈ worldEnds e).
  { intros p. unfold distinctEnds. rewrite Hin, list_elem_of_bind. set_solver. }
  split; [done|]. split.
  { intros p. rewrite Hmem. split; intros (e & He & Hp); exists e;
      (split; [done|]); by apply Hends. }
  split; [done|]. split.
  { intros st Hes. unfold getRaysToEdges. cbn [lightSource withLight].
    change (getAllEdges (withLight (Some (lx, ly)) st)) with (getAllEdges st).
    rewrite Hes. cbn [rays withRays].
    by rewrite (Permutation_length (arraySort_perm _ _)), length_fmap. }
  split.
  { intros e He r Hr. rewrite generateRays_distinct. apply list_elem_of_bind.
    destruct Hr as [Hr|Hr]; eexists; (split; [exact Hr|]); apply Hmem;
      exists e; (split; [done|]); apply Hends; auto. }
  intros p base.
  exists (base + 0)%float. split.
  { destruct (add_zero base) as [->|[? ?]]; auto. }
  unfold rayTriple, rayAt, farRay. fold base.
  change (Z2F TILE_X_COUNT) with 20%float.
  change (Z2F TILE_Y_COUNT) with 20%float.
  change (Z2F TILE_SIZE) with 16%float.
  change ((0 - 1) * 0.0001)%float with (PrimFloat.opp 0.0001).
  change ((1 - 1) * 0.0001)%float with 0%float.
  change ((2 - 1) * 0.0001)%float with 0.0001%float.
  by rewrite add_opp_sub.
Qed.

(** C5.  Clipping writes only the end [(ex, ey)] of a ray: its origin
    [(sx, sy)] and its [angle] field keep the values of ray generation.
    The returned ray list holds the clipped rays, sorted ascending by that
    stored [angle] field: no ray is followed by a ray whose stored angle is
    below its own, nor by one that the comparator [a.angle - b.angle] places
    before it. *)
Theorem getRaysToEdges_sorted_by_stored_angle (M : Math) (lx ly : float)
    (st : State) :
  let es := getAllEdges st in
  let out := rays (getRaysToEdges M (withLight (Some (lx, ly)) st)) in
  (∀ r0, Ray.sx (clipRay M lx ly es r0) = Ray.sx r0
         ∧ Ray.sy (clipRay M lx ly es r0) = Ray.sy r0
         ∧ Ray.angle (clipRay M lx ly es r0) = Ray.angle r0)
  ∧ out ≡ₚ (clipRay M lx ly es <$> generateRays M lx ly es)
  ∧ (∀ r, r ∈ out →
       ∃ r0, r0 ∈ generateRays M lx ly es ∧ r = clipRay M lx ly es r0
             ∧ Ray.sx r = Ray.sx r0 ∧ Ray.sy r = Ray.sy r0
             ∧ Ray.angle r = Ray.angle r0)
  ∧ Sorted angleAscending out
  ∧ Sorted angleOrdered out.
Proof.
  intros es out.
  assert (Hout : out = arraySort compareFn
                         (clipRay M lx ly es <$> generateRays M lx ly es))
    by apply getRaysToEdges_rays.
  split; [intros r0; apply clipRay_frame|].
  split; [rewrite Hout; apply arraySort_perm|].
  split.
  - intros r Hr. apply getRaysToEdges_elem in Hr as (r0 & Hr0 & ->).
    exists r0. split; [done|]. split; [done|]. apply clipRay_frame.
  - rewrite Hout. split; [apply Sorted_ascending|]; apply arraySort_sorted.
Qed.

(** C3 (amended).  Every ray of the returned list is a generated ray,
    clipped.  Each edge is tried against the ray as it stands at that
    moment, already shortened by the edges before.  The end of the returned
    ray is an intersection point found when some edge was tried, strictly
    closer to the light than the end the ray had then; or the ray is the
    generated ray unchanged, no intersection with it being strictly closer
    to the light than the far-field point.  No intersection found during
    the pass is strictly closer to the light than the final end; when no
    edge intersects the generated ray, the end is the far-field point
    unchanged; and at every edge the ray is kept or shrunk to an
    intersection strictly closer than its end. *)
Theorem getRaysToEdges_clips_to_nearest (M : Math) (lx ly : float)
    (st : State) (r : Ray.t) :
  r ∈ rays (getRaysToEdges M (withLight (Some (lx, ly)) st)) →
  let es := getAllEdges st in
  ∃ r0, r0 ∈ generateRays M lx ly es ∧ r = clipRay M lx ly es r0
    ∧ ((∀ e, e ∈ es → hit r0 e = None) → r = r0)
    ∧ ((r = r0
        ∧ ∀ e p, e ∈ es → hit r0 e = Some p →
            (dist2 M lx ly (Point.x p) (Point.y p) <? rayLen2 M lx ly r0)%float
            = false)
       ∨ ∃ es1 e es2 p, es = es1 ++ e :: es2
           ∧ hit (clipRay M lx ly es1 r0) e = Some p
           ∧ Ray.ex r = Point.x p ∧ Ray.ey r = Point.y p
           ∧ (dist2 M lx ly (Point.x p) (Point.y p)
              <? rayLen2 M lx ly (clipRay M lx ly es1 r0))%float = true)
    ∧ (∀ es1 e es2 p, es = es1 ++ e :: es2 →
         hit (clipRay M lx ly es1 r0) e = Some p →
         (dist2 M lx ly (Point.x p) (Point.y p) <? rayLen2 M lx ly r)%float
         = false)
    ∧ (∀ es1 e,
         clipRay M lx ly (es1 ++ [e]) r0 = clipRay M lx ly es1 r0
         ∨ ∃ p, hit (clipRay M lx ly es1 r0) e = Some p
             ∧ (dist2 M lx ly (Point.x p) (Point.y p)
                <? rayLen2 M lx ly (clipRay M lx ly es1 r0))%float = true
             ∧ Ray.ex (clipRay M lx ly (es1 ++ [e]) r0) = Point.x p
             ∧ Ray.ey (clipRay M lx ly (es1 ++ [e]) r0) = Point.y p).
Proof.
  intros Hr es.
  apply getRaysToEdges_elem in Hr as (r0 & Hr0 & ->).
  exists r0. split; [done|]. split; [done|]. split; [apply clipRay_no_hit|].
  split; [apply clipRay_end|]. split.
  - intros es1 e es2 p. apply clipRay_nearest.
  - intros es1 e. apply clipRay_step.
Qed.

Lemma getRaysToEdges_clips_to_nearest_witness :
  wallRay ∈ rays (getRaysToEdges sampleMath (withLight (Some (8, 8)%float) wallScene))
  ∧ Ray.ex wallRay = 48%float
  ∧ ∃ r0, r0 ∈ generateRays sampleMath 8 8 (getAllEdges wallScene)
      ∧ wallRay = clipRay sampleMath 8 8 (getAllEdges wallScene) r0
      ∧ ((∀ e, e ∈ getAllEdges wallScene → hit r0 e = None) → wallRay = r0)
      ∧ ((wallRay = r0
          ∧ ∀ e p, e ∈ getAllEdges wallScene → hit r0 e = Some p →
              (dist2 sampleMath 8 8 (Point.x p) (Point.y p)
               <? rayLen2 sampleMath 8 8 r0)%float = false)
         ∨ ∃ es1 e es2 p, getAllEdges wallScene = es1 ++ e :: es2
             ∧ hit (clipRay sampleMath 8 8 es1 r0) e = Some p
             ∧ Ray.ex wallRay = Point.x p ∧ Ray.ey wallRay = Point.y p
             ∧ (dist2 sampleMath 8 8 (Point.x p) (Point.y p)
                <? rayLen2 sampleMath 8 8 (clipRay sampleMath 8 8 es1 r0))%float
               = true)
      ∧ (∀ es1 e es2 p, getAllEdges wallScene = es1 ++ e :: es2 →
           hit (clipRay sampleMath 8 8 es1 r0) e = Some p →
           (dist2 sampleMath 8 8 (Point.x p) (Point.y p)
            <? rayLen2 sampleMath 8 8 wallRay)%float = false)
      ∧ (∀ es1 e,
           clipRay sampleMath 8 8 (es1 ++ [e]) r0 = clipRay sampleMath 8 8 es1 r0
           ∨ ∃ p, hit (clipRay sampleMath 8 8 es1 r0) e = Some p
               ∧ (dist2 sampleMath 8 8 (Point.x p) (Point.y p)
                  <? rayLen2 sampleMath 8 8 (clipRay sampleMath 8 8 es1 r0))%float
                 = true
               ∧ Ray.ex (clipRay sampleMath 8 8 (es1 ++ [e]) r0) = Point.x p
               ∧ Ray.ey (clipRay sampleMath 8 8 (es1 ++ [e]) r0) = Point.y p).
Proof.
  assert (H : wallRay ∈ rays (getRaysToEdges sampleMath
                                (withLight (Some (8, 8)%float) wallScene)))
    by (vm_compute; left).
  split; [exact H|]. split; [reflexivity|].
  exact (getRaysToEdges_clips_to_nearest sampleMath 8 8 wallScene wallRay H).
Defined.

(** ** Further properties of the edge extractor *)

(** X1.  In every state of a session a recompute returns: the assignment to
    a field of [getEdge(edgeId)!] never meets a missing edge. *)
Theorem computeEdges_returns (st : State) :
  Reachable st → ∃ st', computeEdges st = Some st' ∧ Reachable st'.
Proof.
  intros H. destruct (computeEdges_Inv st (Reachable_pristine st H)) as (st' & Hrun & _).
  exists st'. split; [done|]. by eapply reach_computeEdges.
Qed.

Lemma computeEdges_returns_witness :
  Reachable threeInRow
  ∧ ∃ st', computeEdges threeInRow = Some st' ∧ Reachable st'.
Proof.
  assert (H : Reachable threeInRow)
    by (unfold threeInRow; repeat apply reach_setCell; apply reach_init).
  split; [exact H|]. exact (computeEdges_returns threeInRow H).
Defined.

(** X2.  Two cells of the extent that follow each other along the line of a
    side, both with that side a boundary, share one edge id after a
    recompute, and the table has an edge under it. *)
Theorem computeEdges_neighbours_share (st : State) (x y : Z) (s : Side) :
  pristineOutside st = true →
  inRange x y → inRange (next s x y).1 (next s x y).2 →
  bnd (hasCell st) s x y = true →
  bnd (hasCell st) s (next s x y).1 (next s x y).2 = true →
  ∃ st' e, computeEdges st = Some st'
    ∧ idAt st' (next s x y).1 (next s x y).2 s = idAt st' x y s
    ∧ getEdge st' (idAt st' x y s) = Some e
    ∧ startPos s e ≤ pos s x y ∧ pos s x y + 2 ≤ endPos s e.
Proof.
  intros Hp Hin Hin' Hb Hb'.
  destruct (computeEdges_Inv st Hp) as (st' & Hrun & HI & _).
  pose proof (inv_flag _ _ _ HI x y s Hin) as F. rewrite Hb in F.
  pose proof (inv_flag _ _ _ HI _ _ s Hin') as F'. rewrite Hb' in F'.
  pose proof (inv_link _ _ _ HI x y s Hin F Hin' F') as L.
  destruct (inv_edge _ _ _ HI x y s Hin F) as (e & He & _ & Hrs & _).
  destruct (inv_edge _ _ _ HI _ _ s Hin' F') as (e' & He' & _ & _ & Hend).
  rewrite L, He in He'. injection He' as <-.
  exists st', e. split; [done|]. split; [done|]. split; [done|].
  pose proof (RunStart_le _ _ _ _ _ Hrs).
  pose proof (next_line_pos s x y) as [_ Hnp]. lia.
Qed.

Lemma computeEdges_neighbours_share_witness :
  pristineOutside threeInRow = true
  ∧ inRange 0 1 ∧ inRange (next SOUTH 0 1).1 (next SOUTH 0 1).2
  ∧ bnd (hasCell threeInRow) SOUTH 0 1 = true
  ∧ bnd (hasCell threeInRow) SOUTH (next SOUTH 0 1).1 (next SOUTH 0 1).2 = true
  ∧ ∃ st' e, computeEdges threeInRow = Some st'
      ∧ idAt st' (next SOUTH 0 1).1 (next SOUTH 0 1).2 SOUTH = idAt st' 0 1 SOUTH
      ∧ getEdge st' (idAt st' 0 1 SOUTH) = Some e
      ∧ startPos SOUTH e ≤ pos SOUTH 0 1 ∧ pos SOUTH 0 1 + 2 ≤ endPos SOUTH e.
Proof.
  assert (H1 : pristineOutside threeInRow = true) by (vm_compute; reflexivity).
  assert (H2 : inRange 0 1) by (unfold inRange, TILE_X_COUNT, TILE_Y_COUNT; lia).
  assert (H3 : inRange (next SOUTH 0 1).1 (next SOUTH 0 1).2)
    by (unfold inRange, TILE_X_COUNT, TILE_Y_COUNT; simpl; lia).
  assert (H4 : bnd (hasCell threeInRow) SOUTH 0 1 = true) by (vm_compute; reflexivity).
  assert (H5 : bnd (hasCell threeInRow) SOUTH (next SOUTH 0 1).1 (next SOUTH 0 1).2 = true)
    by (vm_compute; reflexivity).
  repeat (split; [assumption|]).
  exact (computeEdges_neighbours_share threeInRow 0 1 SOUTH H1 H2 H3 H4 H5).
Defined.

(** X3.  After a recompute the ids of the table are 1, 2, ..., n in
    insertion order, the counter stands at n + 1, and a cell of the extent
    holds the id 0 or an id of the table. *)
Theorem computeEdges_ids (st : State) (x y : Z) (s : Side) :
  pristineOutside st = true → inRange x y →
  ∃ st', computeEdges st = Some st'
    ∧ (edges st').*1 = seqZ 1 (edgeId st' - 1)
    ∧ (idAt st' x y s = 0 ∨ is_Some (getEdge st' (idAt st' x y s))).
Proof.
  intros Hp Hin. destruct (computeEdges_Inv st Hp) as (st' & Hrun & HI & _).
  exists st'. split; [done|]. split; [apply (inv_keys _ _ _ HI)|].
  destruct (flagAt st' x y s) eqn:F.
  - right. destruct (inv_edge _ _ _ HI x y s Hin F) as (e & -> & _). eauto.
  - left. by apply (inv_noid _ _ _ HI).
Qed.

Lemma computeEdges_ids_witness :
  pristineOutside threeInRow = true ∧ inRange 2 1
  ∧ ∃ st', computeEdges threeInRow = Some st'
      ∧ (edges st').*1 = seqZ 1 (edgeId st' - 1)
      ∧ (idAt st' 2 1 EAST = 0 ∨ is_Some (getEdge st' (idAt st' 2 1 EAST))).
Proof.
  assert (H1 : pristineOutside threeInRow = true) by (vm_compute; reflexivity).
  assert (H2 : inRange 2 1) by (unfold inRange, TILE_X_COUNT, TILE_Y_COUNT; lia).
  split; [exact H1|]. split; [exact H2|].
  exact (computeEdges_ids threeInRow 2 1 EAST H1 H2).
Defined.
(** ** The cell map and the edge table as stores *)

(** The ids of the table are 1, 2, ... in insertion order, up to the
    counter. *)
Definition tableOk (st : State) : Prop :=
  1 ≤ edgeId st ∧ (edges st).*1 = seqZ 1 (edgeId st - 1).

(** [addEdge] on each edge of a list, in order. *)
Definition addEdges (es : list Edge.t) (st : State) : State :=
  fold_left (λ s e, (addEdge e s).2) es st.

Section Stores.

Lemma hasCell_setCell x y v st a b :
  hasCell (setCell x y v st) a b =
  if decide (a = x ∧ b = y) then v else hasCell st a b.
Proof.
  apply eq_true_iff_eq. rewrite hasCell_getCell, getCell_setCell.
  case_decide.
  - destruct v.
    + split; eauto.
    + split; [intros [? ?]; done|done].
  - by rewrite hasCell_getCell.
Qed.

Lemma tableOk_fresh st : tableOk st → getEdge st (edgeId st) = None.
Proof.
  intros [H1 Hk]. apply eq_None_not_Some. unfold getEdge.
  rewrite mapGet_is_Some, Hk, elem_of_seqZ. lia.
Qed.

Lemma addEdge_edges st e :
  tableOk st → edges (addEdge e st).2 = edges st ++ [(edgeId st, e)].
Proof.
  intros [H1 Hk]. unfold addEdge. simpl. apply mapSet_fresh.
  rewrite Hk, elem_of_seqZ. lia.
Qed.

Lemma addEdge_tableOk st e : tableOk st → tableOk (addEdge e st).2.
Proof.
  intros Hok. pose proof (addEdge_edges st e Hok) as He. destruct Hok as [H1 Hk].
  split; [simpl; lia|]. rewrite He, fmap_app, Hk. simpl.
  replace (edgeId st + 1 - 1) with ((edgeId st - 1) + 1) by lia.
  rewrite seqZ_app by lia. f_equal. unfold seqZ. simpl. f_equal. lia.
Qed.

Lemma addEdges_edges es st :
  tableOk st →
  edges (addEdges es st) = edges st ++ zip (seqZ (edgeId st) (Z.of_nat (length es))) es
  ∧ edgeId (addEdges es st) = edgeId st + Z.of_nat (length es)
  ∧ tableOk (addEdges es st).
Proof.
  revert st. induction es as [|e es IH]; intros st Hok.
  - simpl. rewrite app_nil_r, Z.add_0_r. done.
  - destruct (IH _ (addEdge_tableOk st e Hok)) as (He & Hi & Hok').
    change (addEdges (e :: es) st) with (addEdges es (addEdge e st).2).
    rewrite He, Hi, (addEdge_edges st e Hok). split; [|split; [|done]].
    + rewrite <- app_assoc. f_equal. simpl length.
      rewrite Nat2Z.inj_succ, (seqZ_cons (edgeId st)) by lia.
      rewrite Z.pred_succ. simpl. by do 2 f_equal.
    + simpl. lia.
Qed.

End Stores.

(** X4.  [setCell] followed by a lookup: the cell at [(x, y)] is present
    exactly when the value set was [true], and is then a newly created cell
    with no flag and no edge id, whatever stood there before; every other
    position, the edge table, the light and the rays are as before. *)
Theorem setCell_lookup (st : State) (x y : Z) (v : bool) (a b : Z) :
  hasCell (setCell x y v st) a b
  = (if decide (a = x ∧ b = y) then v else hasCell st a b)
  ∧ getCell (setCell x y v st) a b
    = (if decide (a = x ∧ b = y)
       then (if v then Some (createCell x y) else None)
       else getCell st a b)
  ∧ edges (setCell x y v st) = edges st
  ∧ edgeId (setCell x y v st) = edgeId st
  ∧ lightSource (setCell x y v st) = lightSource st
  ∧ rays (setCell x y v st) = rays st.
Proof.
  split; [apply hasCell_setCell|]. split; [apply getCell_setCell|].
  unfold setCell. destruct v; [done|]. by destruct (cells st !! x).
Qed.

(** X5.  [addEdge] on a table whose ids are 1 .. [edgeId - 1]: the id
    returned is the counter, which was not in use; a lookup of it gives the
    edge added, every other id resolves as before, the edge is the last of
    [getAllEdges], and the table is again of that form with the counter one
    higher. *)
Theorem addEdge_lookup (st : State) (e : Edge.t) :
  tableOk st →
  (addEdge e st).1 = edgeId st
  ∧ getEdge st (addEdge e st).1 = None
  ∧ getEdge (addEdge e st).2 (addEdge e st).1 = Some e
  ∧ hasEdge (addEdge e st).2 (addEdge e st).1 = true
  ∧ (∀ k, k ≠ (addEdge e st).1 → getEdge (addEdge e st).2 k = getEdge st k)
  ∧ getAllEdges (addEdge e st).2 = getAllEdges st ++ [e]
  ∧ edgeId (addEdge e st).2 = edgeId st + 1
  ∧ tableOk (addEdge e st).2
  ∧ cells (addEdge e st).2 = cells st.
Proof.
  intros Hok.
  assert (Hget : getEdge (addEdge e st).2 (edgeId st) = Some e).
  { unfold getEdge, addEdge. simpl. rewrite mapGet_mapSet. by rewrite decide_True. }
  split; [done|]. split; [by apply tableOk_fresh|]. split; [done|].
  split; [apply bool_decide_eq_true; exists e; exact Hget|].
  split.
  { intros k Hk. unfold getEdge, addEdge. simpl. rewrite mapGet_mapSet.
    by rewrite decide_False. }
  split; [unfold getAllEdges; by rewrite (addEdge_edges st e Hok), fmap_app|].
  split; [done|]. split; [by apply addEdge_tableOk|done].
Qed.

Lemma addEdge_lookup_witness :
  tableOk (mkState ∅ [(1, Edge.mk 0 0 1 0); (2, Edge.mk 1 0 1 1)] 3 None [])
  ∧ getAllEdges
      (addEdge (Edge.mk 0 1 1 1)
         (mkState ∅ [(1, Edge.mk 0 0 1 0); (2, Edge.mk 1 0 1 1)] 3 None [])).2
    = [Edge.mk 0 0 1 0; Edge.mk 1 0 1 1; Edge.mk 0 1 1 1].
Proof.
  assert (H : tableOk (mkState ∅ [(1, Edge.mk 0 0 1 0); (2, Edge.mk 1 0 1 1)] 3 None []))
    by (split; [simpl; lia|reflexivity]).
  split; [exact H|].
  exact (proj1 (proj2 (proj2 (proj2 (proj2 (proj2
    (addEdge_lookup _ (Edge.mk 0 1 1 1) H))))))).
Defined.

(** X6.  After [clearEdges] no id resolves any more, and the edges added
    next receive the ids 1, 2, ... in the order they are added:
    [getAllEdges] is then the list of the added edges. *)
Theorem clearEdges_then_addEdges (st : State) (es : list Edge.t) :
  (∀ id, getEdge (clearEdges st) id = None
         ∧ hasEdge (clearEdges st) id = false)
  ∧ getAllEdges (clearEdges st) = []
  ∧ edges (addEdges es (clearEdges st)) = zip (seqZ 1 (Z.of_nat (length es))) es
  ∧ getAllEdges (addEdges es (clearEdges st)) = es
  ∧ edgeId (addEdges es (clearEdges st)) = 1 + Z.of_nat (length es)
  ∧ cells (clearEdges st) = cells st.
Proof.
  assert (Hok : tableOk (clearEdges st)) by (split; [simpl; lia|reflexivity]).
  destruct (addEdges_edges es _ Hok) as (He & Hi & _). simpl in He, Hi.
  split; [intros id; split; [done|]; by apply bool_decide_eq_false; intros [? ?]|].
  split; [done|]. split; [done|]. split; [|done].
  unfold getAllEdges. rewrite He. apply snd_zip.
  rewrite length_seqZ. lia.
Qed.

(** ** Runs of boundary sides *)

(** The cell at position [p] on the line of side [s] through [(x, y)]. *)
Definition at_pos (s : Side) (x y p : Z) : Z * Z :=
  match s with NORTH | SOUTH => (p, y) | EAST | WEST => (x, p) end.

(** The segment from position [q] to position [r] on the grid line that
    carries side [s] of the cell [(x, y)]. *)
Definition segment (s : Side) (x y q r : Z) : Edge.t :=
  match s with
  | NORTH => Edge.mk q y r y
  | EAST => Edge.mk (x + 1) q (x + 1) r
  | SOUTH => Edge.mk q (y + 1) r (y + 1)
  | WEST => Edge.mk x q x r
  end.

(** [RunEnd occ s x y r]: walking from [(x, y)] with the scan along the line
    of side [s], through scanned cells that have side [s] as a boundary,
    stops before position [r]. *)
Inductive RunEnd (occ : Z → Z → bool) (s : Side) : Z → Z → Z → Prop :=
  | re_here x y :
      ¬ (inRange (next s x y).1 (next s x y).2
         ∧ bnd occ s (next s x y).1 (next s x y).2 = true) →
      RunEnd occ s x y (pos s x y + 1)
  | re_ext x y r :
      inRange (next s x y).1 (next s x y).2 →
      bnd occ s (next s x y).1 (next s x y).2 = true →
      RunEnd occ s (next s x y).1 (next s x y).2 r →
      RunEnd occ s x y r.

Section Runs.
Context (occ : Z → Z → bool).

Lemma at_pos_line_pos s x y p :
  line s (at_pos s x y p).1 (at_pos s x y p).2 = line s x y
  ∧ pos s (at_pos s x y p).1 (at_pos s x y p).2 = p.
Proof. by destruct s. Qed.

Lemma at_pos_self s x y : at_pos s x y (pos s x y) = (x, y).
Proof. by destruct s. Qed.

Lemma at_pos_same_line s a b x y p :
  line s a b = line s x y → at_pos s a b p = at_pos s x y p.
Proof. destruct s; simpl; congruence. Qed.

Lemma at_pos_extending s x y : at_pos s x y (pos s x y - 1) = extending s x y.
Proof. by destruct s. Qed.

Lemma at_pos_next s x y : at_pos s x y (pos s x y + 1) = next s x y.
Proof. by destruct s. Qed.

Lemma inRange_pos s x y :
  inRange x y → 0 ≤ pos s x y < 20.
Proof. unfold inRange, TILE_X_COUNT, TILE_Y_COUNT. destruct s; simpl; lia. Qed.

Lemma RunStart_exists s x y : inRange x y → ∃ q, RunStart occ s x y q.
Proof.
  intros Hin.
  assert (H : ∀ n : nat, ∀ a b, inRange a b → pos s a b < Z.of_nat n →
              ∃ q, RunStart occ s a b q).
  { induction n as [|n IH]; intros a b Hab Hp.
    - pose proof (inRange_pos s a b Hab). lia.
    - destruct (decide (inRange (extending s a b).1 (extending s a b).2)) as [He|He].
      + destruct (bnd occ s (extending s a b).1 (extending s a b).2) eqn:Hb.
        * destruct (IH _ _ He) as [q Hq].
          { pose proof (extending_line_pos s a b). lia. }
          exists q. by apply rs_ext.
        * eexists. apply rs_here. intros [_ ?]. congruence.
      + eexists. apply rs_here. tauto. }
  apply (H (Z.to_nat (pos s x y + 1))); [done|].
  pose proof (inRange_pos s x y Hin). lia.
Qed.

Lemma RunEnd_exists s x y : inRange x y → ∃ r, RunEnd occ s x y r.
Proof.
  intros Hin.
  assert (H : ∀ n : nat, ∀ a b, inRange a b → 20 - pos s a b < Z.of_nat n →
              ∃ r, RunEnd occ s a b r).
  { induction n as [|n IH]; intros a b Hab Hp.
    - pose proof (inRange_pos s a b Hab). lia.
    - destruct (decide (inRange (next s a b).1 (next s a b).2)) as [He|He].
      + destruct (bnd occ s (next s a b).1 (next s a b).2) eqn:Hb.
        * destruct (IH _ _ He) as [r Hr].
          { pose proof (next_line_pos s a b). lia. }
          exists r. by apply re_ext.
        * eexists. apply re_here. intros [_ ?]. congruence.
      + eexists. apply re_here. tauto. }
  apply (H (Z.to_nat (20 - pos s x y + 1))); [done|].
  pose proof (inRange_pos s x y Hin). lia.
Qed.

Lemma RunStart_stop s x y q :
  RunStart occ s x y q →
  ¬ (inRange (at_pos s x y (q - 1)).1 (at_pos s x y (q - 1)).2
     ∧ bnd occ s (at_pos s x y (q - 1)).1 (at_pos s x y (q - 1)).2 = true).
Proof.
  induction 1 as [x y Hn|x y q Hin Hb Hrun IH].
  - by rewrite at_pos_extending.
  - rewrite <- (at_pos_same_line s (extending s x y).1 (extending s x y).2 x y);
      [exact IH|].
    apply extending_line_pos.
Qed.

Lemma RunEnd_gt s x y r : RunEnd occ s x y r → pos s x y < r.
Proof.
  induction 1 as [x y _|x y r _ _ _ IH]; [lia|].
  pose proof (next_line_pos s x y). lia.
Qed.

Lemma RunEnd_run s x y r :
  RunEnd occ s x y r →
  ∀ p, pos s x y < p < r →
       inRange (at_pos s x y p).1 (at_pos s x y p).2
       ∧ bnd occ s (at_pos s x y p).1 (at_pos s x y p).2 = true.
Proof.
  induction 1 as [x y _|x y r Hin Hb Hrun IH]; intros p Hp; [lia|].
  pose proof (next_line_pos s x y) as [Hl Hnp].
  destruct (decide (p = pos s x y + 1)) as [->|Hne].
  - by rewrite at_pos_next.
  - rewrite <- (at_pos_same_line s (next s x y).1 (next s x y).2 x y) by exact Hl.
    apply IH. lia.
Qed.

Lemma RunEnd_stop s x y r :
  RunEnd occ s x y r →
  ¬ (inRange (at_pos s x y r).1 (at_pos s x y r).2
     ∧ bnd occ s (at_pos s x y r).1 (at_pos s x y r).2 = true).
Proof.
  induction 1 as [x y Hn|x y r Hin Hb Hrun IH].
  - by rewrite at_pos_next.
  - rewrite <- (at_pos_same_line s (next s x y).1 (next s x y).2 x y);
      [exact IH|].
    apply next_line_pos.
Qed.

Lemma RunStart_cells s x y q :
  RunStart occ s x y q →
  ∀ p, q ≤ p < pos s x y →
       inRange (at_pos s x y p).1 (at_pos s x y p).2
       ∧ bnd occ s (at_pos s x y p).1 (at_pos s x y p).2 = true.
Proof.
  intros H p Hp. pose proof (at_pos_line_pos s x y p) as [Hl Hpp].
  apply (RunStart_run occ s x y q H); [done|lia].
Qed.

(** The scan is over: every side of every cell of the extent is checked. *)
Context (st' : State).
Hypothesis HI : Inv occ (λ a b _, inRange a b) st'.

Lemma final_flag s x y : inRange x y → flagAt st' x y s = bnd occ s x y.
Proof. intros H. by apply (inv_flag _ _ _ HI). Qed.

Lemma final_end s x y r :
  inRange x y → bnd occ s x y = true → RunEnd occ s x y r →
  ∃ e, getEdge st' (idAt st' x y s) = Some e ∧ endPos s e = r.
Proof.
  intros Hin Hb Hr. induction Hr as [x y Hn|x y r Hin' Hb' Hrun IH].
  - apply (inv_last _ _ _ HI); [done|by rewrite final_flag|].
    intros [Hi Hf]. rewrite final_flag in Hf by done. tauto.
  - rewrite <- (inv_link _ _ _ HI x y s); try done; try (by rewrite final_flag).
    by apply IH.
Qed.

(** Along a stretch of boundary cells the id does not change. *)
Lemma final_ids s x y (n : nat) :
  (∀ p, pos s x y ≤ p ≤ pos s x y + Z.of_nat n →
        inRange (at_pos s x y p).1 (at_pos s x y p).2
        ∧ bnd occ s (at_pos s x y p).1 (at_pos s x y p).2 = true) →
  idAt st' (at_pos s x y (pos s x y + Z.of_nat n)).1
       (at_pos s x y (pos s x y + Z.of_nat n)).2 s
  = idAt st' x y s.
Proof.
  induction n as [|n IH]; intros H.
  - by rewrite Z.add_0_r, at_pos_self.
  - rewrite <- IH by (intros p Hp; apply H; lia).
    destruct (H (pos s x y + Z.of_nat n)) as [Hi Hb]; [lia|].
    destruct (H (pos s x y + Z.of_nat (S n))) as [Hi' Hb']; [lia|].
    pose proof (at_pos_line_pos s x y (pos s x y + Z.of_nat n)) as [Hl Hp].
    assert (Hnext : next s (at_pos s x y (pos s x y + Z.of_nat n)).1
                      (at_pos s x y (pos s x y + Z.of_nat n)).2
                    = at_pos s x y (pos s x y + Z.of_nat (S n))).
    { rewrite <- at_pos_next, Hp. rewrite (at_pos_same_line s _ _ x y) by done.
      f_equal. lia. }
    pose proof (inv_link _ _ _ HI _ _ s Hi) as L. rewrite Hnext in L.
    apply L; try done; by rewrite final_flag.
Qed.

Lemma final_ids_between s x y p1 p2 :
  p1 ≤ p2 →
  (∀ p, p1 ≤ p ≤ p2 →
        inRange (at_pos s x y p).1 (at_pos s x y p).2
        ∧ bnd occ s (at_pos s x y p).1 (at_pos s x y p).2 = true) →
  idAt st' (at_pos s x y p2).1 (at_pos s x y p2).2 s
  = idAt st' (at_pos s x y p1).1 (at_pos s x y p1).2 s.
Proof.
  intros Hle H.
  pose proof (at_pos_line_pos s x y p1) as [Hl Hp].
  assert (Hat : ∀ p, at_pos s (at_pos s x y p1).1 (at_pos s x y p1).2 p
                     = at_pos s x y p).
  { intros p. by apply at_pos_same_line. }
  assert (F : idAt st'
                (at_pos s (at_pos s x y p1).1 (at_pos s x y p1).2
                   (pos s (at_pos s x y p1).1 (at_pos s x y p1).2
                    + Z.of_nat (Z.to_nat (p2 - p1)))).1
                (at_pos s (at_pos s x y p1).1 (at_pos s x y p1).2
                   (pos s (at_pos s x y p1).1 (at_pos s x y p1).2
                    + Z.of_nat (Z.to_nat (p2 - p1)))).2 s
              = idAt st' (at_pos s x y p1).1 (at_pos s x y p1).2 s).
  { apply final_ids. intros p Hpp. rewrite Hat. apply H. lia. }
  rewrite Hat, Hp in F.
  by replace (p1 + Z.of_nat (Z.to_nat (p2 - p1))) with p2 in F by lia.
Qed.

Lemma segment_eq s x y e q r :
  onLine s x y e → startPos s e = q → endPos s e = r → e = segment s x y q r.
Proof. destruct s, e; simpl; intros [? ?] ? ?; f_equal; lia. Qed.

End Runs.

(** ** More on what a recompute builds *)

(** What a recompute keeps of a state, whatever the state: the occupancy,
    the cells outside the extent, the coordinates stored in each cell, the
    light and the rays. *)
Record Keeps (st st' : State) : Prop :=
  { keep_has : ∀ a b, hasCell st' a b = hasCell st a b;
    keep_outside : ∀ a b, ¬ inRange a b → getCell st' a b = getCell st a b;
    keep_coords : ∀ a b c', getCell st' a b = Some c' →
      ∃ c, getCell st a b = Some c
           ∧ Cell.x c' = Cell.x c ∧ Cell.y c' = Cell.y c;
    keep_light : lightSource st' = lightSource st;
    keep_rays : rays st' = rays st }.

Section KeepsLemmas.

Lemma Keeps_refl st : Keeps st st.
Proof. split; eauto. Qed.

Lemma Keeps_trans st1 st2 st3 : Keeps st1 st2 → Keeps st2 st3 → Keeps st1 st3.
Proof.
  intros H1 H2. split.
  - intros a b. by rewrite (keep_has _ _ H2), (keep_has _ _ H1).
  - intros a b Hn. by rewrite (keep_outside _ _ H2), (keep_outside _ _ H1).
  - intros a b c3 Hc3.
    destruct (keep_coords _ _ H2 _ _ _ Hc3) as (c2 & Hc2 & -> & ->).
    destruct (keep_coords _ _ H1 _ _ _ Hc2) as (c1 & Hc1 & -> & ->). eauto.
  - by rewrite (keep_light _ _ H2), (keep_light _ _ H1).
  - by rewrite (keep_rays _ _ H2), (keep_rays _ _ H1).
Qed.

Lemma forM_rel {A} (R : State → State → Prop) (l : list A) body st st' :
  (∀ s, R s s) → (∀ s1 s2 s3, R s1 s2 → R s2 s3 → R s1 s3) →
  (∀ a s s', a ∈ l → body a s = Some s' → R s s') →
  forM l body st = Some st' → R st st'.
Proof.
  intros Hrefl Htrans. revert st. induction l as [|a l IH]; intros st Hbody; simpl.
  - intros [= <-]. apply Hrefl.
  - destruct (body a st) as [s1|] eqn:Hb; [|done]. intros Hrun.
    eapply Htrans.
    + eapply Hbody; [left|done].
    + apply IH; [|done]. intros a' s s' Ha'. apply Hbody. by right.
Qed.

Lemma forM_skip {A} (l : list A) body st :
  (∀ a, a ∈ l → body a st = Some st) → forM l body st = Some st.
Proof.
  induction l as [|a l IH]; intros H; simpl; [done|].
  rewrite H by left. apply IH. intros a' Ha'. apply H. by right.
Qed.

(** The cell writes of one side check, as writes. *)
Lemma checkSide_cells s x y st st' :
  checkSide s x y st = Some st' →
  ∃ fl i,
    cells st' = cells (writeCell x y (setId s i) (writeCell x y (setExist s fl) st))
    ∧ lightSource st' = lightSource st ∧ rays st' = rays st.
Proof.
  unfold checkSide.
  destruct (across s x y) as [ax ay]. destruct (extending s x y) as [nx ny].
  destruct (hasCell st ax ay).
  { intros [= <-]. by eexists _, _. }
  destruct (getCell (writeCell x y (setExist s true) st) nx ny) as [nc|].
  2:{ intros [= <-]. by eexists _, _. }
  destruct (qget (Cell.existEdges nc) s).
  2:{ intros [= <-]. by eexists _, _. }
  destruct (getEdge _ _) as [e|]; [|done].
  intros [= <-]. by eexists _, _.
Qed.

Lemma checkSide_Keeps s x y st st' :
  inRange x y → checkSide s x y st = Some st' → Keeps st st'.
Proof.
  intros Hin Hrun. destruct (checkSide_cells _ _ _ _ _ Hrun) as (fl & i & Hc & Hl & Hr).
  assert (Hget : ∀ a b, getCell st' a b =
            if decide (a = x ∧ b = y)
            then setId s i <$> (setExist s fl <$> getCell st x y)
            else getCell st a b).
  { intros a b.
    transitivity (getCell (writeCell x y (setId s i)
                             (writeCell x y (setExist s fl) st)) a b).
    { unfold getCell. by rewrite Hc. }
    rewrite getCell_writeCell. case_decide.
    - rewrite getCell_writeCell. by rewrite decide_True.
    - rewrite getCell_writeCell. by rewrite decide_False. }
  split; try done.
  - intros a b. apply eq_true_iff_eq. rewrite !hasCell_getCell, Hget.
    case_decide as H; [destruct H as [-> ->]|done].
    by rewrite !fmap_is_Some.
  - intros a b Hn. rewrite Hget, decide_False; [done|]. intros [-> ->]. done.
  - intros a b c'. rewrite Hget. case_decide as H; [|eauto].
    destruct H as [-> ->]. destruct (getCell st x y) as [c|]; [|done].
    simpl. intros [= <-]. eauto.
Qed.

Lemma processCell_Keeps x y st st' :
  inRange x y → processCell x y st = Some st' → Keeps st st'.
Proof.
  intros Hin. unfold processCell. destruct (getCell st x y) as [c|].
  - apply (forM_rel Keeps); [apply Keeps_refl|apply Keeps_trans|].
    intros s t t' _. by apply checkSide_Keeps.
  - intros [= <-]. apply Keeps_refl.
Qed.

Lemma computeEdges_Keeps st st' : computeEdges st = Some st' → Keeps st st'.
Proof.
  unfold computeEdges. intros Hrun.
  apply (Keeps_trans _ (clearEdges st)).
  { split; eauto. }
  revert Hrun. apply (forM_rel Keeps); [apply Keeps_refl|apply Keeps_trans|].
  intros x s s' Hx. apply (forM_rel Keeps); [apply Keeps_refl|apply Keeps_trans|].
  intros y t t' Hy. apply processCell_Keeps.
  apply elem_of_seqZ in Hx, Hy. unfold inRange. lia.
Qed.

End KeepsLemmas.

(** The ids along a stretch of boundary cells, read from one of them. *)
Lemma final_ids_run occ st' (HI : Inv occ (λ a b _, inRange a b) st') s x y p :
  (∀ p', Z.min p (pos s x y) ≤ p' ≤ Z.max p (pos s x y) →
         inRange (at_pos s x y p').1 (at_pos s x y p').2
         ∧ bnd occ s (at_pos s x y p').1 (at_pos s x y p').2 = true) →
  idAt st' (at_pos s x y p).1 (at_pos s x y p).2 s = idAt st' x y s.
Proof.
  intros H. pose proof (at_pos_self s x y) as Hs.
  destruct (Z.le_gt_cases p (pos s x y)) as [Hle|Hgt].
  - pose proof (final_ids_between _ _ HI s x y p (pos s x y) Hle) as F.
    rewrite Hs in F. simpl in F. symmetry. apply F. intros p' ?. apply H. lia.
  - assert (Hle : pos s x y ≤ p) by lia.
    pose proof (final_ids_between _ _ HI s x y (pos s x y) p Hle) as F.
    rewrite Hs in F. simpl in F. apply F. intros p' ?. apply H. lia.
Qed.

(** X7.  The edge of a boundary side is the whole run it lies in.  For a
    cell of the extent with side [s] a boundary, let [q .. r - 1] be the
    positions, along the line of that side, of the longest stretch of cells
    of the extent through the cell that all have side [s] as a boundary.
    After a recompute the id the cell holds for [s] names the segment from
    [q] to [r] on that line, and every cell of the stretch holds the same
    id. *)
Theorem computeEdges_edge_is_maximal_run (st : State) (x y : Z) (s : Side) :
  pristineOutside st = true → inRange x y → bnd (hasCell st) s x y = true →
  ∃ st' q r, computeEdges st = Some st'
    ∧ q ≤ pos s x y < r
    ∧ (∀ p, q ≤ p < r →
         inRange (at_pos s x y p).1 (at_pos s x y p).2
         ∧ bnd (hasCell st) s (at_pos s x y p).1 (at_pos s x y p).2 = true)
    ∧ ¬ (inRange (at_pos s x y (q - 1)).1 (at_pos s x y (q - 1)).2
         ∧ bnd (hasCell st) s (at_pos s x y (q - 1)).1 (at_pos s x y (q - 1)).2
           = true)
    ∧ ¬ (inRange (at_pos s x y r).1 (at_pos s x y r).2
         ∧ bnd (hasCell st) s (at_pos s x y r).1 (at_pos s x y r).2 = true)
    ∧ getEdge st' (idAt st' x y s) = Some (segment s x y q r)
    ∧ (∀ p, q ≤ p < r →
         idAt st' (at_pos s x y p).1 (at_pos s x y p).2 s = idAt st' x y s).
Proof.
  intros Hp Hin Hb.
  destruct (computeEdges_Inv st Hp) as (st' & Hrun & HI & _).
  destruct (RunStart_exists (hasCell st) s x y Hin) as [q Hq].
  destruct (RunEnd_exists (hasCell st) s x y Hin) as [r Hr].
  pose proof (RunStart_le _ _ _ _ _ Hq) as Hqle.
  pose proof (RunEnd_gt _ _ _ _ _ Hr) as Hrgt.
  assert (Hcells : ∀ p, q ≤ p < r →
            inRange (at_pos s x y p).1 (at_pos s x y p).2
            ∧ bnd (hasCell st) s (at_pos s x y p).1 (at_pos s x y p).2 = true).
  { intros p Hpp. destruct (Z.lt_trichotomy p (pos s x y)) as [?|[->|?]].
    - apply (RunStart_cells _ _ _ _ _ Hq). lia.
    - by rewrite at_pos_self.
    - apply (RunEnd_run _ _ _ _ _ Hr). lia. }
  exists st', q, r. split; [done|]. split; [lia|]. split; [done|].
  split; [by apply RunStart_stop|]. split; [by apply RunEnd_stop|].
  assert (Hf : flagAt st' x y s = true) by (by rewrite (final_flag _ _ HI)).
  destruct (inv_edge _ _ _ HI x y s Hin Hf) as (e & He & Hline & Hrs & _).
  destruct (final_end _ _ HI s x y r Hin Hb Hr) as (e' & He' & Hend).
  rewrite He in He'. injection He' as <-.
  pose proof (RunStart_det _ _ _ _ _ _ Hrs Hq) as Hstart.
  split; [rewrite He; f_equal; by apply segment_eq|].
  intros p Hpp. apply (final_ids_run _ _ HI).
  intros p' ?. apply Hcells. lia.
Qed.

Lemma computeEdges_edge_is_maximal_run_witness :
  pristineOutside fourInRow = true ∧ inRange 2 1
  ∧ bnd (hasCell fourInRow) SOUTH 2 1 = true
  ∧ ∃ st' q r, computeEdges fourInRow = Some st'
    ∧ q ≤ pos SOUTH 2 1 < r
    ∧ (∀ p, q ≤ p < r →
         inRange (at_pos SOUTH 2 1 p).1 (at_pos SOUTH 2 1 p).2
         ∧ bnd (hasCell fourInRow) SOUTH (at_pos SOUTH 2 1 p).1
             (at_pos SOUTH 2 1 p).2 = true)
    ∧ ¬ (inRange (at_pos SOUTH 2 1 (q - 1)).1 (at_pos SOUTH 2 1 (q - 1)).2
         ∧ bnd (hasCell fourInRow) SOUTH (at_pos SOUTH 2 1 (q - 1)).1
             (at_pos SOUTH 2 1 (q - 1)).2 = true)
    ∧ ¬ (inRange (at_pos SOUTH 2 1 r).1 (at_pos SOUTH 2 1 r).2
         ∧ bnd (hasCell fourInRow) SOUTH (at_pos SOUTH 2 1 r).1
             (at_pos SOUTH 2 1 r).2 = true)
    ∧ getEdge st' (idAt st' 2 1 SOUTH) = Some (segment SOUTH 2 1 q r)
    ∧ (∀ p, q ≤ p < r →
         idAt st' (at_pos SOUTH 2 1 p).1 (at_pos SOUTH 2 1 p).2 SOUTH
         = idAt st' 2 1 SOUTH).
Proof.
  assert (H1 : pristineOutside fourInRow = true) by (vm_compute; reflexivity).
  assert (H2 : inRange 2 1) by (unfold inRange, TILE_X_COUNT, TILE_Y_COUNT; lia).
  assert (H3 : bnd (hasCell fourInRow) SOUTH 2 1 = true) by (vm_compute; reflexivity).
  repeat (split; [assumption|]).
  exact (computeEdges_edge_is_maximal_run fourInRow 2 1 SOUTH H1 H2 H3).
Defined.

(** X8.  Edge ids identify runs.  After a recompute, two boundary sides of
    cells of the extent hold the same edge id exactly when they are the
    same side, lie on the same line, and every cell between them on that
    line is a cell of the extent with that side a boundary. *)
Theorem computeEdges_same_id_iff_same_run (st : State)
    (x1 y1 : Z) (s1 : Side) (x2 y2 : Z) (s2 : Side) :
  pristineOutside st = true →
  inRange x1 y1 → inRange x2 y2 →
  bnd (hasCell st) s1 x1 y1 = true → bnd (hasCell st) s2 x2 y2 = true →
  ∃ st', computeEdges st = Some st'
    ∧ idAt st' x1 y1 s1 ≠ 0
    ∧ (idAt st' x1 y1 s1 = idAt st' x2 y2 s2
       ↔ s1 = s2 ∧ line s1 x1 y1 = line s1 x2 y2
         ∧ ∀ p, Z.min (pos s1 x1 y1) (pos s1 x2 y2) ≤ p
                ≤ Z.max (pos s1 x1 y1) (pos s1 x2 y2) →
             inRange (at_pos s1 x1 y1 p).1 (at_pos s1 x1 y1 p).2
             ∧ bnd (hasCell st) s1 (at_pos s1 x1 y1 p).1 (at_pos s1 x1 y1 p).2
               = true).
Proof.
  intros Hp Hin1 Hin2 Hb1 Hb2.
  destruct (computeEdges_Inv st Hp) as (st' & Hrun & HI & _).
  exists st'. split; [done|].
  assert (Hf1 : flagAt st' x1 y1 s1 = true) by (by rewrite (final_flag _ _ HI)).
  assert (Hf2 : flagAt st' x2 y2 s2 = true) by (by rewrite (final_flag _ _ HI)).
  destruct (inv_edge _ _ _ HI _ _ _ Hin1 Hf1) as (e1 & He1 & Hl1 & Hr1 & _).
  destruct (inv_edge _ _ _ HI _ _ _ Hin2 Hf2) as (e2 & He2 & Hl2 & Hr2 & _).
  split.
  { intros H0. rewrite H0 in He1. unfold getEdge in He1.
    assert (Hk : 0 ∈ (edges st').*1) by (apply mapGet_is_Some; eauto).
    destruct (inv_keys _ _ _ HI) as [_ Hkeys]. rewrite Hkeys in Hk.
    apply elem_of_seqZ in Hk. lia. }
  split.
  - intros Heq.
    pose proof (inv_side _ _ _ HI _ _ _ _ _ _ Hin1 Hin2 Hf1 Hf2 Heq) as <-.
    rewrite Heq, He2 in He1. injection He1 as <-.
    pose proof (onLine_line _ _ _ _ _ _ Hl1 Hl2) as Hline.
    split; [done|]. split; [done|]. intros p Hpp.
    pose proof (RunStart_le _ _ _ _ _ Hr1). pose proof (RunStart_le _ _ _ _ _ Hr2).
    destruct (Z.le_gt_cases (pos s1 x1 y1) (pos s1 x2 y2)) as [Hle|Hgt].
    + rewrite (at_pos_same_line s1 x1 y1 x2 y2) by done.
      destruct (decide (p = pos s1 x2 y2)) as [->|?]; [by rewrite at_pos_self|].
      apply (RunStart_cells _ _ _ _ _ Hr2). lia.
    + destruct (decide (p = pos s1 x1 y1)) as [->|?]; [by rewrite at_pos_self|].
      apply (RunStart_cells _ _ _ _ _ Hr1). lia.
  - intros (<- & Hline & Hcells).
    pose proof (final_ids_run _ _ HI s1 x1 y1 (pos s1 x2 y2)) as F.
    rewrite (at_pos_same_line s1 x1 y1 x2 y2) in F by done.
    rewrite at_pos_self in F. simpl in F. symmetry. apply F.
    intros p ?. apply Hcells. lia.
Qed.

Lemma computeEdges_same_id_iff_same_run_witness :
  pristineOutside fourInRow = true ∧ inRange 0 1 ∧ inRange 3 1
  ∧ bnd (hasCell fourInRow) NORTH 0 1 = true
  ∧ bnd (hasCell fourInRow) NORTH 3 1 = true
  ∧ ∃ st', computeEdges fourInRow = Some st'
    ∧ idAt st' 0 1 NORTH ≠ 0
    ∧ (idAt st' 0 1 NORTH = idAt st' 3 1 NORTH
       ↔ NORTH = NORTH ∧ line NORTH 0 1 = line NORTH 3 1
         ∧ ∀ p, Z.min (pos NORTH 0 1) (pos NORTH 3 1) ≤ p
                ≤ Z.max (pos NORTH 0 1) (pos NORTH 3 1) →
             inRange (at_pos NORTH 0 1 p).1 (at_pos NORTH 0 1 p).2
             ∧ bnd (hasCell fourInRow) NORTH (at_pos NORTH 0 1 p).1
                 (at_pos NORTH 0 1 p).2 = true).
Proof.
  assert (H1 : pristineOutside fourInRow = true) by (vm_compute; reflexivity).
  assert (H2 : inRange 0 1) by (unfold inRange, TILE_X_COUNT, TILE_Y_COUNT; lia).
  assert (H3 : inRange 3 1) by (unfold inRange, TILE_X_COUNT, TILE_Y_COUNT; lia).
  assert (H4 : bnd (hasCell fourInRow) NORTH 0 1 = true) by (vm_compute; reflexivity).
  assert (H5 : bnd (hasCell fourInRow) NORTH 3 1 = true) by (vm_compute; reflexivity).
  repeat (split; [assumption|]).
  exact (computeEdges_same_id_iff_same_run fourInRow 0 1 NORTH 3 1 NORTH H1 H2 H3 H4 H5).
Defined.

(** X9.  A cell of the extent whose four neighbours are all absent receives
    its four unit sides: after a recompute each of its four flags is set,
    each side's id names the unit edge of that side, and the four ids
    differ. *)
Theorem computeEdges_isolated_cell (st : State) (x y : Z) :
  pristineOutside st = true → inRange x y → hasCell st x y = true →
  hasCell st x (y - 1) = false → hasCell st (x + 1) y = false →
  hasCell st x (y + 1) = false → hasCell st (x - 1) y = false →
  ∃ st', computeEdges st = Some st'
    ∧ (∀ s, flagAt st' x y s = true
            ∧ getEdge st' (idAt st' x y s) = Some (unitEdge s x y))
    ∧ (∀ s1 s2, idAt st' x y s1 = idAt st' x y s2 → s1 = s2).
Proof.
  intros Hp Hin Hc HN HE HS HW.
  destruct (computeEdges_Inv st Hp) as (st' & Hrun & HI & _).
  exists st'. split; [done|].
  assert (Hb : ∀ s, bnd (hasCell st) s x y = true).
  { intros s. unfold bnd. rewrite Hc. destruct s; simpl; by rewrite ?HN, ?HE, ?HS, ?HW. }
  assert (Hf : ∀ s, flagAt st' x y s = true).
  { intros s. by rewrite (final_flag _ _ HI). }
  assert (Hno : ∀ s a b, (a, b) = extending s x y ∨ (a, b) = next s x y →
            bnd (hasCell st) s a b = false).
  { intros s a b Hab. unfold bnd.
    assert (hasCell st a b = false) as ->; [|done].
    destruct s; simpl in Hab; destruct Hab as [[= -> ->]|[= -> ->]]; done. }
  split.
  - intros s. split; [done|].
    destruct (inv_edge _ _ _ HI x y s Hin (Hf s)) as (e & He & Hline & Hrs & _).
    destruct (inv_last _ _ _ HI x y s Hin (Hf s)) as (e' & He' & Hend).
    { intros [Hi Hfn]. rewrite (final_flag _ _ HI) in Hfn by done.
      rewrite (Hno s) in Hfn; [done|]. right. by destruct (next s x y). }
    rewrite He in He'. injection He' as <-. rewrite He. f_equal.
    assert (Hstart : startPos s e = pos s x y).
    { inversion Hrs as [? ? Hstop Heq|? ? ? Hie Hbe _]; subst; [done|].
      rewrite (Hno s) in Hbe; [done|]. left. by destruct (extending s x y). }
    destruct s, e; simpl in *; destruct Hline; f_equal; lia.
  - intros s1 s2 Heq.
    apply (inv_side _ _ _ HI x y s1 x y s2); try done.
Qed.

Lemma computeEdges_isolated_cell_witness :
  pristineOutside (setCell 5 7 true initState) = true ∧ inRange 5 7
  ∧ hasCell (setCell 5 7 true initState) 5 7 = true
  ∧ ∃ st', computeEdges (setCell 5 7 true initState) = Some st'
    ∧ (∀ s, flagAt st' 5 7 s = true
            ∧ getEdge st' (idAt st' 5 7 s) = Some (unitEdge s 5 7))
    ∧ (∀ s1 s2, idAt st' 5 7 s1 = idAt st' 5 7 s2 → s1 = s2).
Proof.
  assert (H1 : pristineOutside (setCell 5 7 true initState) = true)
    by (vm_compute; reflexivity).
  assert (H2 : inRange 5 7) by (unfold inRange, TILE_X_COUNT, TILE_Y_COUNT; lia).
  assert (H3 : hasCell (setCell 5 7 true initState) 5 7 = true)
    by (vm_compute; reflexivity).
  repeat (split; [assumption|]).
  refine (computeEdges_isolated_cell (setCell 5 7 true initState) 5 7 H1 H2 H3 _ _ _ _);
    vm_compute; reflexivity.
Defined.

(** X10.  With no occupied cell in the extent a recompute only clears the
    table: it returns the state with an empty table and the counter at 1,
    whatever cells lie outside the extent and whatever flags they carry. *)
Theorem computeEdges_empty_extent (st : State) :
  (∀ x y, inRange x y → hasCell st x y = false) →
  computeEdges st = Some (clearEdges st)
  ∧ getAllEdges (clearEdges st) = [] ∧ edgeId (clearEdges st) = 1.
Proof.
  intros Hempty. split; [|done]. unfold computeEdges.
  apply forM_skip. intros x Hx. apply forM_skip. intros y Hy.
  unfold processCell.
  assert (Hno : getCell (clearEdges st) x y = None).
  { apply (hasCell_false st). apply Hempty.
    apply elem_of_seqZ in Hx, Hy. unfold inRange. lia. }
  by rewrite Hno.
Qed.

Lemma computeEdges_empty_extent_witness :
  (∀ x y, inRange x y → hasCell (setCell 25 3 true initState) x y = false)
  ∧ computeEdges (setCell 25 3 true initState)
    = Some (clearEdges (setCell 25 3 true initState)).
Proof.
  assert (H : ∀ x y, inRange x y →
            hasCell (setCell 25 3 true initState) x y = false).
  { intros x y [Hx Hy]. rewrite hasCell_setCell.
    rewrite decide_False by (unfold TILE_X_COUNT in Hx; lia). reflexivity. }
  split; [exact H|].
  exact (proj1 (computeEdges_empty_extent (setCell 25 3 true initState) H)).
Defined.

(** X11.  What a recompute never touches, in any state from which it
    returns: which cells are occupied, the cells outside the extent, the
    coordinates stored in each cell, the light source and the rays. *)
Theorem computeEdges_keeps (st st' : State) :
  computeEdges st = Some st' →
  (∀ a b, hasCell st' a b = hasCell st a b)
  ∧ (∀ a b, ¬ inRange a b → getCell st' a b = getCell st a b)
  ∧ (∀ a b c', getCell st' a b = Some c' →
       ∃ c, getCell st a b = Some c
            ∧ Cell.x c' = Cell.x c ∧ Cell.y c' = Cell.y c)
  ∧ lightSource st' = lightSource st
  ∧ rays st' = rays st.
Proof.
  intros Hrun. destruct (computeEdges_Keeps _ _ Hrun) as [H1 H2 H3 H4 H5]. eauto.
Qed.

Lemma computeEdges_keeps_witness :
  ∃ st', computeEdges (withLight (Some (40, 40)%float) threeOutside) = Some st'
    ∧ (∀ a b, hasCell st' a b
              = hasCell (withLight (Some (40, 40)%float) threeOutside) a b)
    ∧ lightSource st' = Some (40, 40)%float.
Proof.
  destruct (computeEdges (withLight (Some (40, 40)%float) threeOutside))
    as [st'|] eqn:Hrun.
  - exists st'. split; [reflexivity|].
    destruct (computeEdges_keeps _ _ Hrun) as (H1 & _ & _ & H4 & _).
    split; [exact H1|exact H4].
  - exfalso. revert Hrun. vm_compute. discriminate.
Defined.

(** ** Degenerate inputs of [lineIntersect] *)

(** A zero of either sign or a NaN: the values that a product with the
    difference [x - x] can take. *)
Definition zeroOrNaN (f : float) : Prop :=
  match Prim2SF f with
  | S754_zero _ | S754_nan => True
  | _ => False
  end.

Section Degenerate.
Local Open Scope float_scope.

Lemma is_nan_spec (f : float) : is_nan f = true ↔ Prim2SF f = S754_nan.
Proof.
  unfold is_nan. rewrite negb_true_iff, FloatAxioms.eqb_spec.
  unfold SFeqb, SFcompare.
  destruct (Prim2SF f) as [s|s| |s m e].
  - done.
  - by destruct s.
  - done.
  - destruct s; rewrite Z.compare_refl; simpl;
      rewrite ?Pos.compare_cont_refl, ?Pos.compare_refl; done.
Qed.

Lemma nan_outside (v : float) : Prim2SF v = S754_nan → inUnit v = false.
Proof.
  intros H. unfold inUnit. rewrite FloatAxioms.leb_spec, H. reflexivity.
Qed.

Lemma sub_nan_l (a b : float) : Prim2SF a = S754_nan → Prim2SF (a - b) = S754_nan.
Proof. intros H. rewrite FloatAxioms.sub_spec, H. reflexivity. Qed.

Lemma sub_nan_r (a b : float) : Prim2SF b = S754_nan → Prim2SF (a - b) = S754_nan.
Proof.
  intros H. rewrite FloatAxioms.sub_spec, H.
  by destruct (Prim2SF a) as [s|s| |s m e].
Qed.

Lemma add_nan_l (a b : float) : Prim2SF a = S754_nan → Prim2SF (a + b) = S754_nan.
Proof. intros H. rewrite FloatAxioms.add_spec, H. reflexivity. Qed.

Lemma add_nan_r (a b : float) : Prim2SF b = S754_nan → Prim2SF (a + b) = S754_nan.
Proof.
  intros H. rewrite FloatAxioms.add_spec, H.
  by destruct (Prim2SF a) as [s|s| |s m e].
Qed.

Lemma mul_nan_l (a b : float) : Prim2SF a = S754_nan → Prim2SF (a * b) = S754_nan.
Proof. intros H. rewrite FloatAxioms.mul_spec, H. reflexivity. Qed.

Lemma mul_nan_r (a b : float) : Prim2SF b = S754_nan → Prim2SF (a * b) = S754_nan.
Proof.
  intros H. rewrite FloatAxioms.mul_spec, H.
  by destruct (Prim2SF a) as [s|s| |s m e].
Qed.

Lemma opp_nan (a : float) : Prim2SF a = S754_nan → Prim2SF (- a) = S754_nan.
Proof. intros H. rewrite FloatAxioms.opp_spec, H. reflexivity. Qed.

Lemma div_nan_l (a b : float) : Prim2SF a = S754_nan → Prim2SF (a / b) = S754_nan.
Proof. intros H. rewrite FloatAxioms.div_spec, H. reflexivity. Qed.

Lemma div_nan_r (a b : float) : Prim2SF b = S754_nan → Prim2SF (a / b) = S754_nan.
Proof.
  intros H. rewrite FloatAxioms.div_spec, H.
  by destruct (Prim2SF a) as [s|s| |s m e].
Qed.

(** [x - x] is [+0] for a finite [x] and a NaN otherwise. *)
Lemma sub_diag (x : float) : zeroOrNaN (x - x).
Proof.
  unfold zeroOrNaN. rewrite FloatAxioms.sub_spec. unfold SF64sub, SFsub.
  destruct (Prim2SF x) as [s|s| |s m e]; [by destruct s|by destruct s|done|].
  unfold shl_align. rewrite Z.min_id, !Z.sub_diag. reflexivity.
Qed.

Lemma zeroOrNaN_opp a : zeroOrNaN a → zeroOrNaN (- a).
Proof.
  unfold zeroOrNaN. rewrite FloatAxioms.opp_spec.
  by destruct (Prim2SF a) as [s|s| |s m e].
Qed.

Lemma zeroOrNaN_mul_l a b : zeroOrNaN a → zeroOrNaN (a * b).
Proof.
  unfold zeroOrNaN. rewrite FloatAxioms.mul_spec. unfold SF64mul, SFmul.
  destruct (Prim2SF a) as [s|s| |s m e]; try done;
    by destruct (Prim2SF b) as [s'|s'| |s' m' e'].
Qed.

Lemma zeroOrNaN_mul_r a b : zeroOrNaN b → zeroOrNaN (a * b).
Proof.
  unfold zeroOrNaN. rewrite FloatAxioms.mul_spec. unfold SF64mul, SFmul.
  destruct (Prim2SF b) as [s|s| |s m e]; try done;
    by destruct (Prim2SF a) as [s'|s'| |s' m' e'].
Qed.

Lemma zeroOrNaN_add a b : zeroOrNaN a → zeroOrNaN b → zeroOrNaN (a + b).
Proof.
  unfold zeroOrNaN. rewrite FloatAxioms.add_spec. unfold SF64add, SFadd.
  destruct (Prim2SF a) as [s|s| |s m e]; try done;
    destruct (Prim2SF b) as [s'|s'| |s' m' e']; try done.
  by destruct s, s'.
Qed.

Lemma zeroOrNaN_sub a b : zeroOrNaN a → zeroOrNaN b → zeroOrNaN (a - b).
Proof.
  unfold zeroOrNaN. rewrite FloatAxioms.sub_spec. unfold SF64sub, SFsub.
  destruct (Prim2SF a) as [s|s| |s m e]; try done;
    destruct (Prim2SF b) as [s'|s'| |s' m' e']; try done.
  by destruct s, s'.
Qed.

(** [0 / 0], and every quotient with a NaN, is a NaN. *)
Lemma zeroOrNaN_div a b :
  zeroOrNaN a → zeroOrNaN b → Prim2SF (a / b) = S754_nan.
Proof.
  unfold zeroOrNaN. rewrite FloatAxioms.div_spec. unfold SF64div, SFdiv.
  destruct (Prim2SF a) as [s|s| |s m e]; try done;
    by destruct (Prim2SF b) as [s'|s'| |s' m' e'].
Qed.

End Degenerate.

(** X12.  A segment of zero length meets nothing: when the two ends of the
    first segment coincide, or the two ends of the second, [lineIntersect]
    returns none for every choice of the other coordinates, also when the
    point lies on the other segment.  Both the numerator of a parameter and
    the determinant are then a zero or a NaN, and their quotient is a
    NaN. *)
Theorem lineIntersect_zero_length (x0 y0 x1 y1 x2 y2 x3 y3 : float) :
  (x1 = x0 ∧ y1 = y0) ∨ (x3 = x2 ∧ y3 = y2) →
  lineIntersect x0 y0 x1 y1 x2 y2 x3 y3 = None.
Proof.
  intros H. rewrite lineIntersect_unfold.
  assert (Hd : zeroOrNaN (det x0 y0 x1 y1 x2 y2 x3 y3)).
  { unfold det. destruct H as [[-> ->]|[-> ->]].
    - apply zeroOrNaN_add.
      + apply zeroOrNaN_mul_r, sub_diag.
      + apply zeroOrNaN_mul_l, sub_diag.
    - apply zeroOrNaN_add.
      + apply zeroOrNaN_mul_l, zeroOrNaN_opp, sub_diag.
      + apply zeroOrNaN_mul_r, sub_diag. }
  destruct H as [[-> ->]|[-> ->]].
  - assert (Hs : inUnit (paramS x0 y0 x0 y0 x2 y2 x3 y3) = false).
    { apply nan_outside. unfold paramS. apply zeroOrNaN_div; [|done].
      apply zeroOrNaN_add.
      - apply zeroOrNaN_mul_l, zeroOrNaN_opp, sub_diag.
      - apply zeroOrNaN_mul_l, sub_diag. }
    by rewrite Hs.
  - assert (Ht : inUnit (paramT x0 y0 x1 y1 x2 y2 x2 y2) = false).
    { apply nan_outside. unfold paramT. apply zeroOrNaN_div; [|done].
      apply zeroOrNaN_sub.
      - apply zeroOrNaN_mul_l, sub_diag.
      - apply zeroOrNaN_mul_l, sub_diag. }
    rewrite Ht. by rewrite andb_false_r.
Qed.

Lemma lineIntersect_zero_length_witness :
  ((5 = 5 ∧ 0 = 0) ∨ (5 = 5 ∧ 5 = (-5)))%float
  ∧ lineIntersect 5 0 5 0 5 (-5) 5 5 = None.
Proof.
  assert (H : ((5 = 5 ∧ 0 = 0) ∨ (5 = 5 ∧ 5 = (-5)))%float)
    by (left; split; reflexivity).
  split; [exact H|].
  exact (lineIntersect_zero_length 5 0 5 0 5 (-5) 5 5 H).
Defined.

(** X13.  A NaN among the eight coordinates gives no point: every
    coordinate enters the parameter [s], a NaN operand makes every
    arithmetic result a NaN, and the comparison [s >= 0] with a NaN is
    false. *)
Theorem lineIntersect_nan (x0 y0 x1 y1 x2 y2 x3 y3 : float) :
  existsb is_nan [x0; y0; x1; y1; x2; y2; x3; y3] = true →
  lineIntersect x0 y0 x1 y1 x2 y2 x3 y3 = None.
Proof.
  intros H. rewrite lineIntersect_unfold.
  assert (Hs : inUnit (paramS x0 y0 x1 y1 x2 y2 x3 y3) = false); [|by rewrite Hs].
  apply nan_outside. unfold paramS, det. simpl in H.
  repeat (apply orb_true_iff in H as [H|H]); try discriminate;
    apply is_nan_spec in H.
  - apply div_nan_l, add_nan_l, mul_nan_r, sub_nan_l, H.
  - apply div_nan_l, add_nan_r, mul_nan_r, sub_nan_l, H.
  - apply div_nan_l, add_nan_r, mul_nan_l, sub_nan_l, H.
  - apply div_nan_l, add_nan_l, mul_nan_l, opp_nan, sub_nan_l, H.
  - apply div_nan_l, add_nan_l, mul_nan_r, sub_nan_r, H.
  - apply div_nan_l, add_nan_r, mul_nan_r, sub_nan_r, H.
  - apply div_nan_r, add_nan_l, mul_nan_l, opp_nan, sub_nan_l, H.
  - apply div_nan_r, add_nan_r, mul_nan_r, sub_nan_l, H.
Qed.

Lemma lineIntersect_nan_witness :
  existsb is_nan [0; 0; 10; 0; 5; (-5); 5; nan]%float = true
  ∧ lineIntersect 0 0 10 0 5 (-5) 5 nan = None.
Proof.
  assert (H : existsb is_nan [0; 0; 10; 0; 5; (-5); 5; nan]%float = true)
    by (vm_compute; reflexivity).
  split; [exact H|].
  exact (lineIntersect_nan 0 0 10 0 5 (-5) 5 nan H).
Defined.

(** ** The list of all cells *)

(** Every cell object sits in the map under the coordinates it carries. *)
Definition coordsOk (st : State) : Prop :=
  ∀ x y c, getCell st x y = Some c → Cell.x c = x ∧ Cell.y c = y.

Section AllCells.

Lemma elem_of_getAllCells st c :
  c ∈ getAllCells st ↔ ∃ x y, getCell st x y = Some c.
Proof.
  unfold getAllCells, getCell. rewrite list_elem_of_bind. split.
  - intros ([x ys] & Hc & Hx). apply elem_of_map_to_list in Hx.
    apply list_elem_of_fmap in Hc as ([y c'] & -> & Hy).
    apply elem_of_map_to_list in Hy. exists x, y. simpl in *. by rewrite Hx.
  - intros (x & y & H). destruct (cells st !! x) as [ys|] eqn:Hx; [|done].
    exists (x, ys). split; [|by apply elem_of_map_to_list].
    apply list_elem_of_fmap. exists (y, c). split; [done|].
    by apply elem_of_map_to_list.
Qed.

Lemma coordsOk_init : coordsOk initState.
Proof. intros x y c. by unfold getCell. Qed.

Lemma coordsOk_setCell x y v st : coordsOk st → coordsOk (setCell x y v st).
Proof.
  intros H a b c. rewrite getCell_setCell. case_decide as Hab; [|apply H].
  destruct Hab as [-> ->]. destruct v; [|done]. by intros [= <-].
Qed.

Lemma coordsOk_computeEdges st st' :
  coordsOk st → computeEdges st = Some st' → coordsOk st'.
Proof.
  intros H Hrun a b c' Hc'.
  destruct (keep_coords _ _ (computeEdges_Keeps _ _ Hrun) _ _ _ Hc')
    as (c & Hc & -> & ->).
  by apply H.
Qed.

Lemma Reachable_coordsOk st : Reachable st → coordsOk st.
Proof.
  induction 1 as [|x y v st _ IH|st st' _ IH Hrun|l st _ IH|M st _ IH].
  - apply coordsOk_init.
  - by apply coordsOk_setCell.
  - by eapply coordsOk_computeEdges.
  - exact IH.
  - intros x y c Hc. apply (IH x y c). revert Hc.
    unfold getCell, getRaysToEdges. by destruct (lightSource st) as [[? ?]|].
Qed.

Lemma NoDup_getAllCells st : coordsOk st → NoDup (getAllCells st).
Proof.
  intros Hok. unfold getAllCells. apply NoDup_bind.
  - intros [x1 ys1] [x2 ys2] c H1 H2 Hc1 Hc2.
    apply elem_of_map_to_list in H1, H2. simpl in *.
    apply list_elem_of_fmap in Hc1 as ([y1 c1] & -> & Hy1).
    apply list_elem_of_fmap in Hc2 as ([y2 c2] & Heq & Hy2).
    apply elem_of_map_to_list in Hy1, Hy2. simpl in *. subst c2.
    assert (G1 : getCell st x1 y1 = Some c1) by (unfold getCell; by rewrite H1).
    assert (G2 : getCell st x2 y2 = Some c1) by (unfold getCell; by rewrite H2).
    destruct (Hok _ _ _ G1) as [E1 _]. destruct (Hok _ _ _ G2) as [E2 _].
    assert (x1 = x2) as -> by congruence. rewrite H1 in H2. by injection H2 as ->.
  - intros [x ys] Hx. apply elem_of_map_to_list in Hx. simpl.
    apply NoDup_fmap_2_strong; [|apply NoDup_map_to_list].
    intros [y1 c1] [y2 c2] Hy1 Hy2 Heq.
    apply elem_of_map_to_list in Hy1, Hy2. simpl in *. subst c2.
    assert (G1 : getCell st x y1 = Some c1) by (unfold getCell; by rewrite Hx).
    assert (G2 : getCell st x y2 = Some c1) by (unfold getCell; by rewrite Hx).
    destruct (Hok _ _ _ G1) as [_ E1]. destruct (Hok _ _ _ G2) as [_ E2].
    f_equal. congruence.
  - apply NoDup_map_to_list.
Qed.

End AllCells.

(** X14.  In every state of a session [getAllCells] lists the occupied
    cells, each once: the list has no repetition, a cell object is in it
    exactly when the map holds it under the coordinates the object carries,
    and a position is occupied exactly when the list has a cell with those
    coordinates.  (The order of the list, insertion order in the source, is
    not part of the statement.) *)
Theorem getAllCells_lists_occupied (st : State) :
  Reachable st →
  NoDup (getAllCells st)
  ∧ (∀ c, c ∈ getAllCells st ↔ getCell st (Cell.x c) (Cell.y c) = Some c)
  ∧ (∀ x y, hasCell st x y = true
            ↔ ∃ c, c ∈ getAllCells st ∧ Cell.x c = x ∧ Cell.y c = y).
Proof.
  intros HR. pose proof (Reachable_coordsOk st HR) as Hok.
  split; [by apply NoDup_getAllCells|]. split.
  - intros c. rewrite elem_of_getAllCells. split.
    + intros (x & y & H). destruct (Hok _ _ _ H) as [-> ->]. done.
    + eauto.
  - intros x y. rewrite hasCell_getCell. split.
    + intros [c Hc]. exists c. destruct (Hok _ _ _ Hc) as [-> ->].
      split; [|done]. apply elem_of_getAllCells. eauto.
    + intros (c & Hc & <- & <-). apply elem_of_getAllCells in Hc as (x & y & H).
      destruct (Hok _ _ _ H) as [-> ->]. eauto.
Qed.

Lemma getAllCells_lists_occupied_witness :
  Reachable threeInRow
  ∧ NoDup (getAllCells threeInRow)
  ∧ length (getAllCells threeInRow) = 3%nat.
Proof.
  assert (H : Reachable threeInRow)
    by (unfold threeInRow; repeat apply reach_setCell; apply reach_init).
  split; [exact H|].
  split; [exact (proj1 (getAllCells_lists_occupied threeInRow H))|].
  vm_compute. reflexivity.
Defined.

(** ** The event handlers *)

(** [setupCanvas] keeps, beside the grid, the edge table, the light and the
    rays, two drag flags and the hovered tile.  Its handlers are the callers
    of [setCell], [computeEdges] and [getRaysToEdges]. *)
Record Ui : Type := mkUi
  { world : State;
    isCreating : bool;
    isRemoving : bool;
    hovered : option (Z * Z) }.

(** The fields of a [MouseEvent] that the handlers read. *)
Record MouseEvent : Type := mkMouseEvent
  { offsetX : float;
    offsetY : float;
    button : Z }.

(** [Math.floor] of a finite number, as an integer: the greatest integer
    not above [(-1)^s * m * 2^e].  An infinity and a NaN have none;
    [offsetX] and [offsetY] are of the Web IDL type [double], which has
    neither. *)
Definition mathFloor (f : float) : option Z :=
  match Prim2SF f with
  | S754_zero _ => Some 0
  | S754_finite s m e =>
      let n := if s then Z.neg m else Z.pos m in
      Some (if 0 <=? e then n * 2 ^ e else n `div` 2 ^ (- e))
  | _ => None
  end.

(** [Math.floor(v / TILE_SIZE)] *)
Definition tileOf (v : float) : option Z :=
  mathFloor (v / Z2F TILE_SIZE)%float.

(** The two loops that fill the cells around the border. *)
Definition fillBorder (st : State) : State :=
  let st1 :=
    fold_left (λ st x, setCell x (TILE_Y_COUNT - 1) true (setCell x 0 true st))
      (seqZ 0 TILE_X_COUNT) st in
  fold_left (λ st y, setCell (TILE_X_COUNT - 1) y true (setCell 0 y true st))
    (seqZ 0 TILE_Y_COUNT) st1.

(** The state in which [setupCanvas] leaves its closure; none if the first
    recompute throws. *)
Definition setupCanvas : option Ui :=
  st ← computeEdges (fillBorder initState);
  Some (mkUi st false false None).

(** The handlers.  A result of none is a thrown [TypeError], or coordinates
    without a tile. *)
Definition mousemove (M : Math) (e : MouseEvent) (ui : Ui) : option Ui :=
  let st0 := withLight (Some (offsetX e, offsetY e)) (world ui) in
  tileX ← tileOf (offsetX e);
  tileY ← tileOf (offsetY e);
  st1 ← (if isCreating ui then computeEdges (setCell tileX tileY true st0)
         else Some st0);
  st2 ← (if isRemoving ui then computeEdges (setCell tileX tileY false st1)
         else Some st1);
  Some (mkUi (getRaysToEdges M st2) (isCreating ui) (isRemoving ui)
          (Some (tileX, tileY))).

Definition mouseleave (ui : Ui) : Ui :=
  mkUi (withLight None (world ui)) (isCreating ui) (isRemoving ui) None.

Definition mousedown (e : MouseEvent) (ui : Ui) : option Ui :=
  tileX ← tileOf (offsetX e);
  tileY ← tileOf (offsetY e);
  if decide (button e = 2) then Some ui
  else
    let isOnCell := hasCell (world ui) tileX tileY in
    st ← computeEdges
           (setCell tileX tileY (negb (hasCell (world ui) tileX tileY))
              (world ui));
    Some (mkUi st (negb isOnCell) isOnCell (hovered ui)).

Definition mouseup (ui : Ui) : Ui :=
  mkUi (world ui) false false (hovered ui).

(** The states of the page: set up, then any sequence of events. *)
Inductive UiReachable (M : Math) : Ui → Prop :=
  | ui_setup ui : setupCanvas = Some ui → UiReachable M ui
  | ui_mousemove e ui ui' :
      UiReachable M ui → mousemove M e ui = Some ui' → UiReachable M ui'
  | ui_mouseleave ui : UiReachable M ui → UiReachable M (mouseleave ui)
  | ui_mousedown e ui ui' :
      UiReachable M ui → mousedown e ui = Some ui' → UiReachable M ui'
  | ui_mouseup ui : UiReachable M ui → UiReachable M (mouseup ui).

(** The edge table is the one of the grid: a recompute would build the
    table that is there. *)
Definition inSync (st : State) : Prop :=
  ∃ st', computeEdges st = Some st' ∧ edges st' = edges st.

Section Handlers.
Context (M : Math).

Lemma inSync_computeEdges st st' : computeEdges st = Some st' → inSync st'.
Proof.
  intros Hrun.
  destruct (computeEdges_Sim st st' st') as (st2 & Hrun2 & He); [| |done|].
  - intros a b. symmetry. by eapply computeEdges_has.
  - intros a b Hn. symmetry. by eapply computeEdges_outside.
  - by exists st2.
Qed.

Lemma inSync_same st1 st2 :
  cells st2 = cells st1 → edges st2 = edges st1 → inSync st1 → inSync st2.
Proof.
  intros Hc He (st1' & Hrun & Heq).
  destruct (computeEdges_Sim st1 st2 st1') as (st2' & Hrun2 & He2); [| |done|].
  - intros a b. unfold hasCell. by rewrite Hc.
  - intros a b _. unfold getCell. by rewrite Hc.
  - exists st2'. split; [done|]. by rewrite He2, Heq, He.
Qed.

Lemma cells_getRaysToEdges st : cells (getRaysToEdges M st) = cells st.
Proof. unfold getRaysToEdges. by destruct (lightSource st) as [[? ?]|]. Qed.

Lemma edges_getRaysToEdges st : edges (getRaysToEdges M st) = edges st.
Proof. unfold getRaysToEdges. by destruct (lightSource st) as [[? ?]|]. Qed.

Lemma light_getRaysToEdges st :
  lightSource (getRaysToEdges M st) = lightSource st.
Proof.
  unfold getRaysToEdges. by destruct (lightSource st) as [[? ?]|] eqn:H.
Qed.

Lemma getRaysToEdges_fresh st :
  getRaysToEdges M (getRaysToEdges M st) = getRaysToEdges M st.
Proof.
  unfold getRaysToEdges.
  destruct (lightSource st) as [[lx ly]|] eqn:H; simpl; by rewrite H.
Qed.

Lemma Reachable_fillBorder st : Reachable st → Reachable (fillBorder st).
Proof.
  assert (H : ∀ (f : State → Z → State) l s,
            (∀ s x, Reachable s → Reachable (f s x)) →
            Reachable s → Reachable (fold_left f l s)).
  { intros f l. induction l as [|x l IH]; intros s Hf Hs; simpl; [done|].
    apply IH; [done|]. by apply Hf. }
  intros Hs. unfold fillBorder. apply H.
  { intros s x Hr. by do 2 apply reach_setCell. }
  apply H; [|done]. intros s x Hr. by do 2 apply reach_setCell.
Qed.

(** A recompute after one [setCell]. *)
Lemma recompute_after_setCell x y v st :
  pristineOutside st = true →
  ∃ st', computeEdges (setCell x y v st) = Some st'
    ∧ pristineOutside st' = true ∧ inSync st'
    ∧ (∀ a b, hasCell st' a b
              = if decide (a = x ∧ b = y) then v else hasCell st a b)
    ∧ lightSource st' = lightSource st ∧ rays st' = rays st.
Proof.
  intros Hp.
  assert (Hp' : pristineOutside (setCell x y v st) = true).
  { apply pristineOutside_spec, pristine_setCell. by apply pristineOutside_spec. }
  destruct (computeEdges_Inv _ Hp') as (st' & Hrun & _).
  exists st'. split; [done|]. split.
  { apply pristineOutside_spec. eapply pristine_computeEdges; [|done].
    by apply pristineOutside_spec. }
  split; [by eapply inSync_computeEdges|].
  destruct (computeEdges_Keeps _ _ Hrun) as [Hhas _ _ Hl Hrays].
  split; [|split].
  - intros a b. rewrite Hhas. apply hasCell_setCell.
  - rewrite Hl. by destruct v; unfold setCell; simpl; [|destruct (cells st !! x)].
  - rewrite Hrays. by destruct v; unfold setCell; simpl; [|destruct (cells st !! x)].
Qed.

Lemma mousemove_run e ui tx ty :
  pristineOutside (world ui) = true →
  tileOf (offsetX e) = Some tx → tileOf (offsetY e) = Some ty →
  ∃ st2,
    mousemove M e ui
    = Some (mkUi (getRaysToEdges M st2) (isCreating ui) (isRemoving ui)
              (Some (tx, ty)))
    ∧ pristineOutside st2 = true
    ∧ (Reachable (world ui) → Reachable st2)
    ∧ (inSync (world ui) → inSync st2)
    ∧ (∀ a b, hasCell st2 a b
              = if decide (a = tx ∧ b = ty)
                then (if isRemoving ui then false
                      else if isCreating ui then true
                      else hasCell (world ui) a b)
                else hasCell (world ui) a b)
    ∧ lightSource st2 = Some (offsetX e, offsetY e)
    ∧ (isCreating ui = false → isRemoving ui = false →
       st2 = withLight (Some (offsetX e, offsetY e)) (world ui)).
Proof.
  intros Hp Htx Hty. unfold mousemove. rewrite Htx, Hty.
  cbv zeta. cbn [mbind option_bind].
  set (st0 := withLight (Some (offsetX e, offsetY e)) (world ui)).
  assert (Hp0 : pristineOutside st0 = true) by exact Hp.
  assert (H1 : ∃ st1,
            (if isCreating ui then computeEdges (setCell tx ty true st0)
             else Some st0) = Some st1
            ∧ pristineOutside st1 = true
            ∧ (Reachable (world ui) → Reachable st1)
            ∧ (inSync (world ui) → inSync st1)
            ∧ (∀ a b, hasCell st1 a b
                      = if decide (a = tx ∧ b = ty)
                        then (if isCreating ui then true
                              else hasCell (world ui) a b)
                        else hasCell (world ui) a b)
            ∧ lightSource st1 = Some (offsetX e, offsetY e)
            ∧ (isCreating ui = false → st1 = st0)).
  { destruct (isCreating ui).
    - destruct (recompute_after_setCell tx ty true st0 Hp0)
        as (st1 & Hrun & Hp1 & Hs1 & Hh1 & Hl1 & _).
      exists st1. split; [done|]. split; [done|]. split.
      { intros Hr. eapply reach_computeEdges; [|exact Hrun].
        by apply reach_setCell, reach_light. }
      split; [done|]. split; [exact Hh1|]. split; [exact Hl1|]. done.
    - exists st0. split; [done|]. split; [done|]. split; [by apply reach_light|].
      split; [by apply inSync_same|]. split; [|done].
      intros a b. by case_decide. }
  destruct H1 as (st1 & -> & Hp1 & Hr1 & Hs1 & Hh1 & Hl1 & He1).
  cbn [mbind option_bind].
  destruct (isRemoving ui).
  - destruct (recompute_after_setCell tx ty false st1 Hp1)
      as (st2 & Hrun & Hp2 & Hs2 & Hh2 & Hl2 & _).
    rewrite Hrun. cbn [mbind option_bind].
    exists st2. split; [done|]. split; [done|]. split.
    { intros Hr. eapply reach_computeEdges; [|exact Hrun].
      by apply reach_setCell, Hr1. }
    split; [done|]. split.
    { intros a b. rewrite Hh2. case_decide; [done|]. rewrite Hh1.
      by rewrite decide_False. }
    split; [by rewrite Hl2|]. done.
  - exists st1. split; [done|]. split; [done|]. split; [done|]. split; [done|].
    split; [exact Hh1|]. split; [done|]. intros Hc _. by apply He1.
Qed.

Lemma mousedown_run e ui tx ty :
  pristineOutside (world ui) = true →
  tileOf (offsetX e) = Some tx → tileOf (offsetY e) = Some ty →
  button e ≠ 2 →
  ∃ st',
    mousedown e ui
    = Some (mkUi st' (negb (hasCell (world ui) tx ty))
              (hasCell (world ui) tx ty) (hovered ui))
    ∧ computeEdges (setCell tx ty (negb (hasCell (world ui) tx ty)) (world ui))
      = Some st'
    ∧ pristineOutside st' = true ∧ inSync st'
    ∧ (∀ a b, hasCell st' a b
              = if decide (a = tx ∧ b = ty)
                then negb (hasCell (world ui) tx ty)
                else hasCell (world ui) a b)
    ∧ lightSource st' = lightSource (world ui)
    ∧ rays st' = rays (world ui).
Proof.
  intros Hp Htx Hty Hb. unfold mousedown. rewrite Htx, Hty. simpl.
  rewrite decide_False by done.
  destruct (recompute_after_setCell tx ty (negb (hasCell (world ui) tx ty))
              (world ui) Hp) as (st' & Hrun & Hp' & Hs & Hh & Hl & Hrays).
  rewrite Hrun. simpl. by exists st'.
Qed.

Lemma setupCanvas_run :
  ∃ st, setupCanvas = Some (mkUi st false false None)
        ∧ Reachable st ∧ inSync st.
Proof.
  assert (Hr : Reachable (fillBorder initState))
    by apply Reachable_fillBorder, reach_init.
  destruct (computeEdges_Inv _ (Reachable_pristine _ Hr)) as (st & Hrun & _).
  exists st. unfold setupCanvas. rewrite Hrun. split; [done|].
  split; [by eapply reach_computeEdges|by eapply inSync_computeEdges].
Qed.

Lemma UiReachable_inv ui :
  UiReachable M ui →
  Reachable (world ui) ∧ inSync (world ui)
  ∧ isCreating ui && isRemoving ui = false.
Proof.
  induction 1 as [ui Hs|e ui ui' _ IH Hm|ui _ IH|e ui ui' _ IH Hd|ui _ IH].
  - destruct setupCanvas_run as (st & Hrun & Hr & Hsync).
    rewrite Hrun in Hs. clear Hrun. injection Hs as <-. simpl.
    split; [exact Hr|]. split; [exact Hsync|reflexivity].
  - destruct IH as (Hr & Hsync & Hex).
    destruct (tileOf (offsetX e)) as [tx|] eqn:Htx.
    2:{ unfold mousemove in Hm. by rewrite Htx in Hm. }
    destruct (tileOf (offsetY e)) as [ty|] eqn:Hty.
    2:{ unfold mousemove in Hm. by rewrite Htx, Hty in Hm. }
    destruct (mousemove_run e ui tx ty (Reachable_pristine _ Hr) Htx Hty)
      as (st2 & Hrun & _ & Hr2 & Hs2 & _).
    rewrite Hrun in Hm. injection Hm as <-. simpl.
    split; [by apply reach_rays, Hr2|]. split; [|done].
    apply (inSync_same st2); [apply cells_getRaysToEdges
                             |apply edges_getRaysToEdges|by apply Hs2].
  - destruct IH as (Hr & Hsync & Hex). simpl.
    split; [by apply reach_light|]. split; [|done]. by apply (inSync_same (world ui)).
  - destruct IH as (Hr & Hsync & Hex).
    destruct (tileOf (offsetX e)) as [tx|] eqn:Htx.
    2:{ unfold mousedown in Hd. by rewrite Htx in Hd. }
    destruct (tileOf (offsetY e)) as [ty|] eqn:Hty.
    2:{ unfold mousedown in Hd. by rewrite Htx, Hty in Hd. }
    destruct (decide (button e = 2)) as [Hb|Hb].
    { unfold mousedown in Hd. rewrite Htx, Hty in Hd. simpl in Hd.
      rewrite decide_True in Hd by done. by injection Hd as <-. }
    destruct (mousedown_run e ui tx ty (Reachable_pristine _ Hr) Htx Hty Hb)
      as (st' & Hrun & Hce & _ & Hs' & _).
    rewrite Hrun in Hd. injection Hd as <-. simpl.
    split; [|split; [done|by destruct (hasCell (world ui) tx ty)]].
    eapply reach_computeEdges; [|exact Hce]. by apply reach_setCell.
  - destruct IH as (Hr & Hsync & Hex). done.
Qed.

End Handlers.

(** X15.  The page never throws.  [setupCanvas] returns, and from every
    state the page can be in, for every event whose coordinates are finite
    numbers, [mousemove] and [mousedown] return, again in a state of the
    page: the non-null assertion in [computeEdges] never fails under the
    handlers. *)
Theorem handlers_return (M : Math) (e : MouseEvent) (ui : Ui) :
  UiReachable M ui →
  is_Some (tileOf (offsetX e)) → is_Some (tileOf (offsetY e)) →
  is_Some setupCanvas
  ∧ (∃ ui', mousemove M e ui = Some ui' ∧ UiReachable M ui')
  ∧ (∃ ui', mousedown e ui = Some ui' ∧ UiReachable M ui').
Proof.
  intros Hr [tx Htx] [ty Hty].
  destruct (UiReachable_inv M ui Hr) as (Hw & _ & _).
  pose proof (Reachable_pristine _ Hw) as Hp.
  split.
  { destruct setupCanvas_run as (st & Hrun & _). rewrite Hrun. clear Hrun.
    eexists. reflexivity. }
  split.
  - destruct (mousemove_run M e ui tx ty Hp Htx Hty) as (st2 & Hrun & _).
    eexists. split; [exact Hrun|]. by eapply ui_mousemove.
  - destruct (decide (button e = 2)) as [Hb|Hb].
    + exists ui. split; [|done]. unfold mousedown. rewrite Htx, Hty. simpl.
      by rewrite decide_True.
    + destruct (mousedown_run e ui tx ty Hp Htx Hty Hb) as (st' & Hrun & _).
      eexists. split; [exact Hrun|]. by eapply ui_mousedown.
Qed.

Lemma handlers_return_witness :
  ∃ ui, setupCanvas = Some ui
    ∧ (∃ ui', mousemove sampleMath (mkMouseEvent 40 40 0) ui = Some ui'
              ∧ UiReachable sampleMath ui')
    ∧ (∃ ui', mousedown (mkMouseEvent 40 40 0) ui = Some ui'
              ∧ UiReachable sampleMath ui').
Proof.
  destruct setupCanvas as [ui|] eqn:Hs.
  - exists ui. split; [reflexivity|].
    assert (Hx : is_Some (tileOf (offsetX (mkMouseEvent 40 40 0))))
      by (exists 2; vm_compute; reflexivity).
    assert (Hy : is_Some (tileOf (offsetY (mkMouseEvent 40 40 0))))
      by (exists 2; vm_compute; reflexivity).
    exact (proj2 (handlers_return sampleMath (mkMouseEvent 40 40 0) ui
                    (ui_setup sampleMath ui Hs) Hx Hy)).
  - exfalso. revert Hs. vm_compute. discriminate.
Defined.

(** X16.  In every state of the page the edge table is the one of the grid
    (a recompute would build the table that is there), the grid is a state
    of a session, and the two drag flags are never both set, so a mouse
    move recomputes at most once. *)
Theorem page_invariant (M : Math) (ui : Ui) :
  UiReachable M ui →
  inSync (world ui) ∧ Reachable (world ui)
  ∧ isCreating ui && isRemoving ui = false.
Proof.
  intros H. destruct (UiReachable_inv M ui H) as (? & ? & ?). done.
Qed.

Lemma page_invariant_witness :
  ∃ ui, setupCanvas = Some ui
    ∧ inSync (world ui) ∧ Reachable (world ui)
    ∧ isCreating ui && isRemoving ui = false.
Proof.
  destruct setupCanvas as [ui|] eqn:Hs.
  - exists ui. split; [reflexivity|].
    exact (page_invariant sampleMath ui (ui_setup sampleMath ui Hs)).
  - exfalso. revert Hs. vm_compute. discriminate.
Defined.

(** X17.  A press of a button other than the right one toggles the tile
    under the pointer and nothing else of the grid, starts a drag that
    creates if the tile was free and removes if it was occupied, and
    recomputes the edges; it leaves the light, the rays and the hovered tile
    as they were.  A press of the right button changes nothing. *)
Theorem mousedown_toggles (e : MouseEvent) (ui : Ui) (tx ty : Z) :
  pristineOutside (world ui) = true →
  tileOf (offsetX e) = Some tx → tileOf (offsetY e) = Some ty →
  (button e = 2 → mousedown e ui = Some ui)
  ∧ (button e ≠ 2 →
     ∃ ui', mousedown e ui = Some ui'
       ∧ (∀ a b, hasCell (world ui') a b
                 = if decide (a = tx ∧ b = ty)
                   then negb (hasCell (world ui) tx ty)
                   else hasCell (world ui) a b)
       ∧ isCreating ui' = negb (hasCell (world ui) tx ty)
       ∧ isRemoving ui' = hasCell (world ui) tx ty
       ∧ inSync (world ui')
       ∧ lightSource (world ui') = lightSource (world ui)
       ∧ rays (world ui') = rays (world ui)
       ∧ hovered ui' = hovered ui).
Proof.
  intros Hp Htx Hty. split.
  - intros Hb. unfold mousedown. rewrite Htx, Hty. simpl. by rewrite decide_True.
  - intros Hb.
    destruct (mousedown_run e ui tx ty Hp Htx Hty Hb)
      as (st' & Hrun & _ & _ & Hs & Hh & Hl & Hrays).
    eexists. split; [exact Hrun|]. simpl. done.
Qed.

Lemma mousedown_toggles_witness :
  pristineOutside threeInRow = true
  ∧ tileOf 40 = Some 2 ∧ tileOf 20 = Some 1
  ∧ ∃ ui', mousedown (mkMouseEvent 40 20 0) (mkUi threeInRow false false None)
           = Some ui'
      ∧ hasCell (world ui') 2 1 = false
      ∧ isCreating ui' = false ∧ isRemoving ui' = true.
Proof.
  assert (H1 : pristineOutside threeInRow = true) by (vm_compute; reflexivity).
  assert (H2 : tileOf 40 = Some 2) by (vm_compute; reflexivity).
  assert (H3 : tileOf 20 = Some 1) by (vm_compute; reflexivity).
  repeat (split; [assumption|]).
  destruct (proj2 (mousedown_toggles (mkMouseEvent 40 20 0)
                     (mkUi threeInRow false false None) 2 1 H1 H2 H3))
    as (ui' & Hrun & Hh & Hc & Hr & _).
  { simpl. lia. }
  exists ui'. split; [exact Hrun|]. split.
  - rewrite Hh. reflexivity.
  - split; [rewrite Hc|rewrite Hr]; reflexivity.
Defined.

(** X18.  A mouse move puts the light at the pointer and the hovered tile
    under it; during a drag it sets or removes the tile under the pointer
    and recomputes, otherwise it leaves the grid and the edge table alone;
    and the rays it leaves are those of the light and the edge table as
    they are at the end of the handler. *)
Theorem mousemove_paints (M : Math) (e : MouseEvent) (ui : Ui) (tx ty : Z) :
  pristineOutside (world ui) = true →
  tileOf (offsetX e) = Some tx → tileOf (offsetY e) = Some ty →
  ∃ ui', mousemove M e ui = Some ui'
    ∧ (∀ a b, hasCell (world ui') a b
              = if decide (a = tx ∧ b = ty)
                then (if isRemoving ui then false
                      else if isCreating ui then true
                      else hasCell (world ui) a b)
                else hasCell (world ui) a b)
    ∧ lightSource (world ui') = Some (offsetX e, offsetY e)
    ∧ hovered ui' = Some (tx, ty)
    ∧ isCreating ui' = isCreating ui ∧ isRemoving ui' = isRemoving ui
    ∧ getRaysToEdges M (world ui') = world ui'
    ∧ (inSync (world ui) → inSync (world ui'))
    ∧ (isCreating ui = false → isRemoving ui = false →
       cells (world ui') = cells (world ui)
       ∧ edges (world ui') = edges (world ui)
       ∧ edgeId (world ui') = edgeId (world ui)).
Proof.
  intros Hp Htx Hty.
  destruct (mousemove_run M e ui tx ty Hp Htx Hty)
    as (st2 & Hrun & _ & _ & Hs & Hh & Hl & Hidle).
  eexists. split; [exact Hrun|]. simpl.
  split.
  { intros a b. rewrite <- Hh. unfold hasCell. by rewrite cells_getRaysToEdges. }
  split; [by rewrite light_getRaysToEdges|]. split; [done|].
  split; [done|]. split; [done|]. split; [apply getRaysToEdges_fresh|]. split.
  { intros Hsync. apply (inSync_same st2); [apply cells_getRaysToEdges
                                           |apply edges_getRaysToEdges|by apply Hs]. }
  intros Hc Hr. rewrite (Hidle Hc Hr).
  rewrite cells_getRaysToEdges, edges_getRaysToEdges.
  split; [done|]. split; [done|].
  unfold getRaysToEdges. simpl. done.
Qed.

Lemma mousemove_paints_witness :
  pristineOutside threeInRow = true
  ∧ tileOf 70 = Some 4 ∧ tileOf 20 = Some 1
  ∧ ∃ ui', mousemove sampleMath (mkMouseEvent 70 20 0)
             (mkUi threeInRow true false None) = Some ui'
      ∧ hasCell (world ui') 4 1 = true
      ∧ lightSource (world ui') = Some (70, 20)%float
      ∧ hovered ui' = Some (4, 1).
Proof.
  assert (H1 : pristineOutside threeInRow = true) by (vm_compute; reflexivity).
  assert (H2 : tileOf 70 = Some 4) by (vm_compute; reflexivity).
  assert (H3 : tileOf 20 = Some 1) by (vm_compute; reflexivity).
  repeat (split; [assumption|]).
  destruct (mousemove_paints sampleMath (mkMouseEvent 70 20 0)
              (mkUi threeInRow true false None) 4 1 H1 H2 H3)
    as (ui' & Hrun & Hh & Hl & Hv & _).
  exists ui'. split; [exact Hrun|]. split.
  - rewrite Hh. reflexivity.
  - split; [exact Hl|exact Hv].
Defined.

(** X19.  Every pixel of the canvas belongs to a tile of the scanned
    extent: for an integer offset [p] with [0 <= p < 320] the handlers
    compute the tile [p div 16], which lies in [0, 20). *)
Theorem tileOf_pixel (p : Z) :
  0 ≤ p < TILE_SIZE * TILE_X_COUNT →
  tileOf (Z2F p) = Some (p `div` TILE_SIZE) ∧ 0 ≤ p `div` TILE_SIZE < TILE_X_COUNT.
Proof.
  intros Hp. split.
  - assert (H : forallb (λ q, bool_decide (tileOf (Z2F q) = Some (q `div` TILE_SIZE)))
                  (seqZ 0 (TILE_SIZE * TILE_X_COUNT)) = true)
      by (vm_compute; reflexivity).
    rewrite forallb_forall in H. specialize (H p).
    eapply bool_decide_eq_true_1, H. apply list_elem_of_In, elem_of_seqZ. lia.
  - unfold TILE_SIZE, TILE_X_COUNT in *. split.
    + apply Z.div_pos; lia.
    + apply Z.div_lt_upper_bound; lia.
Qed.

Lemma tileOf_pixel_witness :
  0 ≤ 37 < TILE_SIZE * TILE_X_COUNT
  ∧ tileOf (Z2F 37) = Some (37 `div` TILE_SIZE)
  ∧ 0 ≤ 37 `div` TILE_SIZE < TILE_X_COUNT.
Proof.
  assert (H : 0 ≤ 37 < TILE_SIZE * TILE_X_COUNT)
    by (unfold TILE_SIZE, TILE_X_COUNT; lia).
  split; [exact H|]. exact (tileOf_pixel 37 H).
Defined.

(** ** [transactionable] and the batched variant of the page *)

(** The two variables a [transactionable] closes over. *)
Record Tx : Type := mkTx
  { isTransaction : bool;
    wasCalled : bool }.

(** Their values when [transactionable] returns. *)
Definition idle : Tx := mkTx false false.

Section Transactionable.
Context {St : Type} (fn : St → option St).

(** [fn] works on a state [St] and may throw; it does not call the wrapper
    itself, as [computeEdges] does not. *)
Definition lock (t : Tx) : Tx := mkTx true (wasCalled t).

Definition unlock (t : Tx) (s : St) : option (Tx * St) :=
  let t1 := mkTx false (wasCalled t) in
  if wasCalled t1 then
    s' ← fn s; Some (mkTx (isTransaction t1) false, s')
  else Some (mkTx (isTransaction t1) false, s).

(** A call of the wrapper. *)
Definition call (t : Tx) (s : St) : option (Tx * St) :=
  if isTransaction t then Some (mkTx (isTransaction t) true, s)
  else s' ← fn s; Some (t, s').

(** What runs between [lock()] and [unlock()]: calls of the wrapper and
    other code, which changes the state but not the wrapper's variables. *)
Inductive Op : Type :=
  | Call
  | Other (g : St → St).

Definition isCall (o : Op) : bool :=
  match o with Call => true | Other _ => false end.

Definition runOp (o : Op) (p : Tx * St) : option (Tx * St) :=
  match o with
  | Call => call p.1 p.2
  | Other g => Some (p.1, g p.2)
  end.

Fixpoint runOps (ops : list Op) (p : Tx * St) : option (Tx * St) :=
  match ops with
  | [] => Some p
  | o :: ops' => p' ← runOp o p; runOps ops' p'
  end.

(** The other code alone. *)
Definition others (ops : list Op) (s : St) : St :=
  fold_left (λ s o, match o with Call => s | Other g => g s end) ops s.

Lemma runOps_locked ops w s :
  runOps ops (mkTx true w, s)
  = Some (mkTx true (w || existsb isCall ops), others ops s).
Proof.
  revert w s. induction ops as [|o ops IH]; intros w s; simpl.
  - by rewrite orb_false_r.
  - destruct o as [|g]; simpl.
    + rewrite IH. by rewrite orb_true_r.
    + by rewrite IH.
Qed.

End Transactionable.

Arguments Op : clear implicits.

(** A loop over a list for code that runs with a wrapper. *)
Fixpoint forT {A St} (l : list A) (body : A → Tx * St → option (Tx * St))
    (p : Tx * St) : option (Tx * St) :=
  match l with
  | [] => Some p
  | a :: l' => p' ← body a p; forT l' body p'
  end.

(** [setCell] as the [Proxy] around [createCells()] hands it out: the
    target's [setCell], then the wrapped [computeEdges]. *)
Definition setCellT (x y : Z) (value : bool) (p : Tx * State)
    : option (Tx * State) :=
  call computeEdges p.1 (setCell x y value p.2).

(** The set-up and the handlers of the variant: the recompute is left to
    the proxy, and [mousemove] sets the light after the cells. *)
Definition setupCanvasT : option (Tx * Ui) :=
  let t := lock idle in
  p1 ← forT (seqZ 0 TILE_X_COUNT)
         (λ x p, p' ← setCellT x 0 true p; setCellT x (TILE_Y_COUNT - 1) true p')
         (t, initState);
  p2 ← forT (seqZ 0 TILE_Y_COUNT)
         (λ y p, p' ← setCellT 0 y true p; setCellT (TILE_X_COUNT - 1) y true p')
         p1;
  p3 ← unlock computeEdges p2.1 p2.2;
  Some (p3.1, mkUi p3.2 false false None).

Definition mousemoveT (M : Math) (e : MouseEvent) (p : Tx * Ui)
    : option (Tx * Ui) :=
  let ui := p.2 in
  tileX ← tileOf (offsetX e);
  tileY ← tileOf (offsetY e);
  p1 ← (if isCreating ui then setCellT tileX tileY true (p.1, world ui)
        else Some (p.1, world ui));
  p2 ← (if isRemoving ui then setCellT tileX tileY false p1 else Some p1);
  Some (p2.1,
        mkUi (getRaysToEdges M (withLight (Some (offsetX e, offsetY e)) p2.2))
          (isCreating ui) (isRemoving ui) (Some (tileX, tileY))).

Definition mousedownT (e : MouseEvent) (p : Tx * Ui) : option (Tx * Ui) :=
  let ui := p.2 in
  tileX ← tileOf (offsetX e);
  tileY ← tileOf (offsetY e);
  if decide (button e = 2) then Some p
  else
    let isOnCell := hasCell (world ui) tileX tileY in
    p1 ← setCellT tileX tileY (negb (hasCell (world ui) tileX tileY))
           (p.1, world ui);
    Some (p1.1, mkUi p1.2 (negb isOnCell) isOnCell (hovered ui)).

(** A list of [setCell] calls, through the proxy and on the target. *)
Definition setCellsT (ops : list (Z * Z * bool)) (p : Tx * State)
    : option (Tx * State) :=
  forT ops (λ o q, setCellT o.1.1 o.1.2 o.2 q) p.

Definition setCells (ops : list (Z * Z * bool)) (st : State) : State :=
  fold_left (λ s o, setCell o.1.1 o.1.2 o.2 s) ops st.

Section Batching.

(** The light is not read by a recompute. *)
Lemma forM_commute {A} (h : State → State) (l : list A) body :
  (∀ a s, body a (h s) = h <$> body a s) →
  ∀ s, forM l body (h s) = h <$> forM l body s.
Proof.
  intros H. induction l as [|a l IH]; intros s; simpl; [done|].
  rewrite H. destruct (body a s) as [s'|]; simpl; [apply IH|done].
Qed.

Lemma checkSide_withLight l s x y st :
  checkSide s x y (withLight l st) = withLight l <$> checkSide s x y st.
Proof.
  unfold checkSide. destruct (across s x y) as [ax ay].
  destruct (extending s x y) as [nx ny].
  change (hasCell (withLight l st) ax ay) with (hasCell st ax ay).
  destruct (hasCell st ax ay); [done|].
  change (getCell (writeCell x y (setExist s true) (withLight l st)) nx ny)
    with (getCell (writeCell x y (setExist s true) st) nx ny).
  destruct (getCell (writeCell x y (setExist s true) st) nx ny) as [nc|]; [|done].
  destruct (qget (Cell.existEdges nc) s); [|done].
  change (getEdge (writeCell x y (setExist s true) (withLight l st)))
    with (getEdge (writeCell x y (setExist s true) st)).
  by destruct (getEdge (writeCell x y (setExist s true) st)
                 (qget (Cell.edgeIds nc) s)).
Qed.

Lemma processCell_withLight l x y st :
  processCell x y (withLight l st) = withLight l <$> processCell x y st.
Proof.
  unfold processCell.
  change (getCell (withLight l st) x y) with (getCell st x y).
  destruct (getCell st x y); [|done].
  apply forM_commute. intros sd s0. apply checkSide_withLight.
Qed.

Lemma computeEdges_withLight l st :
  computeEdges (withLight l st) = withLight l <$> computeEdges st.
Proof.
  unfold computeEdges.
  change (clearEdges (withLight l st)) with (withLight l (clearEdges st)).
  apply forM_commute. intros x s0. apply forM_commute. intros y s1.
  apply processCell_withLight.
Qed.

Lemma setCell_withLight l x y v st :
  setCell x y v (withLight l st) = withLight l (setCell x y v st).
Proof.
  unfold setCell. destruct v; [done|]. simpl. by destruct (cells st !! x).
Qed.

(** Inside a transaction the proxy only sets the cell. *)
Lemma forT_locked {A} (l : list A) (f : State → A → State)
    (body : A → Tx * State → option (Tx * State)) w st :
  (∀ a w' s, ∃ w'', body a (mkTx true w', s) = Some (mkTx true w'', f s a)
                    ∧ (w' = true → w'' = true) ∧ w'' = true) →
  ∃ w', forT l body (mkTx true w, st) = Some (mkTx true w', fold_left f l st)
        ∧ (w = true → w' = true) ∧ (l ≠ [] → w' = true).
Proof.
  intros Hb. revert w st. induction l as [|a l IH]; intros w st; simpl.
  - exists w. done.
  - destruct (Hb a w st) as (w1 & -> & _ & ->). simpl.
    destruct (IH true (f st a)) as (w' & -> & Hw & _).
    exists w'. split; [done|]. split; intros; by apply Hw.
Qed.

Lemma setCellT_locked x y v w st :
  setCellT x y v (mkTx true w, st) = Some (mkTx true true, setCell x y v st).
Proof. done. Qed.

Lemma setCellT_idle x y v st :
  setCellT x y v (idle, st)
  = (λ s, (idle, s)) <$> computeEdges (setCell x y v st).
Proof.
  unfold setCellT, call. simpl. by destruct (computeEdges (setCell x y v st)).
Qed.

(** Recomputing from two states with the same occupancy and the same cells
    outside the extent gives states that agree on the table, the counter and
    every flag and id. *)
Lemma computeEdges_Sim_all st1 st2 st1' :
  (∀ a b, hasCell st1 a b = hasCell st2 a b) →
  (∀ a b, ¬ inRange a b → getCell st1 a b = getCell st2 a b) →
  computeEdges st1 = Some st1' →
  ∃ st2', computeEdges st2 = Some st2' ∧ Sim (λ a b _, inRange a b) st1' st2'.
Proof.
  intros Hhas Hout Hrun. unfold computeEdges in *.
  destruct (forM_seqZ_Sim (λ cx, Sim (done cx 0 0))
              (λ x, forM (seqZ 0 TILE_Y_COUNT) (λ y, processCell x y))
              0 TILE_X_COUNT (clearEdges st1) (clearEdges st2) st1')
    as (st2' & Hrun2 & HS'); try done.
  - split; try done. intros a b s [[[? ?] ?]|Hn].
    + assert (0 ≤ sideIndex s) by (destruct s; simpl; lia). lia.
    + unfold flagAt, idAt, getCell in *. simpl. by rewrite (Hout a b Hn).
  - intros i s1 s2 s1' Hi HSi Hb. eapply column_Sim; eauto.
  - exists st2'. split; [done|]. eapply Sim_weaken; [exact HS'|].
    intros a b s Hin. left. split; [done|]. left. apply Hin.
Qed.

(** The same grid: occupancy, and the cells outside the extent. *)
Lemma SameGrid_setCell x y v s1 s2 :
  SameGrid s1 s2 → SameGrid (setCell x y v s1) (setCell x y v s2).
Proof.
  intros [H1 H2]. split.
  - intros a b. rewrite !hasCell_setCell. by case_decide.
  - intros a b Hn. rewrite !getCell_setCell. case_decide; [done|by apply H2].
Qed.

Lemma SameGrid_sym s1 s2 : SameGrid s1 s2 → SameGrid s2 s1.
Proof.
  intros [H1 H2]. split.
  - intros a b. by rewrite H1.
  - intros a b Hn. by rewrite H2.
Qed.

Lemma setCells_frame ops st :
  lightSource (setCells ops st) = lightSource st
  ∧ rays (setCells ops st) = rays st.
Proof.
  revert st. induction ops as [|[[x y] v] ops IH]; intros st; simpl; [done|].
  destruct (IH (setCell x y v st)) as [-> ->].
  unfold setCell. destruct v; [done|]. simpl. by destruct (cells st !! x).
Qed.

(** Setting the cells one by one through the idle proxy, with a recompute
    after each: the run returns, and its last recompute started from the
    grid that the plain [setCell] calls build. *)
Lemma setCellsT_eager ops s1 s2 :
  pristineOutside s1 = true → SameGrid s2 s1 →
  lightSource s1 = lightSource s2 → rays s1 = rays s2 →
  ∃ se, setCellsT ops (idle, s1) = Some (idle, se)
    ∧ pristineOutside se = true
    ∧ SameGrid (setCells ops s2) se
    ∧ lightSource se = lightSource s2 ∧ rays se = rays s2
    ∧ (ops ≠ [] → ∃ pre, computeEdges pre = Some se
                         ∧ SameGrid (setCells ops s2) pre).
Proof.
  revert s1 s2. induction ops as [|[[x y] v] ops IH]; intros s1 s2 Hp HG Hl Hr.
  - exists s1. simpl. done.
  - unfold setCellsT. simpl. fold (setCellsT ops).
    rewrite setCellT_idle.
    destruct (recompute_after_setCell x y v s1 Hp)
      as (s1a & Hrun & Hpa & _ & _ & Hla & Hra).
    rewrite Hrun. simpl.
    assert (HGa : SameGrid (setCell x y v s2) s1a).
    { eapply SameGrid_trans; [by apply SameGrid_setCell|].
      by apply computeEdges_SameGrid. }
    assert (Hl2 : lightSource (setCell x y v s2) = lightSource s2
                  ∧ rays (setCell x y v s2) = rays s2).
    { unfold setCell. destruct v; [done|]. simpl. by destruct (cells s2 !! x). }
    destruct Hl2 as [Hl2 Hr2].
    destruct (IH s1a (setCell x y v s2) Hpa HGa) as (se & Hse & Hpe & HGe & Hle & Hre & Hlast).
    { by rewrite Hla, Hl2. }
    { by rewrite Hra, Hr2. }
    exists se. split; [exact Hse|]. split; [done|]. split; [done|].
    split; [by rewrite Hle|]. split; [by rewrite Hre|]. intros _.
    destruct ops as [|o ops'].
    + simpl in Hse. injection Hse as <-.
      exists (setCell x y v s1). split; [done|]. simpl. by apply SameGrid_setCell.
    + destruct Hlast as (pre & Hpre & HGpre); [done|]. by exists pre.
Qed.

End Batching.

(** The set-up of the variant over any two lists and any state. *)
Lemma setup_agrees (l1 l2 : list Z) (st : State) :
  l2 ≠ [] →
  (p1 ← forT l1
          (λ x p, p' ← setCellT x 0 true p;
                  setCellT x (TILE_Y_COUNT - 1) true p')
          (lock idle, st);
   p2 ← forT l2
          (λ y p, p' ← setCellT 0 y true p;
                  setCellT (TILE_X_COUNT - 1) y true p')
          p1;
   p3 ← unlock computeEdges p2.1 p2.2;
   Some (p3.1, mkUi p3.2 false false None))
  = (λ ui, (idle, ui)) <$>
    (s ← computeEdges
           (fold_left
              (λ st y, setCell (TILE_X_COUNT - 1) y true (setCell 0 y true st))
              l2
              (fold_left
                 (λ st x, setCell x (TILE_Y_COUNT - 1) true (setCell x 0 true st))
                 l1 st));
     Some (mkUi s false false None)).
Proof.
  intros Hl2.
  destruct (forT_locked l1
              (λ st x, setCell x (TILE_Y_COUNT - 1) true (setCell x 0 true st))
              (λ x p, p' ← setCellT x 0 true p;
                      setCellT x (TILE_Y_COUNT - 1) true p')
              false st) as (w1 & Hw1 & _ & _).
  { intros x w' s. exists true. rewrite setCellT_locked.
    cbn [mbind option_bind]. rewrite setCellT_locked.
    split; [reflexivity|]. split; reflexivity. }
  unfold lock, idle. cbn [wasCalled]. rewrite Hw1. cbn [mbind option_bind].
  destruct (forT_locked l2
              (λ st y, setCell (TILE_X_COUNT - 1) y true (setCell 0 y true st))
              (λ y p, p' ← setCellT 0 y true p;
                      setCellT (TILE_X_COUNT - 1) y true p')
              w1 (fold_left
                    (λ st x, setCell x (TILE_Y_COUNT - 1) true
                               (setCell x 0 true st))
                    l1 st))
    as (w2 & Hw2 & _ & Hne).
  { intros y w' s. exists true. rewrite setCellT_locked.
    cbn [mbind option_bind]. rewrite setCellT_locked.
    split; [reflexivity|]. split; reflexivity. }
  rewrite Hw2. cbn [mbind option_bind fst snd].
  rewrite (Hne Hl2). unfold unlock. cbn [wasCalled isTransaction].
  match goal with
  | |- context [computeEdges ?s] => generalize (computeEdges s)
  end.
  intros [s1|]; reflexivity.
Qed.

(** X20.  A transaction runs the wrapped function once.  Between [lock()]
    and [unlock()] no call of the wrapper runs the function; [unlock()]
    runs it exactly once, on the state as the other code has left it, if
    the wrapper was called at all, and not otherwise, and it leaves the
    wrapper idle.  Outside a transaction every call runs the function at
    once. *)
Theorem transaction_runs_once {St : Type} (fn : St → option St)
    (ops : list (Op St)) (s : St) :
  (p ← runOps fn ops (lock idle, s); unlock fn p.1 p.2)
  = (if existsb isCall ops then (λ s', (idle, s')) <$> fn (others ops s)
     else Some (idle, others ops s))
  ∧ runOps fn ops (lock idle, s)
    = Some (mkTx true (existsb isCall ops), others ops s)
  ∧ call fn idle s = (λ s', (idle, s')) <$> fn s.
Proof.
  unfold lock, idle. simpl. rewrite runOps_locked. simpl. split; [|split].
  - unfold unlock. simpl. destruct (existsb isCall ops); [|done].
    by destruct (fn (others ops s)).
  - done.
  - unfold call. simpl. by destruct (fn s).
Qed.

(** X21.  Batching changes nothing that can be seen.  A list of [setCell]
    calls through the proxy gives, inside one transaction (one recompute,
    at [unlock()]) and outside of one (a recompute after every call), states
    with the same occupancy, the same edge table and counter, the same flags
    and ids in every cell, the same light and rays; neither run throws. *)
Theorem batching_agrees (ops : list (Z * Z * bool)) (st : State) :
  pristineOutside st = true →
  ∃ se sd,
    setCellsT ops (idle, st) = Some (idle, se)
    ∧ (p ← setCellsT ops (lock idle, st); unlock computeEdges p.1 p.2)
      = Some (idle, sd)
    ∧ (ops ≠ [] → computeEdges (setCells ops st) = Some sd)
    ∧ (ops = [] → se = st ∧ sd = st)
    ∧ edges se = edges sd ∧ edgeId se = edgeId sd
    ∧ (∀ a b, hasCell se a b = hasCell sd a b)
    ∧ (∀ a b s, flagAt se a b s = flagAt sd a b s
                ∧ idAt se a b s = idAt sd a b s)
    ∧ lightSource se = lightSource sd ∧ rays se = rays sd.
Proof.
  intros Hp. destruct ops as [|o ops].
  { exists st, st. simpl. done. }
  destruct (setCellsT_eager (o :: ops) st st Hp (SameGrid_refl st) eq_refl eq_refl)
    as (se & Hse & _ & _ & Hle & Hre & Hlast).
  destruct Hlast as (pre & Hpre & [HG1 HG2]); [done|].
  destruct (computeEdges_Sim_all pre (setCells (o :: ops) st) se)
    as (sd & Hsd & HS); [done|done|done|].
  destruct (forT_locked (o :: ops) (λ s q, setCell q.1.1 q.1.2 q.2 s)
              (λ q r, setCellT q.1.1 q.1.2 q.2 r) false st)
    as (w & Hw & _ & Hw').
  { intros q w' s. exists true. by rewrite setCellT_locked. }
  rewrite (Hw' ltac:(done)) in Hw.
  exists se, sd. split; [exact Hse|]. split.
  { unfold setCellsT, lock, idle. cbn [wasCalled]. rewrite Hw.
    cbn [mbind option_bind fst snd]. unfold unlock. cbn [wasCalled isTransaction].
    fold (setCells (o :: ops) st). rewrite Hsd. done. }
  split; [done|]. split; [done|].
  split; [apply HS|]. split; [apply HS|]. split; [apply HS|]. split.
  { intros a b s. apply HS. destruct (decide (inRange a b)); [by left|by right]. }
  destruct (computeEdges_Keeps _ _ Hsd) as [_ _ _ Hl Hr].
  destruct (setCells_frame (o :: ops) st) as [Hl' Hr'].
  split; congruence.
Qed.

Lemma batching_agrees_witness :
  pristineOutside initState = true
  ∧ ∃ se sd,
      setCellsT [(0, 1, true); (1, 1, true); (0, 1, false)] (idle, initState)
      = Some (idle, se)
      ∧ (p ← setCellsT [(0, 1, true); (1, 1, true); (0, 1, false)]
               (lock idle, initState);
         unlock computeEdges p.1 p.2) = Some (idle, sd)
      ∧ edges se = edges sd
      ∧ getAllEdges sd
        = [Edge.mk 1 1 2 1; Edge.mk 2 1 2 2; Edge.mk 1 2 2 2; Edge.mk 1 1 1 2].
Proof.
  assert (H : pristineOutside initState = true) by (vm_compute; reflexivity).
  split; [exact H|].
  destruct (batching_agrees [(0, 1, true); (1, 1, true); (0, 1, false)]
              initState H)
    as (se & sd & H1 & H2 & _ & _ & H3 & _).
  exists se, sd. split; [exact H1|]. split; [exact H2|]. split; [exact H3|].
  revert H2. vm_compute. intros [= <-]. reflexivity.
Defined.

(** X22.  The variant with the transaction and the proxy behaves as the
    page: its set-up leaves the state of [setupCanvas], and from an idle
    wrapper its [mousemove] and [mousedown] return what the page's handlers
    return, with the wrapper idle again; they throw when those throw. *)
Theorem variant_agrees (M : Math) :
  setupCanvasT = (λ ui, (idle, ui)) <$> setupCanvas
  ∧ (∀ e ui, mousemoveT M e (idle, ui)
             = (λ ui', (idle, ui')) <$> mousemove M e ui)
  ∧ (∀ e ui, mousedownT e (idle, ui)
             = (λ ui', (idle, ui')) <$> mousedown e ui).
Proof.
  split; [|split].
  - apply (setup_agrees (seqZ 0 TILE_X_COUNT) (seqZ 0 TILE_Y_COUNT) initState).
    unfold TILE_Y_COUNT. rewrite seqZ_cons by lia. discriminate.
  - intros e ui. unfold mousemoveT, mousemove. cbv zeta. cbn [fst snd].
    destruct (tileOf (offsetX e)) as [tx|]; [|reflexivity].
    destruct (tileOf (offsetY e)) as [ty|]; [|reflexivity].
    cbn [mbind option_bind].
    destruct (isCreating ui).
    + rewrite setCellT_idle, setCell_withLight, computeEdges_withLight.
      destruct (computeEdges (setCell tx ty true (world ui))) as [s1|];
        [|reflexivity].
      cbn [fmap option_fmap option_map mbind option_bind].
      destruct (isRemoving ui); [|reflexivity].
      rewrite setCellT_idle, setCell_withLight, computeEdges_withLight.
      destruct (computeEdges (setCell tx ty false s1)) as [s2|]; reflexivity.
    + cbn [mbind option_bind].
      destruct (isRemoving ui); [|reflexivity].
      rewrite setCellT_idle, setCell_withLight, computeEdges_withLight.
      destruct (computeEdges (setCell tx ty false (world ui))) as [s2|];
        reflexivity.
  - intros e ui. unfold mousedownT, mousedown. cbv zeta. cbn [fst snd].
    destruct (tileOf (offsetX e)) as [tx|]; [|reflexivity].
    destruct (tileOf (offsetY e)) as [ty|]; [|reflexivity].
    cbn [mbind option_bind].
    destruct (decide (button e = 2)); [reflexivity|].
    rewrite setCellT_idle.
    destruct (computeEdges _) as [s1|]; reflexivity.
Qed.

(** ** Where the rays come from *)

(** X23.  With a light, every returned ray starts at the light and carries
    the angle it was generated with: the direction from the light to an end
    point of an edge, in pixels, plus [(i - 1) * 0.0001] for [i] in 0, 1, 2;
    clipping changes neither.  The list of rays is empty exactly when the
    edge table is. *)
Theorem getRaysToEdges_rays_from_light (M : Math) (lx ly : float) (st : State) :
  (∀ r, r ∈ rays (getRaysToEdges M (withLight (Some (lx, ly)) st)) →
     Ray.sx r = lx ∧ Ray.sy r = ly
     ∧ ∃ p i, p ∈ distinctEnds (getAllEdges st)
         ∧ i ∈ [0; 1; 2]%float
         ∧ Ray.angle r
           = (atan2 M (Z2F p.2 - ly) (Z2F p.1 - lx) + (i - 1) * 0.0001)%float)
  ∧ (rays (getRaysToEdges M (withLight (Some (lx, ly)) st)) = []
     ↔ getAllEdges st = []).
Proof.
  split.
  - intros r Hr. apply getRaysToEdges_elem in Hr as (r0 & Hr0 & ->).
    destruct (clipRay_frame M lx ly (getAllEdges st) r0) as (-> & -> & ->).
    rewrite generateRays_distinct in Hr0.
    apply list_elem_of_bind in Hr0 as (p & Hr0 & Hp).
    unfold rayTriple in Hr0. rewrite !elem_of_cons, elem_of_nil in Hr0.
    destruct Hr0 as [->|[->|[->|[]]]]; unfold rayAt;
      cbn [Ray.sx Ray.sy Ray.angle];
      (split; [reflexivity|]; split; [reflexivity|]; exists p).
    + exists 0%float. split; [done|]. split; [set_solver|reflexivity].
    + exists 1%float. split; [done|]. split; [set_solver|reflexivity].
    + exists 2%float. split; [done|]. split; [set_solver|reflexivity].
  - rewrite getRaysToEdges_rays. split.
    + intros Hnil.
      assert (Hlen : length (generateRays M lx ly (getAllEdges st)) = 0%nat).
      { rewrite <- (length_fmap (clipRay M lx ly (getAllEdges st))).
        rewrite <- (Permutation_length (arraySort_perm compareFn _)).
        by rewrite Hnil. }
      rewrite generateRays_distinct, length_triples in Hlen.
      destruct (getAllEdges st) as [|e es]; [done|]. exfalso.
      unfold distinctEnds in Hlen. simpl in Hlen.
      rewrite decide_False in Hlen by set_solver. simpl in Hlen. lia.
    + intros ->. reflexivity.
Qed.

(** ** Every entry of the table is the edge of a run *)

(** Every entry of the edge table is named by a checked boundary side. *)
Definition Owned (D : Z → Z → Side → Prop) (st : State) : Prop :=
  ∀ id e, (id, e) ∈ edges st →
    ∃ a b s, D a b s ∧ flagAt st a b s = true ∧ idAt st a b s = id.

Section TableOwners.
Context (occ : Z → Z → bool).

Lemma Owned_weaken (D D' : Z → Z → Side → Prop) st :
  Owned D st → (∀ a b s, D a b s → D' a b s) → Owned D' st.
Proof.
  intros HO Hsub id e Hin. destruct (HO id e Hin) as (a & b & s & Hd & ?).
  exists a, b, s. split; [by apply Hsub|done].
Qed.

Lemma mapGet_elem {A} k (v : A) m :
  NoDup m.*1 → (k, v) ∈ m → mapGet k m = Some v.
Proof.
  induction m as [|[k' v'] m IH]; simpl; [intros _ H; inversion H|].
  rewrite NoDup_cons, elem_of_cons. intros [Hnin Hnd] [[= -> ->]|Hin].
  - by rewrite Z.eqb_refl.
  - destruct (Z.eqb_spec k k') as [->|Hne]; [|by apply IH].
    exfalso. apply Hnin. apply list_elem_of_fmap. by exists (k', v).
Qed.

(** One block of the loop body keeps the owners. *)
Lemma checkSide_owned s cx cy st st' :
  Owned (done cx cy (sideIndex s)) st → inRange cx cy →
  hasCell st cx cy = true → checkSide s cx cy st = Some st' →
  Owned (done cx cy (sideIndex s + 1)) st'.
Proof.
  intros HO Hin Hhas Hrun.
  pose proof (checkSide_step s cx cy st Hhas) as Hstep. rewrite Hrun in Hstep.
  assert (Hnew : done cx cy (sideIndex s + 1) cx cy s).
  { split; [done|]. lia. }
  assert (Hold : ∀ fl i, CellUpd st st' cx cy s fl i →
            ∀ id e, (id, e) ∈ edges st →
              ∃ a b s', done cx cy (sideIndex s + 1) a b s'
                        ∧ flagAt st' a b s' = true ∧ idAt st' a b s' = id).
  { intros fl i U id e Hin'.
    destruct (HO id e Hin') as (a & b & s' & [Hr Hd] & Hf & Hi).
    assert (Hne : ¬ (a = cx ∧ b = cy ∧ s' = s)).
    { intros (-> & -> & ->). lia. }
    exists a, b, s'. split; [split; [done|lia]|].
    rewrite (upd_flag _ _ _ _ _ _ _ U), (upd_id _ _ _ _ _ _ _ U).
    by rewrite !decide_False. }
  destruct Hstep as [Hcov U He Hid|Hcov Hfl U He Hid|e0 Hcov Hfl Hget U He Hid].
  - intros id e Hin'. rewrite He in Hin'. by eapply Hold.
  - intros id e Hin'. rewrite He in Hin'.
    apply elem_of_mapSet in Hin' as [[= -> ->]|Hin']; [|by eapply Hold].
    exists cx, cy, s. split; [done|].
    rewrite (upd_flag _ _ _ _ _ _ _ U), (upd_id _ _ _ _ _ _ _ U).
    by rewrite !decide_True.
  - intros id e Hin'. rewrite He in Hin'.
    apply elem_of_mapSet in Hin' as [[= -> ->]|Hin']; [|by eapply Hold].
    exists cx, cy, s. split; [done|].
    rewrite (upd_flag _ _ _ _ _ _ _ U), (upd_id _ _ _ _ _ _ _ U).
    by rewrite !decide_True.
Qed.

Lemma processCell_owned cx cy st st' :
  Inv occ (done cx cy 0) st → Owned (done cx cy 0) st → inRange cx cy →
  processCell cx cy st = Some st' →
  Owned (done cx (cy + 1) 0) st'.
Proof.
  intros HI HO Hin Hrun. unfold processCell in Hrun.
  destruct (getCell st cx cy) as [c|] eqn:Hc.
  - assert (Hhas : hasCell st cx cy = true) by (apply hasCell_getCell; eauto).
    simpl in Hrun.
    destruct (checkSide_done occ NORTH cx cy st HI Hin Hhas)
      as (s1 & E1 & I1 & H1 & _).
    pose proof (checkSide_owned NORTH cx cy st s1 HO Hin Hhas E1) as O1.
    rewrite E1 in Hrun.
    destruct (checkSide_done occ EAST cx cy s1 I1 Hin H1)
      as (s2 & E2 & I2 & H2 & _).
    pose proof (checkSide_owned EAST cx cy s1 s2 O1 Hin H1 E2) as O2.
    rewrite E2 in Hrun.
    destruct (checkSide_done occ SOUTH cx cy s2 I2 Hin H2)
      as (s3 & E3 & I3 & H3 & _).
    pose proof (checkSide_owned SOUTH cx cy s2 s3 O2 Hin H2 E3) as O3.
    rewrite E3 in Hrun.
    destruct (checkSide_done occ WEST cx cy s3 I3 Hin H3)
      as (s4 & E4 & I4 & H4 & _).
    pose proof (checkSide_owned WEST cx cy s3 s4 O3 Hin H3 E4) as O4.
    rewrite E4 in Hrun. injection Hrun as <-.
    eapply Owned_weaken; [exact O4|].
    intros a b s [Hr Hd]. split; [done|]. simpl in Hd. lia.
  - injection Hrun as <-. eapply Owned_weaken; [exact HO|].
    intros a b s [Hr Hd]. split; [done|]. lia.
Qed.

Lemma column_owned cx st :
  Inv occ (done cx 0 0) st → Owned (done cx 0 0) st → 0 ≤ cx < TILE_X_COUNT →
  ∃ st', forM (seqZ 0 TILE_Y_COUNT) (λ y, processCell cx y) st = Some st'
         ∧ Inv occ (done (cx + 1) 0 0) st' ∧ Owned (done (cx + 1) 0 0) st'.
Proof.
  intros HI HO Hcx.
  destruct (forM_seqZ (λ cy st1, Inv occ (done cx cy 0) st1
                                 ∧ Owned (done cx cy 0) st1)
              (λ y, processCell cx y) 0 TILE_Y_COUNT st) as (st' & Hrun & HI' & HO').
  - done.
  - done.
  - intros i st1 Hi [HI1 HO1].
    assert (Hin : inRange cx i) by (unfold inRange; lia).
    destruct (processCell_done occ cx i st1 HI1 Hin) as (st2 & Hp & HI2 & _).
    exists st2. split; [done|]. split; [done|].
    by eapply processCell_owned.
  - exists st'. split; [done|]. split.
    + eapply Inv_weaken; [exact HI'| |].
      * intros a b s [Hr Hd]. split; [done|]. destruct Hr. lia.
      * intros a b s [Hr Hd]. left. split; [done|]. destruct Hr.
        assert (0 ≤ sideIndex s) by (destruct s; simpl; lia). lia.
    + eapply Owned_weaken; [exact HO'|].
      intros a b s [Hr Hd]. split; [done|]. destruct Hr. lia.
Qed.

Lemma scan_owned st :
  (∀ x y, hasCell st x y = occ x y) →
  (∀ x y s, ¬ inRange x y → flagAt st x y s = false) →
  ∃ st', computeEdges st = Some st'
         ∧ Inv occ (λ a b _, inRange a b) st'
         ∧ Owned (λ a b _, inRange a b) st'.
Proof.
  intros Hocc Hpr. unfold computeEdges.
  destruct (forM_seqZ
              (λ cx st1, Inv occ (done cx 0 0) st1 ∧ Owned (done cx 0 0) st1)
              (λ x, forM (seqZ 0 TILE_Y_COUNT) (λ y, processCell x y))
              0 TILE_X_COUNT (clearEdges st)) as (st' & Hrun & HI' & HO').
  - done.
  - split; [by apply Inv_clearEdges|]. intros id e H. simpl in H. inversion H.
  - intros i st1 Hi [HI1 HO1].
    destruct (column_owned i st1 HI1 HO1) as (st2 & Hp & HI2 & HO2); [lia|].
    exists st2. done.
  - exists st'. split; [done|]. split.
    + eapply Inv_weaken; [exact HI'| |].
      * intros a b s [Hr Hd]. done.
      * intros a b s Hr. left. split; [done|]. destruct Hr. lia.
    + eapply Owned_weaken; [exact HO'|]. intros a b s [Hr _]. done.
Qed.

End TableOwners.

Lemma computeEdges_Owned st :
  pristineOutside st = true →
  ∃ st', computeEdges st = Some st'
         ∧ Inv (hasCell st) (λ a b _, inRange a b) st'
         ∧ Owned (λ a b _, inRange a b) st'.
Proof.
  intros H. apply pristineOutside_spec in H. by apply scan_owned.
Qed.

(** After the scan an entry of the table is the segment of the maximal run
    of the side that names it. *)
Lemma table_entry_run occ st' id e :
  Inv occ (λ a b _, inRange a b) st' → Owned (λ a b _, inRange a b) st' →
  (id, e) ∈ edges st' →
  ∃ a b s q r, inRange a b ∧ bnd occ s a b = true ∧ idAt st' a b s = id
    ∧ RunStart occ s a b q ∧ RunEnd occ s a b r
    ∧ e = segment s a b q r.
Proof.
  intros HI HO Hin.
  destruct (HO id e Hin) as (a & b & s & Hr & Hf & Hid).
  assert (Hb : bnd occ s a b = true) by (by rewrite <- (final_flag _ _ HI)).
  destruct (RunStart_exists occ s a b Hr) as [q Hq].
  destruct (RunEnd_exists occ s a b Hr) as [r Hre].
  destruct (inv_edge _ _ _ HI a b s Hr Hf) as (e1 & He1 & Hline & Hrs & _).
  destruct (final_end _ _ HI s a b r Hr Hb Hre) as (e2 & He2 & Hend).
  rewrite He1 in He2. injection He2 as <-.
  assert (e1 = e) as ->.
  { destruct (inv_keys _ _ _ HI) as [_ Hkeys].
    assert (Hg : mapGet id (edges st') = Some e).
    { apply mapGet_elem; [|done]. rewrite Hkeys. apply NoDup_seqZ. }
    unfold getEdge in He1. rewrite Hid, Hg in He1. by injection He1. }
  exists a, b, s, q, r. repeat (split; [done|]).
  apply segment_eq; [done| |done].
  by apply (RunStart_det _ _ _ _ _ _ Hrs Hq).
Qed.

(** A list without repetition whose elements all equal one of them. *)
Lemma NoDup_all_eq {A} (x : A) (l : list A) :
  NoDup l → x ∈ l → (∀ z, z ∈ l → z = x) → l = [x].
Proof.
  intros Hnd Hin Hall. destruct l as [|a l]; [inversion Hin|].
  assert (a = x) as -> by (apply Hall; left).
  destruct l as [|b l]; [done|]. exfalso.
  assert (b = x) as -> by (apply Hall; right; left).
  apply NoDup_cons in Hnd as [Hnin _]. apply Hnin. left.
Qed.

(** An entry of the table that lies on the line of the north sides of three
    cells in a row and meets their span: when the three cells form a whole
    run of north boundaries, the entry is the edge of that run. *)
Lemma north_run_entry occ st' x0 y id' e' :
  Inv occ (λ a b _, inRange a b) st' → Owned (λ a b _, inRange a b) st' →
  inRange x0 y → inRange (x0 + 2) y →
  (∀ p, x0 ≤ p < x0 + 3 → occ p y = true ∧ occ p (y - 1) = false) →
  (x0 = 0 ∨ occ (x0 - 1) y = false ∨ occ (x0 - 1) (y - 1) = true) →
  (x0 + 3 = TILE_X_COUNT ∨ occ (x0 + 3) y = false
   ∨ occ (x0 + 3) (y - 1) = true) →
  (id', e') ∈ edges st' →
  Edge.sy e' = y → Edge.ey e' = y → Edge.sx e' < x0 + 3 → x0 < Edge.ex e' →
  e' = Edge.mk x0 y (x0 + 3) y ∧ id' = idAt st' x0 y NORTH.
Proof.
  intros HI HO Hin0 Hin2 Hrow Hwest Heast Hin Hsy Hey Hsx Hex.
  destruct (table_entry_run occ st' id' e' HI HO Hin)
    as (a & b & s & q & r & Hr & Hb & Hid & Hq & Hre & ->).
  pose proof (RunStart_le _ _ _ _ _ Hq) as Hqle.
  pose proof (RunEnd_gt _ _ _ _ _ Hre) as Hrgt.
  assert (Hcells : ∀ p, q ≤ p < r →
            inRange (at_pos s a b p).1 (at_pos s a b p).2
            ∧ bnd occ s (at_pos s a b p).1 (at_pos s a b p).2 = true).
  { intros p Hp. destruct (Z.lt_trichotomy p (pos s a b)) as [?|[->|?]].
    - apply (RunStart_cells _ _ _ _ _ Hq). lia.
    - by rewrite at_pos_self.
    - apply (RunEnd_run _ _ _ _ _ Hre). lia. }
  pose proof (RunStart_stop _ _ _ _ _ Hq) as Hqstop.
  pose proof (RunEnd_stop _ _ _ _ _ Hre) as Hrstop.
  assert (Hbrow : ∀ p, x0 ≤ p < x0 + 3 →
            inRange p y ∧ bnd occ NORTH p y = true).
  { intros p Hp. destruct (Hrow p Hp) as [H1 H2]. split.
    - unfold inRange in *. lia.
    - unfold bnd. simpl. by rewrite H1, H2. }
  destruct s; simpl in *.
  - (* a north side: the run is the run of the three cells *)
    subst b.
    assert (q = x0) as ->.
    { destruct (Z.lt_trichotomy q x0) as [Hlt|[?|Hgt]]; [|done|]; exfalso.
      - destruct (Hcells (x0 - 1)) as [Hr1 Hb1]; [lia|]. simpl in Hr1, Hb1.
        unfold bnd in Hb1. simpl in Hb1.
        apply andb_true_iff in Hb1 as [Hb1 Hb2]. apply negb_true_iff in Hb2.
        destruct Hwest as [?|[?|?]];
          [unfold inRange in Hr1; lia|congruence|congruence].
      - apply Hqstop. apply Hbrow. lia. }
    assert (r = x0 + 3) as ->.
    { destruct (Z.lt_trichotomy r (x0 + 3)) as [Hlt|[?|Hgt]]; [|done|]; exfalso.
      - apply Hrstop. apply Hbrow. lia.
      - destruct (Hcells (x0 + 3)) as [Hr1 Hb1]; [lia|]. simpl in Hr1, Hb1.
        unfold bnd in Hb1. simpl in Hb1.
        apply andb_true_iff in Hb1 as [Hb1 Hb2]. apply negb_true_iff in Hb2.
        destruct Heast as [?|[?|?]];
          [unfold inRange, TILE_X_COUNT in *; lia|congruence|congruence]. }
    split; [done|]. rewrite <- Hid.
    pose proof (final_ids_run _ _ HI NORTH x0 y a) as F. simpl in F.
    apply F. intros p' Hp'. apply Hbrow. lia.
  - (* an east side: a vertical edge *)
    lia.
  - (* a south side: its cells lie above the three cells *)
    exfalso. destruct (Hcells (Z.max q x0)) as [_ Hb1]; [lia|]. simpl in Hb1.
    unfold bnd in Hb1. apply andb_true_iff in Hb1 as [Hb1 _].
    destruct (Hrow (Z.max q x0)) as [_ H2]; [lia|].
    replace (y - 1) with b in H2 by lia. congruence.
  - (* a west side: a vertical edge *)
    lia.
Qed.

(** C2 (amended).  Three horizontally adjacent occupied cells at [(x0, y)],
    [(x0+1, y)], [(x0+2, y)] inside the scanned extent, with unoccupied north
    neighbours, where the run is not continued on either end (the cell at
    [(x0-1, y)] and the cell at [(x0+3, y)] are each outside the extent,
    absent, or covered from the north): a recompute gives the three cells
    one shared north edge id, and the table holds under that id the edge
    from [(x0, y)] to [(x0+3, y)].  That entry is the only entry of the
    table that is a horizontal edge at height [y] meeting the span of the
    three north sides: the entries selected by this test are that one
    entry, once; in particular none of the three unit edges is in the
    table. *)
Theorem computeEdges_merges_north_run (st : State) (x0 y : Z) :
  pristineOutside st = true →
  inRange x0 y → inRange (x0 + 2) y →
  hasCell st x0 y = true → hasCell st (x0 + 1) y = true →
  hasCell st (x0 + 2) y = true →
  hasCell st x0 (y - 1) = false → hasCell st (x0 + 1) (y - 1) = false →
  hasCell st (x0 + 2) (y - 1) = false →
  (x0 = 0 ∨ hasCell st (x0 - 1) y = false
   ∨ hasCell st (x0 - 1) (y - 1) = true) →
  (x0 + 3 = TILE_X_COUNT ∨ hasCell st (x0 + 3) y = false
   ∨ hasCell st (x0 + 3) (y - 1) = true) →
  ∃ st' id c0 c1 c2, computeEdges st = Some st'
    ∧ getCell st' x0 y = Some c0 ∧ getCell st' (x0 + 1) y = Some c1
    ∧ getCell st' (x0 + 2) y = Some c2
    ∧ qget (Cell.edgeIds c0) NORTH = id ∧ qget (Cell.edgeIds c1) NORTH = id
    ∧ qget (Cell.edgeIds c2) NORTH = id
    ∧ getEdge st' id = Some (Edge.mk x0 y (x0 + 3) y)
    ∧ NoDup (edges st').*1
    ∧ (∀ id' e', (id', e') ∈ edges st' →
         Edge.sy e' = y → Edge.ey e' = y →
         Edge.sx e' < x0 + 3 → x0 < Edge.ex e' →
         id' = id ∧ e' = Edge.mk x0 y (x0 + 3) y)
    ∧ filter (λ p, Edge.sy p.2 = y ∧ Edge.ey p.2 = y
                   ∧ Edge.sx p.2 < x0 + 3 ∧ x0 < Edge.ex p.2) (edges st')
      = [(id, Edge.mk x0 y (x0 + 3) y)]
    ∧ (Edge.mk x0 y (x0 + 1) y ∉ getAllEdges st')
    ∧ (Edge.mk (x0 + 1) y (x0 + 2) y ∉ getAllEdges st')
    ∧ (Edge.mk (x0 + 2) y (x0 + 3) y ∉ getAllEdges st').
Proof.
  intros Hp Hin0 Hin2 Hc0 Hc1 Hc2 Hn0 Hn1 Hn2 Hwest Heast.
  destruct (computeEdges_Owned st Hp) as (st' & Hrun & HI & HO).
  assert (Hin1 : inRange (x0 + 1) y) by (unfold inRange in *; lia).
  assert (Hrow : ∀ p, x0 ≤ p < x0 + 3 →
            hasCell st p y = true ∧ hasCell st p (y - 1) = false).
  { intros p Hpp.
    assert (p = x0 ∨ p = x0 + 1 ∨ p = x0 + 2) as [-> | [-> | ->]] by lia; done. }
  assert (Hb : ∀ k, hasCell st (x0 + k) y = true →
            hasCell st (x0 + k) (y - 1) = false → inRange (x0 + k) y →
            flagAt st' (x0 + k) y NORTH = true).
  { intros k H1 H2 H3. rewrite (inv_flag _ _ _ HI _ _ NORTH H3).
    unfold bnd. simpl. by rewrite H1, H2. }
  pose proof (Hb 0) as F0. rewrite Z.add_0_r in F0. specialize (F0 Hc0 Hn0 Hin0).
  pose proof (Hb 1 Hc1 Hn1 Hin1) as F1. pose proof (Hb 2 Hc2 Hn2 Hin2) as F2.
  pose proof (inv_link _ _ _ HI x0 y NORTH Hin0 F0 Hin1 F1) as L01.
  pose proof (inv_link _ _ _ HI (x0 + 1) y NORTH Hin1 F1) as L12. simpl in L01, L12.
  replace (x0 + 1 + 1) with (x0 + 2) in L12 by lia. specialize (L12 Hin2 F2).
  destruct (inv_edge _ _ _ HI x0 y NORTH Hin0 F0) as (e & He & [Hsy Hey] & Hrs & _).
  destruct (inv_last _ _ _ HI (x0 + 2) y NORTH Hin2 F2) as (e' & He' & Hex).
  { simpl. replace (x0 + 2 + 1) with (x0 + 3) by lia. intros [Hin3 F3].
    rewrite (inv_flag _ _ _ HI _ _ NORTH Hin3) in F3. unfold bnd in F3. simpl in F3.
    apply andb_true_iff in F3 as [F3a F3b]. apply negb_true_iff in F3b.
    destruct Heast as [?|[?|?]]; [unfold inRange in Hin3; lia|congruence|congruence]. }
  rewrite L12, L01, He in He'. injection He' as <-. simpl in Hex.
  assert (Hsx : Edge.sx e = x0).
  { inversion Hrs as [? ? Hstop Heq|? ? ? Hinw Hbw _]; subst; [done|].
    exfalso. simpl in Hinw, Hbw. unfold bnd in Hbw. simpl in Hbw.
    apply andb_true_iff in Hbw as [Hbw1 Hbw2]. apply negb_true_iff in Hbw2.
    destruct Hwest as [?|[?|?]]; [unfold inRange in Hinw; lia|congruence|congruence]. }
  assert (Heq : e = Edge.mk x0 y (x0 + 3) y).
  { destruct e; simpl in *. f_equal; lia. }
  subst e.
  assert (Hnd : NoDup (edges st').*1).
  { destruct (inv_keys _ _ _ HI) as [_ ->]. apply NoDup_seqZ. }
  assert (Honly : ∀ id' e', (id', e') ∈ edges st' →
            Edge.sy e' = y → Edge.ey e' = y →
            Edge.sx e' < x0 + 3 → x0 < Edge.ex e' →
            id' = idAt st' x0 y NORTH ∧ e' = Edge.mk x0 y (x0 + 3) y).
  { intros id' e' Hin' H1 H2 H3 H4.
    destruct (north_run_entry (hasCell st) st' x0 y id' e' HI HO Hin0 Hin2
                Hrow Hwest Heast Hin' H1 H2 H3 H4) as [-> ->]. done. }
  assert (Hunit : ∀ k, 0 ≤ k < 3 →
            Edge.mk (x0 + k) y (x0 + k + 1) y ∉ getAllEdges st').
  { intros k Hk Hin'. unfold getAllEdges in Hin'.
    apply list_elem_of_fmap in Hin' as ([id' e'] & Heq0 & Hin').
    simpl in Heq0. subst e'.
    destruct (Honly id' _ Hin') as [_ Heq]; simpl; try lia.
    injection Heq. lia. }
  assert (Hin : (idAt st' x0 y NORTH, Edge.mk x0 y (x0 + 3) y) ∈ edges st').
  { by apply mapGet_Some_elem. }
  unfold flagAt in F0, F1, F2. unfold idAt in L01, L12, He, Honly, Hin.
  destruct (getCell st' x0 y) as [c0|] eqn:G0; [|done].
  destruct (getCell st' (x0 + 1) y) as [c1|] eqn:G1; [|done].
  destruct (getCell st' (x0 + 2) y) as [c2|] eqn:G2; [|done].
  cbv beta iota in L01, L12, He, Honly, Hin.
  exists st', (qget (Cell.edgeIds c0) NORTH), c0, c1, c2.
  do 9 (split; [done || congruence|]).
  split; [exact Honly|]. split.
  - apply NoDup_all_eq.
    + apply NoDup_filter. by eapply NoDup_fmap_1.
    + apply list_elem_of_filter. split; [simpl; lia|done].
    + intros [id' e'] Hz. apply list_elem_of_filter in Hz as [(H1 & H2 & H3 & H4) Hz].
      simpl in *. destruct (Honly id' e' Hz H1 H2 H3 H4) as [-> ->]. done.
  - pose proof (Hunit 0) as U0. pose proof (Hunit 1) as U1.
    pose proof (Hunit 2) as U2. rewrite Z.add_0_r in U0.
    replace (x0 + 1 + 1) with (x0 + 2) in U1 by lia.
    replace (x0 + 2 + 1) with (x0 + 3) in U2 by lia.
    split; [apply U0; lia|]. split; [apply U1; lia|apply U2; lia].
Qed.

Lemma computeEdges_merges_north_run_witness :
  pristineOutside threeInRow = true
  ∧ inRange 0 1 ∧ inRange (0 + 2) 1
  ∧ hasCell threeInRow 0 1 = true ∧ hasCell threeInRow (0 + 1) 1 = true
  ∧ hasCell threeInRow (0 + 2) 1 = true
  ∧ hasCell threeInRow 0 (1 - 1) = false
  ∧ hasCell threeInRow (0 + 1) (1 - 1) = false
  ∧ hasCell threeInRow (0 + 2) (1 - 1) = false
  ∧ ∃ st' id c0 c1 c2, computeEdges threeInRow = Some st'
      ∧ getCell st' 0 1 = Some c0 ∧ getCell st' (0 + 1) 1 = Some c1
      ∧ getCell st' (0 + 2) 1 = Some c2
      ∧ qget (Cell.edgeIds c0) NORTH = id ∧ qget (Cell.edgeIds c1) NORTH = id
      ∧ qget (Cell.edgeIds c2) NORTH = id
      ∧ getEdge st' id = Some (Edge.mk 0 1 (0 + 3) 1)
      ∧ NoDup (edges st').*1
      ∧ (∀ id' e', (id', e') ∈ edges st' →
           Edge.sy e' = 1 → Edge.ey e' = 1 →
           Edge.sx e' < 0 + 3 → 0 < Edge.ex e' →
           id' = id ∧ e' = Edge.mk 0 1 (0 + 3) 1)
      ∧ filter (λ p, Edge.sy p.2 = 1 ∧ Edge.ey p.2 = 1
                     ∧ Edge.sx p.2 < 0 + 3 ∧ 0 < Edge.ex p.2) (edges st')
        = [(id, Edge.mk 0 1 (0 + 3) 1)]
      ∧ (Edge.mk 0 1 (0 + 1) 1 ∉ getAllEdges st')
      ∧ (Edge.mk (0 + 1) 1 (0 + 2) 1 ∉ getAllEdges st')
      ∧ (Edge.mk (0 + 2) 1 (0 + 3) 1 ∉ getAllEdges st').
Proof.
  assert (H1 : pristineOutside threeInRow = true) by (vm_compute; reflexivity).
  assert (H2 : inRange 0 1) by (unfold inRange, TILE_X_COUNT, TILE_Y_COUNT; lia).
  assert (H3 : inRange (0 + 2) 1) by (unfold inRange, TILE_X_COUNT, TILE_Y_COUNT; lia).
  assert (H4 : hasCell threeInRow 0 1 = true) by (vm_compute; reflexivity).
  assert (H5 : hasCell threeInRow (0 + 1) 1 = true) by (vm_compute; reflexivity).
  assert (H6 : hasCell threeInRow (0 + 2) 1 = true) by (vm_compute; reflexivity).
  assert (H7 : hasCell threeInRow 0 (1 - 1) = false) by (vm_compute; reflexivity).
  assert (H8 : hasCell threeInRow (0 + 1) (1 - 1) = false) by (vm_compute; reflexivity).
  assert (H9 : hasCell threeInRow (0 + 2) (1 - 1) = false) by (vm_compute; reflexivity).
  repeat (split; [assumption|]).
  refine (computeEdges_merges_north_run threeInRow 0 1 H1 H2 H3 H4 H5 H6 H7 H8 H9 _ _).
  - left. reflexivity.
  - right. left. vm_compute. reflexivity.
Defined.

(** ** A ray that passes an inner corner *)

(** A host for one ray: at the arguments that the middle ray toward the
    pixel [(304, 16)] from the light [(25, 28)] needs, the binary64 values
    of [atan2 (-12) 279] and of the cosine and the sine of that angle as a
    libm returns them (glibc's); elsewhere the host of the other
    examples. *)
Definition cornerHost : Math :=
  mkMath
    (λ y x, if ((y =? -12) && (x =? 279))%float
            then (-0x1.602086cbfeb52p-5)%float else atan2 sampleMath y x)
    (λ a, if (a =? -0x1.602086cbfeb52p-5)%float
          then 0x1.ff86ee68108a5p-1%float else cos sampleMath a)
    (λ a, if (a =? -0x1.602086cbfeb52p-5)%float
          then (-0x1.6004c518d1938p-5)%float else sin sampleMath a)
    (pow sampleMath).

(** C3 as stated fails on the first scene of the page, the ring of border
    cells, with the light at [(25, 28)].  The middle ray generated for the
    inner corner [(304, 16)] intersects the inner edge from [(19, 1)] to
    [(19, 19)] at that corner, at squared distance 77985 from the light.
    The outer edge from [(20, 0)] to [(20, 20)] is tried first and shortens
    the ray to [(320, 15.31...)]; against the shortened ray the inner edge
    gives no intersection, and the ray is returned ending on the outer
    edge, at squared distance 87185.98..., behind the corner. *)
Lemma getRaysToEdges_passes_inner_corner :
  ∃ st r0 r p,
    computeEdges (fillBorder initState) = Some st
    ∧ getAllEdges st
      = [Edge.mk 0 0 20 0; Edge.mk 0 0 0 20; Edge.mk 1 1 1 19;
         Edge.mk 0 20 20 20; Edge.mk 1 1 19 1; Edge.mk 1 19 19 19;
         Edge.mk 20 0 20 20; Edge.mk 19 1 19 19]
    ∧ r0 = rayAt cornerHost 25 28
             (atan2 cornerHost (Z2F 16 - 28) (Z2F 304 - 25)) 1
    ∧ r0 ∈ generateRays cornerHost 25 28 (getAllEdges st)
    ∧ r = clipRay cornerHost 25 28 (getAllEdges st) r0
    ∧ r ∈ rays (getRaysToEdges cornerHost (withLight (Some (25, 28)%float) st))
    ∧ Ray.ex r = 320%float ∧ Ray.ey r = 0x1.e9fa7e9fa7e9fp+3%float
    ∧ hit r0 (Edge.mk 19 1 19 19) = Some p
    ∧ p = Point.mk 304 16
    ∧ hit (clipRay cornerHost 25 28
             [Edge.mk 0 0 20 0; Edge.mk 0 0 0 20; Edge.mk 1 1 1 19;
              Edge.mk 0 20 20 20; Edge.mk 1 1 19 1; Edge.mk 1 19 19 19;
              Edge.mk 20 0 20 20] r0) (Edge.mk 19 1 19 19) = None
    ∧ dist2 cornerHost 25 28 (Point.x p) (Point.y p) = 77985%float
    ∧ (dist2 cornerHost 25 28 (Point.x p) (Point.y p)
       <? rayLen2 cornerHost 25 28 r)%float = true.
Proof.
  destruct (computeEdges (fillBorder initState)) as [st|] eqn:Hrun;
    [|vm_compute in Hrun; discriminate].
  assert (Hes : getAllEdges st
            = [Edge.mk 0 0 20 0; Edge.mk 0 0 0 20; Edge.mk 1 1 1 19;
               Edge.mk 0 20 20 20; Edge.mk 1 1 19 1; Edge.mk 1 19 19 19;
               Edge.mk 20 0 20 20; Edge.mk 19 1 19 19]).
  { revert Hrun. vm_compute. by intros [= <-]. }
  clear Hrun.
  eexists st, _, _, _. split; [reflexivity|]. split; [exact Hes|].
  split; [reflexivity|]. split.
  { rewrite Hes. apply list_elem_of_In. vm_compute.
    repeat (first [left; reflexivity | right]). }
  split; [reflexivity|]. split.
  { rewrite getRaysToEdges_rays, Hes. apply list_elem_of_In. vm_compute.
    repeat (first [left; reflexivity | right]). }
  rewrite Hes.
  split; [vm_compute; reflexivity|]. split; [vm_compute; reflexivity|].
  split; [vm_compute; reflexivity|]. split; [reflexivity|].
  split; [vm_compute; reflexivity|]. split; vm_compute; reflexivity.
Qed.
